(** * Region-growing image compressor: pixel store, colour metric and
      adaptive region grower

    A shallow embedding of
      - [include/utils/image_utils.hpp], [src/utils/image_utils.cpp]
        (Color, Point, Image, colorSimilarity) and
      - [include/algorithms/region_grower.hpp],
        [src/algorithms/adaptive_region_grower.cpp]
        (AdaptiveRegionGrower)
    followed by the properties the specification states about them.

    Conventions.
      - [int], [uint8_t], [uint32_t] and [size_t] values are [Z]; every
        narrowing conversion the source performs is written out
        ([to_uint8], [to_uint32], [to_int32], [to_size_t]).
      - [double] is IEEE-754 binary64, Rocq's primitive [float]; every
        operation is rounded on its own, as the C++ abstract machine does
        without contraction.
      - [std::vector] is [list]; [std::unordered_set<Point>] is [gset Point];
        [std::unordered_map<std::string,double>] is [gmap string float].
      - the mutable members ([similarityCache_]) and the locals of the growth
        loop are threaded explicitly. *)

From Stdlib Require Import ZArith Lia Floats.
From stdpp Require Import gmap strings list pretty.

Set Warnings "-inexact-float".
Local Open Scope Z_scope.

(** ** Machine integers *)

Definition to_uint8 (z : Z) : Z := z mod 256.
Definition to_uint32 (z : Z) : Z := z mod 2 ^ 32.
Definition to_int32 (z : Z) : Z := (z + 2 ^ 31) mod 2 ^ 32 - 2 ^ 31.
Definition to_size_t (z : Z) : Z := z mod 2 ^ 64.

(** [static_cast<double>] of an integer that fits 63 bits. *)
Definition Z2F (z : Z) : float :=
  if z <? 0 then PrimFloat.opp (PrimFloat.of_uint63 (Uint63.of_Z (- z)))
  else PrimFloat.of_uint63 (Uint63.of_Z z).

(** [std::min] and [std::max] on doubles, as the standard defines them:
    [min(a,b) = (b < a) ? b : a] and [max(a,b) = (a < b) ? b : a]. *)
Definition std_min (a b : float) : float := if PrimFloat.ltb b a then b else a.
Definition std_max (a b : float) : float := if PrimFloat.ltb a b then b else a.

(** ** Color and Point (image_utils.hpp) *)

(** [struct Color { uint8_t r, g, b; }]; the projections are [c_r], [c_g],
    [c_b]. *)
Record Color : Type := mkColor { c_r : Z; c_g : Z; c_b : Z }.

(** [Color()]: the black sentinel. *)
Definition Color_default : Color := mkColor 0 0 0.

(** [Color(uint8_t r, uint8_t g, uint8_t b)] applied to wider integers:
    the arguments are narrowed to 8 bits. *)
Definition Color_of (r g b : Z) : Color :=
  mkColor (to_uint8 r) (to_uint8 g) (to_uint8 b).

(** The values a [uint8_t] field can hold. *)
Definition is_uint8 (z : Z) : bool := (0 <=? z) && (z <? 256).
Definition wf_color (c : Color) : bool :=
  is_uint8 (c_r c) && is_uint8 (c_g c) && is_uint8 (c_b c).

(** [struct Point { int x, y; }]; the projections are [p_x], [p_y]. *)
Record Point : Type := mkPoint { p_x : Z; p_y : Z }.

#[global] Instance Color_eq_dec : EqDecision Color.
Proof. solve_decision. Defined.
#[global] Instance Point_eq_dec : EqDecision Point.
Proof. solve_decision. Defined.
#[global] Instance Point_countable : Countable Point.
Proof.
  refine (inj_countable' (λ p, (p_x p, p_y p)) (λ q, mkPoint q.1 q.2) _).
  by intros [].
Defined.

(** ** Image (image_utils.hpp, image_utils.cpp) *)

Record Image : Type := mkImage {
  width_ : Z;
  height_ : Z;
  pixels_ : list Color
}.

(** What the constructors establish: positive dimensions (otherwise
    [std::invalid_argument]), [width * height] pixels, each an RGB triple of
    bytes, and a pixel count that fits [int]. *)
Definition wf_image (img : Image) : Prop :=
  0 < width_ img ∧ 0 < height_ img ∧
  width_ img * height_ img < 2 ^ 31 ∧
  Z.of_nat (length (pixels_ img)) = width_ img * height_ img ∧
  Forall (λ c, wf_color c = true) (pixels_ img).

(** [Image(int width, int height)].  The member initialiser
    [pixels_(width * height)] runs before the body: the product is taken in
    [int] (two's-complement wrap-around written out) and converted to the
    [size_t] element count.  A negative product becomes a count of at least
    [2^64 - 2^31], more than a vector of 3-byte elements can hold, and the
    initialiser throws [std::length_error]; otherwise the pixels are
    value-initialised (black).  Then the body throws
    [std::invalid_argument] unless both dimensions are positive.  [None]
    stands for either exception. *)
Definition Image_new (width height : Z) : option Image :=
  let count := to_int32 (width * height) in
  if count <? 0 then None
  else if (width <=? 0) || (height <=? 0) then None
  else Some (mkImage width height
               (replicate (Z.to_nat (to_size_t count)) Color_default)).

Definition getWidth (img : Image) : Z := width_ img.
Definition getHeight (img : Image) : Z := height_ img.

(** [size_t getIndex(int x, int y) const { return y * width_ + x; }] *)
Definition getIndex (img : Image) (x y : Z) : Z := y * width_ img + x.

Definition out_of_bounds (img : Image) (x y : Z) : bool :=
  (x <? 0) || (x >=? width_ img) || (y <? 0) || (y >=? height_ img).

(** [Color Image::getPixel(int x, int y) const] *)
Definition getPixel (img : Image) (x y : Z) : Color :=
  if out_of_bounds img x y then Color_default
  else default Color_default (pixels_ img !! Z.to_nat (getIndex img x y)).

(** [void Image::setPixel(int x, int y, const Color& color)] *)
Definition setPixel (img : Image) (x y : Z) (color : Color) : Image :=
  if out_of_bounds img x y then img
  else mkImage (width_ img) (height_ img)
         (<[Z.to_nat (getIndex img x y) := color]> (pixels_ img)).

(** The three [uint32_t] accumulators of [calculateAverageColor] and of
    [calculateAdaptiveThreshold]: [totalR += color.r] and so on, each
    addition reduced modulo 2^32. *)
Definition accumulate (totals : Z * Z * Z) (color : Color) : Z * Z * Z :=
  let '(totalR, totalG, totalB) := totals in
  (to_uint32 (totalR + c_r color),
   to_uint32 (totalG + c_g color),
   to_uint32 (totalB + c_b color)).

(** [uint32_t / int]: the [int] divisor is converted to [uint32_t]. *)
Definition div_u32_int (total count : Z) : Z := total / to_uint32 count.

(** [static Color Image::calculateAverageColor(points, image)] *)
Definition calculateAverageColor (points : list Point) (image : Image) : Color :=
  match points with
  | [] => Color_default
  | _ =>
    let '(totalR, totalG, totalB) :=
      fold_left (λ totals point,
                   accumulate totals (getPixel image (p_x point) (p_y point)))
                points (0, 0, 0) in
    let count := to_int32 (Z.of_nat (length points)) in
    mkColor (to_uint8 (div_u32_int totalR count))
            (to_uint8 (div_u32_int totalG count))
            (to_uint8 (div_u32_int totalB count))
  end.

(** ** Colour metric (image_utils.cpp) *)

Definition maxDistance : float := 441.67%float.

(** [double colorSimilarity(const Color& c1, const Color& c2)] *)
Definition colorSimilarity (c1 c2 : Color) : float :=
  let dr := (Z2F (c_r c1) - Z2F (c_r c2))%float in
  let dg := (Z2F (c_g c1) - Z2F (c_g c2))%float in
  let db := (Z2F (c_b c1) - Z2F (c_b c2))%float in
  let distance := PrimFloat.sqrt (dr * dr + dg * dg + db * db)%float in
  (1.0 - distance / maxDistance)%float.

(** ** RegionGrower and AdaptiveRegionGrower (region_grower.hpp) *)

(** The data members of [RegionGrower] and [AdaptiveRegionGrower] that are
    fixed at construction.  [rg_width_] and [rg_height_] are
    [RegionGrower::width_] and [RegionGrower::height_]; the mutable member
    [similarityCache_] is threaded through the operations below. *)
Record AdaptiveRegionGrower : Type := mkGrower {
  image_ : Image;
  similarityThreshold_ : float;
  maxRegionSize_ : Z;
  rg_width_ : Z;
  rg_height_ : Z;
  adaptiveMode_ : bool
}.

Abbreviation SimilarityCache := (gmap string float).

(** [AdaptiveRegionGrower]'s constructor passes the image, the threshold and
    the cap to the [RegionGrower] constructor, sets [adaptiveMode_] and
    reserves buckets in [similarityCache_], which starts empty.  The body of
    the [RegionGrower] constructor (region_grower.cpp) is not among the
    sources; growers are therefore taken as records, and [wf_grower] states
    what relates the recorded dimensions to the image. *)
Definition similarityCache_new : SimilarityCache := ∅.

(** The grower's recorded dimensions are those of its image. *)
Definition wf_grower (gr : AdaptiveRegionGrower) : Prop :=
  wf_image (image_ gr) ∧
  rg_width_ gr = width_ (image_ gr) ∧ rg_height_ gr = height_ (image_ gr).

(** [bool isValidCoordinate(int x, int y) const] *)
Definition isValidCoordinate (gr : AdaptiveRegionGrower) (x y : Z) : bool :=
  (x >=? 0) && (x <? rg_width_ gr) && (y >=? 0) && (y <? rg_height_ gr).

Definition neighborOffsets (include8Connected : bool) : list (Z * Z) :=
  [(-1, 0); (1, 0); (0, -1); (0, 1)] ++
  (if include8Connected then [(-1, -1); (1, -1); (-1, 1); (1, 1)] else []).

(** Modelled from the spec: [RegionGrower::getNeighbors] is declared in
    region_grower.hpp and its body (region_grower.cpp) is not among the
    sources.  The spec: neighbour enumeration supports 4-connected or
    8-connected adjacency, and coordinates outside
    [[0,width) × [0,height)] are never returned as neighbours.  The order of
    enumeration is not specified.  [findRegion] below takes the enumeration
    as a parameter; this one serves where a call is evaluated. *)
Definition gridNeighbors (gr : AdaptiveRegionGrower) (x y : Z)
    (include8Connected : bool) : list Point :=
  filter (λ p, isValidCoordinate gr (p_x p) (p_y p) = true)
         (map (λ d, mkPoint (x + d.1) (y + d.2))
              (neighborOffsets include8Connected)).

(** *** calculateAdaptiveThreshold *)

(** The two nested [for] loops filling [localColors]. *)
Definition localColors (gr : AdaptiveRegionGrower) (x y radius : Z) : list Color :=
  let xMin := Z.max 0 (x - radius) in
  let xMax := Z.min (rg_width_ gr - 1) (x + radius) in
  let yMin := Z.max 0 (y - radius) in
  let yMax := Z.min (rg_height_ gr - 1) (y + radius) in
  ly ← seqZ yMin (yMax - yMin + 1);
  lx ← seqZ xMin (xMax - xMin + 1);
  [getPixel (image_ gr) lx ly].

(** [Color avgColor(totalR / count, totalG / count, totalB / count)] *)
Definition averageOf (colors : list Color) : Color :=
  let '(totalR, totalG, totalB) := fold_left accumulate colors (0, 0, 0) in
  let count := to_int32 (Z.of_nat (length colors)) in
  Color_of (div_u32_int totalR count) (div_u32_int totalG count)
           (div_u32_int totalB count).

(** One turn of the variance loop. *)
Definition addDeviation (avgColor : Color) (variance : float) (color : Color)
    : float :=
  let dr := (Z2F (c_r color) - Z2F (c_r avgColor))%float in
  let dg := (Z2F (c_g color) - Z2F (c_g avgColor))%float in
  let db := (Z2F (c_b color) - Z2F (c_b avgColor))%float in
  (variance + (dr * dr + dg * dg + db * db))%float.

(** [double calculateAdaptiveThreshold(int x, int y, int radius) const].
    The source divides by [count]; where the sample is empty ([count] is 0,
    which takes a negative radius or a coordinate off the grid) the
    division is undefined there and the value computed here carries no
    meaning. *)
Definition calculateAdaptiveThreshold (gr : AdaptiveRegionGrower)
    (x y radius : Z) : float :=
  let colors := localColors gr x y radius in
  let count := to_int32 (Z.of_nat (length colors)) in
  let avgColor := averageOf colors in
  let variance := fold_left (addDeviation avgColor) colors 0%float in
  let variance := (variance / (Z2F count * 3.0 * 255.0 * 255.0))%float in
  let varianceFactor := std_min 1.0 (variance * 2.0)%float in
  let adjustedThreshold :=
    (similarityThreshold_ gr
     + (1.0 - similarityThreshold_ gr) * (1.0 - varianceFactor) * 0.3)%float in
  adjustedThreshold.

(** The default argument [radius = 3]; every call in the sources uses it. *)
Definition defaultRadius : Z := 3.

(** *** getCachedSimilarity *)

(** The test of line 66: [c2] precedes [c1] in the order by [(r, g, b)]. *)
Definition Color_precedes (c2 c1 : Color) : bool :=
  (c_r c2 <? c_r c1) ||
  ((c_r c2 =? c_r c1) &&
   ((c_g c2 <? c_g c1) || ((c_g c2 =? c_g c1) && (c_b c2 <? c_b c1)))).

(** [std::to_string] on an [int] (a promoted [uint8_t]): decimal digits. *)
Definition to_string (n : Z) : string := pretty n.

(** [first.r-first.g-first.b_second.r-second.g-second.b] *)
Definition cacheKey (first second : Color) : string :=
  to_string (c_r first) +:+ "-" +:+ to_string (c_g first) +:+ "-" +:+
  to_string (c_b first) +:+ "_" +:+ to_string (c_r second) +:+ "-" +:+
  to_string (c_g second) +:+ "-" +:+ to_string (c_b second).

(** The order-normalised pair [(first, second)]. *)
Definition normalizePair (c1 c2 : Color) : Color * Color :=
  if Color_precedes c2 c1 then (c2, c1) else (c1, c2).

(** [double getCachedSimilarity(const Color& c1, const Color& c2)];
    returns the value together with the cache after the call. *)
Definition getCachedSimilarity (cache : SimilarityCache) (c1 c2 : Color)
    : float * SimilarityCache :=
  let '(first, second) := normalizePair c1 c2 in
  let key := cacheKey first second in
  match cache !! key with
  | Some cached => (cached, cache)
  | None =>
    let similarity := colorSimilarity c1 c2 in
    (similarity, <[key := similarity]> cache)
  end.

(** *** findRegion *)

(** [struct PriorityItem { double priority; Point point; double similarity; }] *)
Record PriorityItem : Type := mkItem {
  priority : float;
  point : Point;
  similarity : float
}.

(** [std::priority_queue<PriorityItem, std::vector<PriorityItem>,
    std::greater<PriorityItem>>]: a multiset of items whose [top] is an item
    of least [priority] ([operator>] compares [priority] only).  The queue is
    kept as the list of its items in order of insertion; among items of equal
    least priority the earliest inserted is taken.  The standard leaves that
    choice to the heap; no property below depends on it. *)
Abbreviation PriorityQueue := (list PriorityItem).

Definition pq_push (q : PriorityQueue) (item : PriorityItem) : PriorityQueue :=
  q ++ [item].

(** [top()] followed by [pop()]: the item taken and the remaining queue. *)
Fixpoint pq_pop (q : PriorityQueue) : option (PriorityItem * PriorityQueue) :=
  match q with
  | [] => None
  | item :: q' =>
    match pq_pop q' with
    | None => Some (item, [])
    | Some (least, rest) =>
      if PrimFloat.ltb (priority least) (priority item)
      then Some (least, item :: rest)
      else Some (item, q')
    end
  end.

Definition pq_empty (q : PriorityQueue) : bool :=
  match q with [] => true | _ => false end.

(** [processed[p.y][p.x]] on [const std::vector<std::vector<bool>>&].  The
    source indexes without a check; it only does so at points returned by
    [getNeighbors] and popped from the queue, which lie inside the grid. *)
Definition processed_at (processed : list (list bool)) (p : Point) : bool :=
  match processed !! Z.to_nat (p_y p) with
  | Some row => default false (row !! Z.to_nat (p_x p))
  | None => false
  end.

(** The locals of [findRegion] that the loops update, with the cache. *)
Record GrowState : Type := mkGrowState {
  region : gset Point;
  regionList : list Point;
  priorityQueue : PriorityQueue;
  similarityCache : SimilarityCache
}.

(** Body of the first [for] loop: a neighbour of the seed is queued with its
    similarity to the seed colour unless it is already processed. *)
Definition seedNeighbor (gr : AdaptiveRegionGrower)
    (processed : list (list bool)) (seedColor : Color)
    (st : GrowState) (neighbor : Point) : GrowState :=
  if processed_at processed neighbor then st
  else
    let neighborColor := getPixel (image_ gr) (p_x neighbor) (p_y neighbor) in
    let '(similarity, cache) :=
      getCachedSimilarity (similarityCache st) seedColor neighborColor in
    mkGrowState (region st) (regionList st)
      (pq_push (priorityQueue st)
               (mkItem (1.0 - similarity)%float neighbor similarity))
      cache.

(** [baseAdaptiveThreshold] *)
Definition baseAdaptiveThreshold (gr : AdaptiveRegionGrower) (seedX seedY : Z)
    : float :=
  if adaptiveMode_ gr
  then calculateAdaptiveThreshold gr seedX seedY defaultRadius
  else similarityThreshold_ gr.

(** [adaptiveThreshold] for the popped candidate [current]. *)
Definition adaptiveThresholdAt (gr : AdaptiveRegionGrower)
    (baseThreshold : float) (current : Point) : float :=
  if adaptiveMode_ gr then
    let localThreshold :=
      calculateAdaptiveThreshold gr (p_x current) (p_y current) defaultRadius in
    std_min baseThreshold localThreshold
  else similarityThreshold_ gr.

(** Body of the inner [for] loop over the neighbours of an accepted
    candidate. *)
Definition enqueueNeighbor (gr : AdaptiveRegionGrower)
    (processed : list (list bool)) (seedColor currentColor : Color)
    (adaptiveThreshold : float) (st : GrowState) (neighbor : Point)
    : GrowState :=
  if bool_decide (neighbor ∈ region st) || processed_at processed neighbor
  then st
  else
    let neighborColor := getPixel (image_ gr) (p_x neighbor) (p_y neighbor) in
    let '(similarityToSeed, cache1) :=
      getCachedSimilarity (similarityCache st) seedColor neighborColor in
    let '(similarityToCurrent, cache2) :=
      getCachedSimilarity cache1 currentColor neighborColor in
    let bestSimilarity := std_max similarityToSeed similarityToCurrent in
    if PrimFloat.leb (adaptiveThreshold * 0.8)%float bestSimilarity then
      mkGrowState (region st) (regionList st)
        (pq_push (priorityQueue st)
                 (mkItem (1.0 - bestSimilarity)%float neighbor bestSimilarity))
        cache2
    else mkGrowState (region st) (regionList st) (priorityQueue st) cache2.

Section FindRegion.

(** [RegionGrower::getNeighbors], declared in region_grower.hpp; its body is
    not among the sources, so the loops take it as a parameter. *)
Variable getNeighbors : AdaptiveRegionGrower → Z → Z → bool → list Point.

(** What one turn of the [while] loop does with the popped item [current],
    [st] being the state after the pop. *)
Definition visit (gr : AdaptiveRegionGrower) (processed : list (list bool))
    (seedColor : Color) (baseThreshold : float)
    (current : PriorityItem) (st : GrowState) : GrowState :=
  let cur := point current in
  if bool_decide (cur ∈ region st) || processed_at processed cur then st
  else
    let currentColor := getPixel (image_ gr) (p_x cur) (p_y cur) in
    let '(similarityToSeed, cache) :=
      getCachedSimilarity (similarityCache st) seedColor currentColor in
    let adaptiveThreshold := adaptiveThresholdAt gr baseThreshold cur in
    if PrimFloat.leb adaptiveThreshold similarityToSeed then
      let accepted :=
        mkGrowState ({[cur]} ∪ region st) (regionList st ++ [cur])
                    (priorityQueue st) cache in
      fold_left (enqueueNeighbor gr processed seedColor currentColor
                                 adaptiveThreshold)
                (getNeighbors gr (p_x cur) (p_y cur) true) accepted
    else mkGrowState (region st) (regionList st) (priorityQueue st) cache.

(** The loop condition
    [!priorityQueue.empty() && region.size() < static_cast<size_t>(maxRegionSize_)]. *)
Definition growCondition (gr : AdaptiveRegionGrower) (st : GrowState) : bool :=
  negb (pq_empty (priorityQueue st)) &&
  (Z.of_nat (size (region st)) <? to_size_t (maxRegionSize_ gr)).

(** The [while] loop.  [fuel] bounds the number of turns; [None] means the
    bound was too small ([growLoop_terminates] gives one that is not). *)
Fixpoint growLoop (fuel : nat) (gr : AdaptiveRegionGrower)
    (processed : list (list bool)) (seedColor : Color) (baseThreshold : float)
    (st : GrowState) : option GrowState :=
  if growCondition gr st then
    match fuel with
    | O => None
    | S fuel' =>
      match pq_pop (priorityQueue st) with
      | None => Some st
      | Some (current, rest) =>
        growLoop fuel' gr processed seedColor baseThreshold
          (visit gr processed seedColor baseThreshold current
             (mkGrowState (region st) (regionList st) rest (similarityCache st)))
      end
    end
  else Some st.

(** The state on entry to the [while] loop. *)
Definition seedState (gr : AdaptiveRegionGrower) (seedX seedY : Z)
    (processed : list (list bool)) (cache : SimilarityCache) : GrowState :=
  let seedColor := getPixel (image_ gr) seedX seedY in
  let seedPoint := mkPoint seedX seedY in
  fold_left (seedNeighbor gr processed seedColor)
            (getNeighbors gr seedX seedY true)
            (mkGrowState {[seedPoint]} [seedPoint] [] cache).

(** [std::vector<Point> findRegion(int seedX, int seedY, processed)];
    returns [regionList] and the cache after the call. *)
Definition findRegion (fuel : nat) (gr : AdaptiveRegionGrower)
    (seedX seedY : Z) (processed : list (list bool)) (cache : SimilarityCache)
    : option (list Point * SimilarityCache) :=
  let seedColor := getPixel (image_ gr) seedX seedY in
  let st0 := seedState gr seedX seedY processed cache in
  let baseThreshold := baseAdaptiveThreshold gr seedX seedY in
  match growLoop fuel gr processed seedColor baseThreshold st0 with
  | Some st => Some (regionList st, similarityCache st)
  | None => None
  end.

End FindRegion.

(** A number of turns that always suffices: every turn removes one item,
    and each of the at most [width * height] acceptances adds at most eight. *)
Definition growFuel (gr : AdaptiveRegionGrower) : nat :=
  Z.to_nat (9 * (rg_width_ gr * rg_height_ gr) + 9).


(** * Specification-side definitions *)

(** The grid [[0,width) × [0,height)]. *)
Definition in_bounds (img : Image) (x y : Z) : Prop :=
  0 ≤ x < width_ img ∧ 0 ≤ y < height_ img.

(** The sum of one channel over a list of colours, in unbounded integers. *)
Definition channelSum (channel : Color → Z) (colors : list Color) : Z :=
  foldr (λ c s, channel c + s) 0 colors.

(** The colour whose channels are the integer-truncated arithmetic means. *)
Definition meanColor (colors : list Color) : Color :=
  let n := Z.of_nat (length colors) in
  mkColor (channelSum c_r colors / n) (channelSum c_g colors / n)
          (channelSum c_b colors / n).

(** The pixels under a list of points. *)
Definition memberPixels (image : Image) (points : list Point) : list Color :=
  map (λ p, getPixel image (p_x p) (p_y p)) points.

(** The largest number of points whose channel sums cannot wrap:
    [255 * 16843009 = 2^32 - 1]. *)
Definition maxExactCount : Z := 16843009.

Definition white : Color := mkColor 255 255 255.

(** A 1×1 white image and a point list naming its only pixel
    [maxExactCount + 1] times. *)
Definition whitePixel : Image := mkImage 1 1 [white].
Definition wrapPoints : list Point :=
  replicate (Z.to_nat (maxExactCount + 1)) (mkPoint 0 0).

Definition storedPixel (image : Image) (p : Point) : Color :=
  default Color_default
          (pixels_ image !! Z.to_nat (p_y p * width_ image + p_x p)).

(** A 2×2 image with four distinct colours, used to exercise the pixel
    store. *)
Definition quad : Image :=
  mkImage 2 2 [mkColor 10 20 30; mkColor 40 50 60;
               mkColor 70 80 90; mkColor 100 110 120].

(** The cache states an [AdaptiveRegionGrower] can be in: empty after
    construction, then changed only by [getCachedSimilarity], which is only
    ever called on pixel colours. *)
Inductive cache_reachable : SimilarityCache → Prop :=
  | reachable_new : cache_reachable similarityCache_new
  | reachable_query cache c1 c2 :
      cache_reachable cache → wf_color c1 = true → wf_color c2 = true →
      cache_reachable (getCachedSimilarity cache c1 c2).2.

(** Every stored value is the metric's value for the pair its key names. *)
Definition cache_ok (cache : SimilarityCache) : Prop :=
  ∀ first second v,
    wf_color first = true → wf_color second = true →
    cache !! cacheKey first second = Some v →
    v = colorSimilarity first second.

(** [a ≤ b] in the lexicographic order by [(r, g, b)]. *)
Definition Color_le (a b : Color) : Prop := Color_precedes b a = false.

(** A check of a property of two channel values, run over all 256 × 256
    pairs of bytes. *)
Definition all_bytes : list Z := seqZ 0 256.
Definition for_all_byte_pairs (P : Z → Z → bool) : bool :=
  forallb (λ a, forallb (P a) all_bytes) all_bytes.

(** The square of a channel difference, as [colorSimilarity] computes it. *)
Definition squaredDifference (a b : Z) : float :=
  let d := (Z2F a - Z2F b)%float in (d * d)%float.

Definition is_digit (c : Ascii.ascii) : bool :=
  (48 <=? Z.of_N (Ascii.N_of_ascii c)) && (Z.of_N (Ascii.N_of_ascii c) <=? 57).

Fixpoint digits_only (s : string) : bool :=
  match s with
  | EmptyString => true
  | String c s' => is_digit c && digits_only s'
  end.

Definition black : Color := Color_default.
Definition red : Color := mkColor 255 0 0.
Definition blue : Color := mkColor 0 0 255.

(** The point lies in the grid the grower works on. *)
Definition valid_point (gr : AdaptiveRegionGrower) (p : Point) : Prop :=
  isValidCoordinate gr (p_x p) (p_y p) = true.

#[global] Instance valid_point_dec gr p : Decision (valid_point gr p).
Proof. unfold valid_point. apply _. Defined.

(** What holds of the locals of [findRegion] throughout the growth. *)
Record grow_invariant (gr : AdaptiveRegionGrower) (processed : list (list bool))
    (seedPoint : Point) (st : GrowState) : Prop := mkGrowInvariant {
  inv_region : region st = list_to_set (regionList st);
  inv_nodup : NoDup (regionList st);
  inv_seed : seedPoint ∈ regionList st;
  inv_valid : Forall (valid_point gr) (regionList st);
  inv_unprocessed :
    Forall (λ p, processed_at processed p = false) (regionList st);
  inv_queue : Forall (λ item, valid_point gr (point item)) (priorityQueue st);
  inv_cap :
    Z.of_nat (length (regionList st)) ≤ Z.max 1 (to_size_t (maxRegionSize_ gr))
}.

(** The quantity that decreases with every turn of the [while] loop. *)
Definition growMeasure (gr : AdaptiveRegionGrower) (st : GrowState) : Z :=
  9 * (rg_width_ gr * rg_height_ gr - Z.of_nat (length (regionList st)))
  + Z.of_nat (length (priorityQueue st)).

(** [st'] differs from [st] at most by items queued for points of
    [neighbors], at most one for each, and by the cache. *)
Definition queues_only (neighbors : list Point) (st st' : GrowState) : Prop :=
  region st' = region st ∧ regionList st' = regionList st ∧
  ∃ items,
    priorityQueue st' = priorityQueue st ++ items ∧
    (length items ≤ length neighbors)%nat ∧
    Forall (λ item, point item ∈ neighbors) items.

(** A mask with no pixel processed yet. *)
Definition unprocessed (width height : Z) : list (list bool) :=
  replicate (Z.to_nat height) (replicate (Z.to_nat width) false).

(** The 4×4 image of the spec's scenario: columns 0 and 1 are (255,0,0),
    columns 2 and 3 are (0,0,255). *)
Definition twoHalves : Image :=
  mkImage 4 4 (concat (replicate 4 [red; red; blue; blue])).

Definition leftHalf : list Point :=
  y ← seqZ 0 4; x ← seqZ 0 2; [mkPoint x y].
Definition rightHalf : list Point :=
  y ← seqZ 0 4; x ← seqZ 2 2; [mkPoint x y].

(** Growers on [twoHalves]: threshold 0.9, adaptive mode on, and the given
    size cap. *)
Definition twoHalvesGrower (maxRegionSize : Z) : AdaptiveRegionGrower :=
  mkGrower twoHalves 0.9%float maxRegionSize 4 4 true.

(** A 2×1 image of one colour, and growers on it. *)
Definition twoReds : Image := mkImage 2 1 [red; red].
Definition twoRedsGrower (maxRegionSize : Z) : AdaptiveRegionGrower :=
  mkGrower twoReds 0.9%float maxRegionSize 2 1 true.

(** The better of a neighbour's similarities to the seed colour and to the
    colour of the candidate just accepted. *)
Definition bestOfTwo (seedColor currentColor neighborColor : Color) : float :=
  std_max (colorSimilarity seedColor neighborColor)
          (colorSimilarity currentColor neighborColor).

(** The item queued for a neighbour. *)
Definition neighborItem (gr : AdaptiveRegionGrower)
    (seedColor currentColor : Color) (neighbor : Point) : PriorityItem :=
  let best :=
    bestOfTwo seedColor currentColor
              (getPixel (image_ gr) (p_x neighbor) (p_y neighbor)) in
  mkItem (1.0 - best)%float neighbor best.

(** A neighbour is queued when it is neither a member nor processed and
    its best similarity reaches 0.8 times the threshold. *)
Definition admitted (gr : AdaptiveRegionGrower) (processed : list (list bool))
    (seedColor currentColor : Color) (threshold : float)
    (members : gset Point) (neighbor : Point) : bool :=
  negb (bool_decide (neighbor ∈ members)) &&
  negb (processed_at processed neighbor) &&
  PrimFloat.leb (threshold * 0.8)%float
    (bestOfTwo seedColor currentColor
               (getPixel (image_ gr) (p_x neighbor) (p_y neighbor))).

(** The [(2·radius+1)²] window around [(x, y)], row by row. *)
Definition window (x y radius : Z) : list Point :=
  ly ← seqZ (y - radius) (2 * radius + 1);
  lx ← seqZ (x - radius) (2 * radius + 1);
  [mkPoint lx ly].

(** The window clipped to the grid, and the colours sampled there. *)
Definition clippedWindow (gr : AdaptiveRegionGrower) (x y radius : Z)
    : list Point :=
  filter (valid_point gr) (window x y radius).
Definition sampledColors (gr : AdaptiveRegionGrower) (x y radius : Z)
    : list Color :=
  memberPixels (image_ gr) (clippedWindow gr x y radius).






(** From [seed], the grower returns 8 points that are exactly the points of
    [half] and whose average colour is [color]. *)
Definition growsHalf (gr : AdaptiveRegionGrower) (half : list Point)
    (color : Color) (seed : Point) : bool :=
  match findRegion gridNeighbors (growFuel gr) gr (p_x seed) (p_y seed)
                   (unprocessed 4 4) similarityCache_new with
  | Some (points, _) =>
    (length points =? 8)%nat &&
    bool_decide (list_to_set points =@{gset Point} list_to_set half) &&
    bool_decide (calculateAverageColor points twoHalves = color)
  | None => false
  end.

(** * Further definitions: growth order, raw pixel data, operators *)

(** Every point after the first is a neighbour of a point before it. *)
Definition grown_in_order
    (getNeighbors : AdaptiveRegionGrower → Z → Z → bool → list Point)
    (gr : AdaptiveRegionGrower) (points : list Point) : Prop :=
  ∀ i p, points !! S i = Some p →
    ∃ j q, (j ≤ i)%nat ∧ points !! j = Some q ∧
           p ∈ getNeighbors gr (p_x q) (p_y q) true.

(** Every queued point is a neighbour of a point of the region. *)
Definition frontier_of
    (getNeighbors : AdaptiveRegionGrower → Z → Z → bool → list Point)
    (gr : AdaptiveRegionGrower) (points : list Point)
    (queue : PriorityQueue) : Prop :=
  Forall (λ item, ∃ q, q ∈ points ∧
                       point item ∈ getNeighbors gr (p_x q) (p_y q) true)
         queue.

(** The test that let a point into the region grown from [(seedX, seedY)]. *)
Definition similar_enough (gr : AdaptiveRegionGrower) (seedX seedY : Z)
    (p : Point) : Prop :=
  PrimFloat.leb
    (adaptiveThresholdAt gr (baseAdaptiveThreshold gr seedX seedY) p)
    (colorSimilarity (getPixel (image_ gr) seedX seedY)
                     (getPixel (image_ gr) (p_x p) (p_y p))) = true.

(** The region list starts with the seed, is grown in order, and the queue
    holds neighbours of its points only. *)
Definition order_invariant
    (getNeighbors : AdaptiveRegionGrower → Z → Z → bool → list Point)
    (gr : AdaptiveRegionGrower) (seedPoint : Point) (st : GrowState) : Prop :=
  (∃ rest, regionList st = seedPoint :: rest) ∧
  grown_in_order getNeighbors gr (regionList st) ∧
  frontier_of getNeighbors gr (regionList st) (priorityQueue st).

(** Two states of the growth that differ at most in their caches. *)
Definition same_growth (st1 st2 : GrowState) : Prop :=
  region st1 = region st2 ∧ regionList st1 = regionList st2 ∧
  priorityQueue st1 = priorityQueue st2.

(** [Image Image::createSimilar() const { return Image(width_, height_); }] *)
Definition createSimilar (img : Image) : option Image :=
  Image_new (width_ img) (height_ img).

(** [bool Color::operator==(const Color& other) const] *)
Definition Color_eqb (a b : Color) : bool :=
  (c_r a =? c_r b) && (c_g a =? c_g b) && (c_b a =? c_b b).

(** [bool Color::operator<(const Color& other) const] *)
Definition Color_ltb (a b : Color) : bool :=
  if negb (c_r a =? c_r b) then c_r a <? c_r b
  else if negb (c_g a =? c_g b) then c_g a <? c_g b
  else c_b a <? c_b b.

(** [size_t Color::hash() const]:
    [(size_t(r) << 16) | (size_t(g) << 8) | size_t(b)]. *)
Definition Color_hash (c : Color) : Z :=
  Z.lor (Z.lor (Z.shiftl (c_r c) 16) (Z.shiftl (c_g c) 8)) (c_b c).

(** [bool Point::operator==(const Point& other) const] *)
Definition Point_eqb (a b : Point) : bool :=
  (p_x a =? p_x b) && (p_y a =? p_y b).

(** [bool Point::operator<(const Point& other) const] *)
Definition Point_ltb (a b : Point) : bool :=
  if negb (p_x a =? p_x b) then p_x a <? p_x b else p_y a <? p_y b.

(** [double colorDistance(const Color& c1, const Color& c2, bool perceptual)];
    [weights[0] * dr*dr] is [(weights[0] * dr) * dr]. *)
Definition colorDistance (c1 c2 : Color) (perceptual : bool) : float :=
  let dr := (Z2F (c_r c1) - Z2F (c_r c2))%float in
  let dg := (Z2F (c_g c1) - Z2F (c_g c2))%float in
  let db := (Z2F (c_b c1) - Z2F (c_b c2))%float in
  if perceptual then
    PrimFloat.sqrt (0.299 * dr * dr + 0.587 * dg * dg + 0.114 * db * db)%float
  else
    PrimFloat.sqrt (dr * dr + dg * dg + db * db)%float.

(** One weighted term of the perceptual distance. *)
Definition weightedSquare (weight : float) (a b : Z) : float :=
  let d := (Z2F a - Z2F b)%float in (weight * d * d)%float.

(** *** Raw pixel data (Image::save and Image::Image(filename)) *)

(** The coordinates in the order of the nested loops
    [for (y ...) for (x ...)]. *)
Definition rasterOrder (width height : Z) : list (Z * Z) :=
  y ← seqZ 0 height; x ← seqZ 0 width; [(x, y)].

(** Body of the loop of [Image::save]:
    [data[idx] = color.r; data[idx + 1] = color.g; data[idx + 2] = color.b]
    with [idx = (y * width_ + x) * 3]. *)
Definition storeRaw (img : Image) (data : list Z) (xy : Z * Z) : list Z :=
  let color := getPixel img xy.1 xy.2 in
  let idx := Z.to_nat ((xy.2 * width_ img + xy.1) * 3) in
  <[S (S idx) := c_b color]>
    (<[S idx := c_g color]> (<[idx := c_r color]> data)).

(** The bytes [Image::save] hands to the encoder. *)
Definition rawData (img : Image) : list Z :=
  fold_left (storeRaw img) (rasterOrder (width_ img) (height_ img))
            (replicate (Z.to_nat (width_ img * height_ img * 3)) 0).

(** [data[i]] on the decoder's buffer; reading past its end is undefined in
    the source and gives 0 here. *)
Definition rawByte (data : list Z) (i : nat) : Z := default 0 (data !! i).

(** Body of the loop of [Image::Image(filename)]:
    [pixels_[getIndex(x, y)] = Color(data[idx], data[idx + 1], data[idx + 2])]. *)
Definition loadRaw (width : Z) (data : list Z) (pixels : list Color)
    (xy : Z * Z) : list Color :=
  let idx := Z.to_nat ((xy.2 * width + xy.1) * 3) in
  <[Z.to_nat (xy.2 * width + xy.1) :=
      mkColor (rawByte data idx) (rawByte data (S idx))
              (rawByte data (S (S idx)))]> pixels.

(** The image [Image::Image(filename)] builds from the decoder's
    dimensions and buffer. *)
Definition Image_of_raw (width height : Z) (data : list Z) : Image :=
  mkImage width height
    (fold_left (loadRaw width data) (rasterOrder width height)
               (replicate (Z.to_nat (width * height)) Color_default)).

(** Three bytes per pixel, row by row. *)
Definition interleaved (pixels : list Color) : list Z :=
  c ← pixels; [c_r c; c_g c; c_b c].

(** *** std::string operations used by save and by the argument parser *)

(** The characters ['.'], ['='] and ['-']. *)
Definition char_dot : Ascii.ascii := Ascii.ascii_of_nat 46.
Definition char_equals : Ascii.ascii := Ascii.ascii_of_nat 61.
Definition char_dash : Ascii.ascii := Ascii.ascii_of_nat 45.

(** [s.substr(pos)] for [pos <= s.size()]. *)
Fixpoint string_drop (pos : nat) (s : string) : string :=
  match pos, s with
  | O, _ => s
  | S pos', String _ s' => string_drop pos' s'
  | S _, EmptyString => EmptyString
  end.

Fixpoint string_take (len : nat) (s : string) : string :=
  match len, s with
  | O, _ => EmptyString
  | S len', String a s' => String a (string_take len' s')
  | S _, EmptyString => EmptyString
  end.

(** [s.substr(pos, len)] for [pos <= s.size()]. *)
Definition substr (pos len : nat) (s : string) : string :=
  string_take len (string_drop pos s).

(** [s.find(c)]: the first position of [c], [None] for [npos]. *)
Fixpoint string_find (c : Ascii.ascii) (s : string) : option nat :=
  match s with
  | EmptyString => None
  | String a s' =>
    if Ascii.eqb a c then Some O
    else match string_find c s' with Some i => Some (S i) | None => None end
  end.

(** [s.find_last_of(c)]: the last position of [c], [None] for [npos]. *)
Fixpoint string_find_last (c : Ascii.ascii) (s : string) : option nat :=
  match s with
  | EmptyString => None
  | String a s' =>
    match string_find_last c s' with
    | Some i => Some (S i)
    | None => if Ascii.eqb a c then Some O else None
    end
  end.

(** [std::tolower] on one [unsigned char] in the "C" locale. *)
Definition char_tolower (a : Ascii.ascii) : Ascii.ascii :=
  let n := Ascii.nat_of_ascii a in
  if (65 <=? n)%nat && (n <=? 90)%nat then Ascii.ascii_of_nat (n + 32) else a.

Fixpoint string_tolower (s : string) : string :=
  match s with
  | EmptyString => EmptyString
  | String a s' => String (char_tolower a) (string_tolower s')
  end.

Fixpoint string_mem (c : Ascii.ascii) (s : string) : bool :=
  match s with
  | EmptyString => false
  | String a s' => Ascii.eqb a c || string_mem c s'
  end.

(** *** Image::save: the choice of encoder *)

(** [filename.substr(filename.find_last_of(".") + 1)], lower-cased; when
    there is no dot, [npos + 1] wraps to 0 and the whole name is taken. *)
Definition extensionOf (filename : string) : string :=
  let start :=
    match string_find_last char_dot filename with
    | Some pos => S pos
    | None => O
    end in
  string_tolower (string_drop start filename).

(** The encoder calls of [Image::save]. *)
Inductive Encoder : Type :=
  | stbi_write_png
  | stbi_write_jpg (quality : Z)
  | stbi_write_bmp.

Definition encoderOf (filename : string) : Encoder :=
  let extension := extensionOf filename in
  if bool_decide (extension = "png") then stbi_write_png
  else if bool_decide (extension = "jpg") || bool_decide (extension = "jpeg")
  then stbi_write_jpg 90
  else if bool_decide (extension = "bmp") then stbi_write_bmp
  else stbi_write_png.

(** *** ArgumentParser (main.cpp) *)

Record ArgumentParser : Type := mkArgumentParser {
  args_ : gmap string string;
  positionalArgs_ : list string
}.

(** [args_[key] = value] *)
Definition setOption (key value : string) (p : ArgumentParser) : ArgumentParser :=
  mkArgumentParser (<[key := value]> (args_ p)) (positionalArgs_ p).

(** [positionalArgs_.push_back(arg)] *)
Definition addPositional (arg : string) (p : ArgumentParser) : ArgumentParser :=
  mkArgumentParser (args_ p) (positionalArgs_ p ++ [arg]).

(** [argv[i+1][0] == '-']; the first character of an empty argument is the
    terminating NUL. *)
Definition starts_with_dash (arg : string) : bool :=
  match arg with
  | String a _ => Ascii.eqb a char_dash
  | EmptyString => false
  end.

(** The loop of the constructor over [argv[i], argv[i+1], ...]. *)
Fixpoint parseArguments (argv : list string) (p : ArgumentParser)
    : ArgumentParser :=
  match argv with
  | [] => p
  | arg :: rest =>
    if bool_decide (substr 0 2 arg = "--") then
      match string_find char_equals arg with
      | Some equalPos =>
        let key := substr 2 (equalPos - 2) arg in
        let value := string_drop (equalPos + 1) arg in
        parseArguments rest (setOption key value p)
      | None =>
        let key := string_drop 2 arg in
        parseArguments rest (setOption key "true" p)
      end
    else if bool_decide (substr 0 1 arg = "-") then
      match rest with
      | next :: rest' =>
        if negb (starts_with_dash next) then
          let key := string_drop 1 arg in
          parseArguments rest' (setOption key next p)
        else
          let key := string_drop 1 arg in
          parseArguments rest (setOption key "true" p)
      | [] =>
        let key := string_drop 1 arg in
        parseArguments rest (setOption key "true" p)
      end
    else parseArguments rest (addPositional arg p)
  end.

(** [ArgumentParser(argc, argv)]: [argv[0]] is skipped. *)
Definition ArgumentParser_new (argv : list string) : ArgumentParser :=
  parseArguments (tail argv) (mkArgumentParser ∅ []).

Definition hasOption (p : ArgumentParser) (key : string) : bool :=
  bool_decide (is_Some (args_ p !! key)).

Definition getOption (p : ArgumentParser) (key defaultValue : string) : string :=
  match args_ p !! key with
  | Some value => value
  | None => defaultValue
  end.
(** * Properties *)

(** ** Pixel store: bounds leniency *)


Lemma out_of_bounds_false img x y :
  out_of_bounds img x y = false ↔ in_bounds img x y.
Proof. unfold out_of_bounds, in_bounds. lia. Qed.

Lemma out_of_bounds_true img x y :
  out_of_bounds img x y = true ↔ ¬ in_bounds img x y.
Proof. unfold out_of_bounds, in_bounds. lia. Qed.

Lemma getIndex_range img x y :
  wf_image img → in_bounds img x y →
  (Z.to_nat (getIndex img x y) < length (pixels_ img))%nat.
Proof.
  intros (Hw & Hh & _ & Hlen & _) [Hx Hy]. unfold getIndex.
  apply Nat2Z.inj_lt. rewrite Hlen, Z2Nat.id by nia. nia.
Qed.

Lemma row_major_inj w x y x' y' :
  0 ≤ x < w → 0 ≤ x' < w → y * w + x = y' * w + x' → x = x' ∧ y = y'.
Proof.
  intros Hx Hx' Heq.
  assert (y = y') as ->; [|lia].
  destruct (Z.lt_trichotomy y y') as [Hlt|[Heq'|Hgt]]; [|done|].
  - assert ((y + 1) * w ≤ y' * w) by (apply Z.mul_le_mono_nonneg_r; lia). lia.
  - assert ((y' + 1) * w ≤ y * w) by (apply Z.mul_le_mono_nonneg_r; lia). lia.
Qed.

Lemma getIndex_inj img x y x' y' :
  in_bounds img x y → in_bounds img x' y' →
  Z.to_nat (getIndex img x y) = Z.to_nat (getIndex img x' y') →
  x = x' ∧ y = y'.
Proof.
  intros [Hx Hy] [Hx' Hy'] Heq. unfold getIndex in Heq.
  apply Z2Nat.inj in Heq; [|nia..].
  assert (y = y') by nia. subst y'. lia.
Qed.

Lemma getPixel_stored img x y :
  wf_image img → in_bounds img x y →
  pixels_ img !! Z.to_nat (getIndex img x y) = Some (getPixel img x y).
Proof.
  intros Hwf Hin. unfold getPixel.
  rewrite (proj2 (out_of_bounds_false img x y) Hin).
  destruct (lookup_lt_is_Some_2 (pixels_ img) _ (getIndex_range _ _ _ Hwf Hin))
    as [c Hc].
  by rewrite Hc.
Qed.

Lemma getPixel_wf img x y : wf_image img → wf_color (getPixel img x y) = true.
Proof.
  intros Hwf. destruct (out_of_bounds img x y) eqn:Hb.
  - unfold getPixel. by rewrite Hb.
  - apply out_of_bounds_false in Hb.
    pose proof (getPixel_stored _ _ _ Hwf Hb) as Hs.
    destruct Hwf as (_ & _ & _ & _ & Hall).
    rewrite Forall_lookup in Hall. by eapply Hall.
Qed.

Lemma setPixel_wf img x y c :
  wf_image img → wf_color c = true → wf_image (setPixel img x y c).
Proof.
  intros (Hw & Hh & Hsz & Hlen & Hall) Hc. unfold setPixel.
  destruct (out_of_bounds img x y); [done|].
  repeat split; simpl; try done.
  - by rewrite length_insert.
  - apply Forall_insert; done.
Qed.

(** ** Average colour *)


Lemma to_uint32_add_l a b : to_uint32 (to_uint32 a + b) = to_uint32 (a + b).
Proof. unfold to_uint32. by rewrite Zplus_mod_idemp_l. Qed.

Lemma accumulate_fold colors tR tG tB :
  fold_left accumulate colors (to_uint32 tR, to_uint32 tG, to_uint32 tB) =
  (to_uint32 (tR + channelSum c_r colors),
   to_uint32 (tG + channelSum c_g colors),
   to_uint32 (tB + channelSum c_b colors)).
Proof.
  revert tR tG tB. induction colors as [|c colors IH]; intros; simpl.
  - by rewrite !Z.add_0_r.
  - rewrite !to_uint32_add_l, IH. by rewrite !Z.add_assoc.
Qed.

Lemma accumulate_fold_0 colors :
  fold_left accumulate colors (0, 0, 0) =
  (to_uint32 (channelSum c_r colors), to_uint32 (channelSum c_g colors),
   to_uint32 (channelSum c_b colors)).
Proof. exact (accumulate_fold colors 0 0 0). Qed.

Lemma fold_left_memberPixels image points acc :
  fold_left (λ totals point,
               accumulate totals (getPixel image (p_x point) (p_y point)))
            points acc
  = fold_left accumulate (memberPixels image points) acc.
Proof. revert acc. induction points; intros; simpl; auto. Qed.

(** The result of [calculateAverageColor] in closed form: sums modulo 2^32,
    divided by the length as the conversions leave it. *)
Lemma calculateAverageColor_closed points image :
  points ≠ [] →
  calculateAverageColor points image =
  let colors := memberPixels image points in
  let count := to_int32 (Z.of_nat (length points)) in
  Color_of (div_u32_int (to_uint32 (channelSum c_r colors)) count)
           (div_u32_int (to_uint32 (channelSum c_g colors)) count)
           (div_u32_int (to_uint32 (channelSum c_b colors)) count).
Proof.
  intros Hne. unfold calculateAverageColor.
  destruct points as [|p points]; [done|].
  rewrite fold_left_memberPixels, accumulate_fold_0. done.
Qed.

Lemma channelSum_bounds channel colors :
  Forall (λ c, 0 ≤ channel c ≤ 255) colors →
  0 ≤ channelSum channel colors ≤ 255 * Z.of_nat (length colors).
Proof.
  induction 1 as [|c colors Hc _ IH]; simpl; [lia|].
  rewrite Nat2Z.inj_succ. lia.
Qed.

Lemma wf_color_bounds c :
  wf_color c = true →
  0 ≤ c_r c ≤ 255 ∧ 0 ≤ c_g c ≤ 255 ∧ 0 ≤ c_b c ≤ 255.
Proof. unfold wf_color, is_uint8. lia. Qed.

Lemma memberPixels_wf image points :
  wf_image image →
  Forall (λ c, wf_color c = true) (memberPixels image points).
Proof.
  intros Hwf. unfold memberPixels. apply Forall_map, Forall_true.
  intros p. by apply getPixel_wf.
Qed.

Lemma memberPixels_length image points :
  length (memberPixels image points) = length points.
Proof. unfold memberPixels. by rewrite length_map. Qed.


(** A wrap-free mean: with sums below 2^32 every conversion is the
    identity. *)
Lemma mean_channel_exact s n :
  0 < n ≤ maxExactCount → 0 ≤ s ≤ 255 * n →
  to_uint8 (div_u32_int (to_uint32 s) (to_int32 n)) = s / n.
Proof.
  unfold maxExactCount. intros Hn Hs.
  unfold div_u32_int, to_uint32, to_int32, to_uint8.
  rewrite (Z.mod_small s) by lia.
  rewrite (Z.mod_small (n + 2 ^ 31)) by lia.
  replace (n + 2 ^ 31 - 2 ^ 31) with n by lia.
  rewrite (Z.mod_small n) by lia.
  apply Z.mod_small. split.
  - apply Z.div_pos; lia.
  - apply Z.div_lt_upper_bound; lia.
Qed.

Lemma averageOf_exact colors :
  colors ≠ [] → Z.of_nat (length colors) ≤ maxExactCount →
  Forall (λ c, wf_color c = true) colors →
  averageOf colors = meanColor colors.
Proof.
  intros Hne Hlen Hwf. unfold averageOf, meanColor, Color_of.
  rewrite accumulate_fold_0.
  assert (0 < Z.of_nat (length colors)) by (destruct colors; [done|simpl; lia]).
  f_equal; apply mean_channel_exact; try lia; apply channelSum_bounds;
    (eapply Forall_impl; [exact Hwf|]); intros c Hc;
    apply wf_color_bounds in Hc; lia.
Qed.

Lemma calculateAverageColor_exact points image :
  wf_image image → points ≠ [] →
  Z.of_nat (length points) ≤ maxExactCount →
  calculateAverageColor points image = meanColor (memberPixels image points).
Proof.
  intros Hwf Hne Hlen. rewrite calculateAverageColor_closed by done.
  rewrite <- (averageOf_exact (memberPixels image points)).
  - unfold averageOf. by rewrite accumulate_fold_0, memberPixels_length.
  - by destruct points.
  - by rewrite memberPixels_length.
  - by apply memberPixels_wf.
Qed.

(** *** A region large enough for the accumulators to wrap *)


Lemma whitePixel_wf : wf_image whitePixel.
Proof.
  unfold wf_image, whitePixel; simpl. repeat split; try lia.
  by repeat constructor.
Qed.

Lemma channelSum_replicate channel c n :
  channelSum channel (replicate n c) = Z.of_nat n * channel c.
Proof. induction n as [|n IH]; simpl; [done|]. rewrite IH. lia. Qed.

Lemma memberPixels_replicate image p n :
  memberPixels image (replicate n p) = replicate n (getPixel image (p_x p) (p_y p)).
Proof. unfold memberPixels. induction n; simpl; congruence. Qed.

Lemma wrapPoints_length : Z.of_nat (length wrapPoints) = maxExactCount + 1.
Proof.
  unfold wrapPoints. rewrite length_replicate. apply Z2Nat.id.
  unfold maxExactCount. lia.
Qed.

Lemma wrapPoints_nonempty : wrapPoints ≠ [].
Proof.
  intros Heq. pose proof wrapPoints_length as Hlen.
  rewrite Heq in Hlen. unfold maxExactCount in Hlen. simpl in Hlen. lia.
Qed.

Lemma wrapPoints_in_bounds :
  Forall (λ p, in_bounds whitePixel (p_x p) (p_y p)) wrapPoints.
Proof.
  unfold wrapPoints. apply Forall_replicate.
  unfold in_bounds; simpl. lia.
Qed.

(** On [wrapPoints] each sum is [255 * 16843010 = 2^32 + 254], which wraps
    to 254; the quotient is 0 where the mean is 255. *)
Lemma wrapPoints_average :
  calculateAverageColor wrapPoints whitePixel = Color_default.
Proof.
  rewrite calculateAverageColor_closed by apply wrapPoints_nonempty.
  cbv zeta. rewrite wrapPoints_length.
  unfold wrapPoints at 1 2 3. rewrite memberPixels_replicate.
  rewrite !channelSum_replicate.
  rewrite Z2Nat.id by (unfold maxExactCount; lia).
  reflexivity.
Qed.

Lemma wrapPoints_mean :
  meanColor (memberPixels whitePixel wrapPoints) = white.
Proof.
  unfold meanColor. rewrite memberPixels_length, wrapPoints_length.
  unfold wrapPoints. rewrite memberPixels_replicate.
  rewrite !channelSum_replicate.
  rewrite Z2Nat.id by (unfold maxExactCount; lia).
  reflexivity.
Qed.

(** *** The stored pixels under in-bounds points *)


Lemma storedPixel_getPixel image p :
  wf_image image → in_bounds image (p_x p) (p_y p) →
  storedPixel image p = getPixel image (p_x p) (p_y p).
Proof.
  intros Hwf Hin. unfold storedPixel.
  pose proof (getPixel_stored _ _ _ Hwf Hin) as Hs.
  unfold getIndex in Hs. by rewrite Hs.
Qed.

Lemma storedPixels_memberPixels image points :
  wf_image image →
  Forall (λ p, in_bounds image (p_x p) (p_y p)) points →
  map (storedPixel image) points = memberPixels image points.
Proof.
  intros Hwf. induction 1 as [|p points Hp _ IH]; simpl; [done|].
  by rewrite IH, storedPixel_getPixel.
Qed.

Lemma quad_wf : wf_image quad.
Proof.
  unfold wf_image, quad; simpl. repeat split; try lia.
  by repeat constructor.
Qed.

Lemma setPixel_other img x y c x' y' :
  wf_image img → in_bounds img x y → (x', y') ≠ (x, y) →
  getPixel (setPixel img x y c) x' y' = getPixel img x' y'.
Proof.
  intros Hwf Hin Hne. unfold setPixel.
  rewrite (proj2 (out_of_bounds_false img x y) Hin).
  destruct (out_of_bounds img x' y') eqn:Hb.
  - unfold getPixel. rewrite Hb.
    unfold out_of_bounds in *; simpl. by rewrite Hb.
  - unfold getPixel. rewrite Hb.
    unfold out_of_bounds in *; simpl. rewrite Hb.
    apply out_of_bounds_false in Hb.
    unfold getIndex; simpl.
    rewrite list_lookup_insert_ne; [done|].
    intros Heq. apply (getIndex_inj img x y x' y') in Heq; [|done..].
    destruct Heq; congruence.
Qed.

Lemma setPixel_same img x y c :
  wf_image img → in_bounds img x y →
  getPixel (setPixel img x y c) x y = c.
Proof.
  intros Hwf Hin. unfold setPixel.
  pose proof (proj2 (out_of_bounds_false img x y) Hin) as Hb.
  rewrite Hb. unfold getPixel.
  unfold out_of_bounds in *; simpl. rewrite Hb.
  unfold getIndex; simpl.
  rewrite list_lookup_insert_eq; [done|].
  by apply (getIndex_range img x y).
Qed.

(** C9. For every coordinate outside [[0,width) × [0,height)], [getPixel]
    returns the black sentinel (0,0,0) and [setPixel] leaves the image, hence
    every pixel of it, unchanged; both are total functions, so neither
    fails.  For an in-bounds coordinate of a constructed image, [getPixel]
    returns the pixel stored at [getIndex], and [setPixel] makes that pixel
    the given colour, keeps the dimensions and changes no other pixel. *)
Theorem pixel_access_is_lenient (img : Image) (x y : Z) (c : Color) :
  (¬ in_bounds img x y →
     getPixel img x y = Color_default ∧ setPixel img x y c = img) ∧
  (wf_image img → in_bounds img x y →
     pixels_ img !! Z.to_nat (getIndex img x y) = Some (getPixel img x y) ∧
     getPixel (setPixel img x y c) x y = c ∧
     width_ (setPixel img x y c) = width_ img ∧
     height_ (setPixel img x y c) = height_ img ∧
     ∀ x' y', (x', y') ≠ (x, y) →
       getPixel (setPixel img x y c) x' y' = getPixel img x' y').
Proof.
  split.
  - intros Hout. apply out_of_bounds_true in Hout.
    unfold getPixel, setPixel. by rewrite Hout.
  - intros Hwf Hin. split; [by apply getPixel_stored|].
    split; [by apply setPixel_same|].
    unfold setPixel at 1 2.
    rewrite (proj2 (out_of_bounds_false img x y) Hin). simpl.
    do 2 (split; [done|]).
    intros x' y' Hne. by apply setPixel_other.
Qed.

Lemma pixel_access_is_lenient_witness :
  (getPixel quad 2 0 = Color_default ∧ setPixel quad 2 0 white = quad) ∧
  getPixel (setPixel quad 1 0 white) 1 0 = white ∧
  getPixel (setPixel quad 1 0 white) 0 1 = mkColor 70 80 90.
Proof.
  split.
  - apply (pixel_access_is_lenient quad 2 0 white).
    unfold in_bounds; simpl; lia.
  - destruct (pixel_access_is_lenient quad 1 0 white) as [_ Hin].
    destruct Hin as (_ & Hsame & _ & _ & Hother).
    + exact quad_wf.
    + unfold in_bounds; simpl; lia.
    + split; [exact Hsame|]. rewrite Hother; [reflexivity|congruence].
Defined.

(** Within the range of the accumulators the average is the mean:
    [calculateAverageColor] returns the black sentinel (0,0,0) for an empty
    list, and for every non-empty list of at most 16,843,009 in-bounds
    points of a constructed image it returns the colour whose r, g, b
    channels are the integer-truncated arithmetic means of the corresponding
    channels of the stored member pixels. *)
Theorem calculateAverageColor_mean (points : list Point) (image : Image) :
  wf_image image →
  Forall (λ p, in_bounds image (p_x p) (p_y p)) points →
  Z.of_nat (length points) ≤ maxExactCount →
  calculateAverageColor points image =
  match points with
  | [] => Color_default
  | _ => meanColor (map (storedPixel image) points)
  end.
Proof.
  intros Hwf Hin Hlen. destruct points as [|p points]; [done|].
  rewrite storedPixels_memberPixels by done.
  by apply calculateAverageColor_exact.
Qed.

Lemma calculateAverageColor_mean_witness :
  calculateAverageColor [mkPoint 0 0; mkPoint 1 0; mkPoint 1 1] quad
  = mkColor 50 60 70.
Proof.
  rewrite (calculateAverageColor_mean [mkPoint 0 0; mkPoint 1 0; mkPoint 1 1] quad).
  - reflexivity.
  - exact quad_wf.
  - repeat constructor; simpl; lia.
  - unfold maxExactCount; simpl; lia.
Defined.

(** C7.  [calculateAverageColor] does not return the mean of every
    non-empty list of in-bounds points: its [uint32_t] channel sums
    overflow.  On the non-empty list of 16,843,010 in-bounds points of a
    constructed white image each sum wraps to 254, and the result is black,
    not the mean, which is white. *)
Lemma calculateAverageColor_mean_fails_on_long_lists :
  wf_image whitePixel ∧ wrapPoints ≠ [] ∧
  Z.of_nat (length wrapPoints) = 16843010 ∧
  Forall (λ p, in_bounds whitePixel (p_x p) (p_y p)) wrapPoints ∧
  calculateAverageColor wrapPoints whitePixel = Color_default ∧
  meanColor (map (storedPixel whitePixel) wrapPoints) = white ∧
  calculateAverageColor wrapPoints whitePixel
  ≠ meanColor (map (storedPixel whitePixel) wrapPoints).
Proof.
  split; [exact whitePixel_wf|]. split; [exact wrapPoints_nonempty|].
  split; [exact wrapPoints_length|].
  split; [exact wrapPoints_in_bounds|].
  rewrite storedPixels_memberPixels
    by (exact whitePixel_wf || exact wrapPoints_in_bounds).
  rewrite wrapPoints_average, wrapPoints_mean.
  split; [reflexivity|]. split; [reflexivity|]. discriminate.
Qed.

(** C10. [calculateAverageColor] computes each channel sum modulo 2^32: for
    a non-empty list of fewer than 2^31 points the result is, per channel,
    the true sum reduced modulo 2^32, divided by the number of points and
    narrowed to 8 bits.  Hence for every point list with at most 16,843,009
    points (255 · n < 2^32) the result is the true integer-truncated
    per-channel mean, while a list of 16,843,010 points exists on which the
    sums wrap and the result is a different colour. *)
Theorem calculateAverageColor_sums_modulo_2_32 :
  (∀ points image,
     points ≠ [] → Z.of_nat (length points) < 2 ^ 31 →
     let colors := memberPixels image points in
     let n := Z.of_nat (length points) in
     calculateAverageColor points image =
     mkColor (to_uint8 ((channelSum c_r colors mod 2 ^ 32) / n))
             (to_uint8 ((channelSum c_g colors mod 2 ^ 32) / n))
             (to_uint8 ((channelSum c_b colors mod 2 ^ 32) / n))) ∧
  (∀ points image,
     wf_image image → Z.of_nat (length points) ≤ 16843009 →
     calculateAverageColor points image
     = meanColor (memberPixels image points)) ∧
  (∃ points image,
     wf_image image ∧ Z.of_nat (length points) = 16843010 ∧
     calculateAverageColor points image
     ≠ meanColor (memberPixels image points)).
Proof.
  split; [|split].
  - intros points image Hne Hlen colors n.
    rewrite calculateAverageColor_closed by done.
    cbv zeta. fold n. fold colors. unfold Color_of, div_u32_int, to_uint32.
    assert (0 < n) by (subst n; destruct points; [done|simpl; lia]).
    assert (to_int32 n mod 2 ^ 32 = n) as ->; [|done].
    unfold to_int32. rewrite (Z.mod_small (n + 2 ^ 31)) by lia.
    rewrite Z.mod_small; lia.
  - intros points image Hwf Hlen. destruct points as [|p points]; [done|].
    by apply calculateAverageColor_exact.
  - exists wrapPoints, whitePixel.
    split; [exact whitePixel_wf|]. split; [exact wrapPoints_length|].
    rewrite wrapPoints_average, wrapPoints_mean. discriminate.
Qed.

Lemma calculateAverageColor_sums_modulo_2_32_witness :
  calculateAverageColor [mkPoint 0 0; mkPoint 0 1] quad = mkColor 40 50 60 ∧
  meanColor (memberPixels quad [mkPoint 0 0; mkPoint 0 1]) = mkColor 40 50 60.
Proof.
  destruct calculateAverageColor_sums_modulo_2_32 as (_ & Hexact & _).
  rewrite <- (Hexact [mkPoint 0 0; mkPoint 0 1] quad).
  - split; reflexivity.
  - exact quad_wf.
  - simpl; lia.
Defined.

(** ** Colour metric *)

Lemma all_bytes_spec a : is_uint8 a = true → a ∈ all_bytes.
Proof. unfold is_uint8, all_bytes. intros H. apply elem_of_seqZ. lia. Qed.

Lemma for_all_byte_pairs_spec P :
  for_all_byte_pairs P = true →
  ∀ a b, is_uint8 a = true → is_uint8 b = true → P a b = true.
Proof.
  unfold for_all_byte_pairs. intros Hall a b Ha Hb.
  rewrite forallb_forall in Hall.
  specialize (Hall a (proj1 (list_elem_of_In _ _) (all_bytes_spec a Ha))).
  rewrite forallb_forall in Hall.
  exact (Hall b (proj1 (list_elem_of_In _ _) (all_bytes_spec b Hb))).
Qed.

(** Channel differences are small integers, so their squares do not depend
    on the order of subtraction. *)
Lemma squaredDifference_sym a b :
  is_uint8 a = true → is_uint8 b = true →
  squaredDifference a b = squaredDifference b a.
Proof.
  intros Ha Hb. apply Leibniz.eqb_spec.
  revert a b Ha Hb.
  apply (for_all_byte_pairs_spec
           (λ a b, Leibniz.eqb (squaredDifference a b) (squaredDifference b a))).
  vm_compute. reflexivity.
Qed.

Lemma squaredDifference_diag a :
  is_uint8 a = true → squaredDifference a a = 0%float.
Proof.
  intros Ha. apply Leibniz.eqb_spec.
  revert a Ha.
  assert (∀ a b, is_uint8 a = true → is_uint8 b = true →
                 Leibniz.eqb (squaredDifference a a) 0%float = true) as H.
  { apply (for_all_byte_pairs_spec
             (λ a _, Leibniz.eqb (squaredDifference a a) 0%float)).
    vm_compute. reflexivity. }
  intros a Ha. exact (H a a Ha Ha).
Qed.

Lemma colorSimilarity_unfold c1 c2 :
  colorSimilarity c1 c2 =
  (1.0 - PrimFloat.sqrt (squaredDifference (c_r c1) (c_r c2)
                         + squaredDifference (c_g c1) (c_g c2)
                         + squaredDifference (c_b c1) (c_b c2))
         / maxDistance)%float.
Proof. reflexivity. Qed.

Lemma wf_color_channels c :
  wf_color c = true →
  is_uint8 (c_r c) = true ∧ is_uint8 (c_g c) = true ∧ is_uint8 (c_b c) = true.
Proof. unfold wf_color. rewrite !andb_true_iff. tauto. Qed.

Lemma colorSimilarity_sym c1 c2 :
  wf_color c1 = true → wf_color c2 = true →
  colorSimilarity c1 c2 = colorSimilarity c2 c1.
Proof.
  intros (Hr1 & Hg1 & Hb1)%wf_color_channels (Hr2 & Hg2 & Hb2)%wf_color_channels.
  rewrite !colorSimilarity_unfold.
  by rewrite (squaredDifference_sym (c_r c1)), (squaredDifference_sym (c_g c1)),
    (squaredDifference_sym (c_b c1)).
Qed.

Lemma colorSimilarity_refl c :
  wf_color c = true → colorSimilarity c c = 1%float.
Proof.
  intros (Hr & Hg & Hb)%wf_color_channels.
  rewrite colorSimilarity_unfold, !squaredDifference_diag by done.
  reflexivity.
Qed.

(** ** Similarity cache *)

Lemma to_string_digits n : is_uint8 n = true → digits_only (to_string n) = true.
Proof.
  intros Hn.
  assert (forallb (λ n, digits_only (to_string n)) all_bytes = true) as Hall
    by (vm_compute; reflexivity).
  rewrite forallb_forall in Hall.
  exact (Hall n (proj1 (list_elem_of_In _ _) (all_bytes_spec n Hn))).
Qed.

Lemma to_string_inj m n : to_string m = to_string n → m = n.
Proof. unfold to_string. apply (inj pretty). Qed.

(** A run of digits followed by a separator determines both the run and
    what follows the separator. *)
Lemma digits_then_separator s1 s2 sep1 sep2 t1 t2 :
  digits_only s1 = true → digits_only s2 = true →
  is_digit sep1 = false → is_digit sep2 = false →
  s1 +:+ String sep1 t1 = s2 +:+ String sep2 t2 →
  s1 = s2 ∧ t1 = t2.
Proof.
  revert s2. induction s1 as [|c1 s1 IH]; intros [|c2 s2]; simpl;
    rewrite ?andb_true_iff; intros Hd1 Hd2 Hs1 Hs2 Heq.
  - by inversion Heq.
  - inversion Heq; subst. destruct Hd2 as [Hc _]. congruence.
  - inversion Heq; subst. destruct Hd1 as [Hc _]. congruence.
  - inversion Heq; subst. destruct Hd1 as [_ Hd1], Hd2 as [_ Hd2].
    destruct (IH s2 Hd1 Hd2 Hs1 Hs2) as [-> ->]; done.
Qed.

Lemma separator_append c t : String c EmptyString +:+ t = String c t.
Proof. reflexivity. Qed.

Lemma cacheKey_inj first second first' second' :
  wf_color first = true → wf_color second = true →
  wf_color first' = true → wf_color second' = true →
  cacheKey first second = cacheKey first' second' →
  first = first' ∧ second = second'.
Proof.
  intros (Hr1 & Hg1 & Hb1)%wf_color_channels (Hr2 & Hg2 & Hb2)%wf_color_channels
         (Hr1' & Hg1' & Hb1')%wf_color_channels
         (Hr2' & Hg2' & Hb2')%wf_color_channels.
  unfold cacheKey. intros Heq. rewrite !separator_append in Heq.
  repeat match type of Heq with
  | _ +:+ String _ _ = _ +:+ String _ _ =>
    apply digits_then_separator in Heq;
      [destruct Heq as [?%to_string_inj Heq]
      |by (apply to_string_digits || reflexivity)..]
  end.
  apply to_string_inj in Heq.
  destruct first, second, first', second'; simpl in *. by subst.
Qed.

Lemma normalizePair_cases c1 c2 :
  normalizePair c1 c2 = (c1, c2) ∨ normalizePair c1 c2 = (c2, c1).
Proof. unfold normalizePair. destruct (Color_precedes c2 c1); auto. Qed.

(** The normalised pair does not depend on the order of the arguments, and
    its first component is the smaller colour. *)
Lemma normalizePair_sym c1 c2 : normalizePair c1 c2 = normalizePair c2 c1.
Proof.
  unfold normalizePair, Color_precedes. destruct c1 as [r1 g1 b1], c2 as [r2 g2 b2];
    simpl.
  destruct (r2 <? r1) eqn:?, (r1 <? r2) eqn:?, (r2 =? r1) eqn:?, (r1 =? r2) eqn:?,
    (g2 <? g1) eqn:?, (g1 <? g2) eqn:?, (g2 =? g1) eqn:?, (g1 =? g2) eqn:?,
    (b2 <? b1) eqn:?, (b1 <? b2) eqn:?; simpl; try reflexivity; try lia.
  f_equal; f_equal; lia.
Qed.

Lemma normalizePair_ordered c1 c2 :
  Color_le (normalizePair c1 c2).1 (normalizePair c1 c2).2.
Proof.
  unfold Color_le, normalizePair.
  destruct (Color_precedes c2 c1) eqn:Hp; simpl; [|done].
  unfold Color_precedes in *. lia.
Qed.

Lemma empty_cache_ok : cache_ok similarityCache_new.
Proof.
  intros first second v _ _ Hl. unfold similarityCache_new in Hl.
  by rewrite lookup_empty in Hl.
Qed.

(** On pixel colours and a sound cache, [getCachedSimilarity] returns the
    metric's value and leaves the cache sound. *)
Lemma getCachedSimilarity_spec cache c1 c2 :
  cache_ok cache → wf_color c1 = true → wf_color c2 = true →
  (getCachedSimilarity cache c1 c2).1 = colorSimilarity c1 c2 ∧
  cache_ok (getCachedSimilarity cache c1 c2).2.
Proof.
  intros Hok Hc1 Hc2. unfold getCachedSimilarity.
  destruct (normalizePair c1 c2) as [first second] eqn:Hnp.
  assert (wf_color first = true ∧ wf_color second = true ∧
          colorSimilarity first second = colorSimilarity c1 c2)
    as (Hf & Hs & Hsim).
  { destruct (normalizePair_cases c1 c2) as [H|H]; rewrite H in Hnp;
      inversion Hnp; subst; repeat split; try done.
    by apply colorSimilarity_sym. }
  destruct (cache !! cacheKey first second) as [cached|] eqn:Hl; simpl.
  - split; [|done]. rewrite <- Hsim. by eapply Hok.
  - split; [done|]. intros first' second' v Hf' Hs' Hl'.
    destruct (decide (cacheKey first second = cacheKey first' second')) as [Hk|Hk].
    + rewrite <- Hk, lookup_insert_eq in Hl'. inversion Hl'; subst.
      apply cacheKey_inj in Hk; [|done..]. destruct Hk; by subst.
    + rewrite lookup_insert_ne in Hl' by done. by eapply Hok.
Qed.

Lemma cache_reachable_ok cache : cache_reachable cache → cache_ok cache.
Proof.
  induction 1 as [|cache c1 c2 _ IH Hc1 Hc2]; [apply empty_cache_ok|].
  by apply getCachedSimilarity_spec.
Qed.

Lemma cache_reachable_after cache c1 c2 :
  cache_reachable cache → wf_color c1 = true → wf_color c2 = true →
  cache_reachable (getCachedSimilarity cache c1 c2).2.
Proof. by constructor. Qed.

Lemma getCachedSimilarity_cache cache c1 c2 :
  (getCachedSimilarity cache c1 c2).2 = cache ∨
  (cache !! cacheKey (normalizePair c1 c2).1 (normalizePair c1 c2).2 = None ∧
   (getCachedSimilarity cache c1 c2).2 =
   <[cacheKey (normalizePair c1 c2).1 (normalizePair c1 c2).2
       := colorSimilarity c1 c2]> cache).
Proof.
  unfold getCachedSimilarity. destruct (normalizePair c1 c2) as [first second].
  simpl. destruct (cache !! cacheKey first second); simpl; auto.
Qed.

(** C8. For every pair of colours and every reachable cache state,
    [getCachedSimilarity(c1, c2)] and [getCachedSimilarity(c2, c1)] return
    the same value, which is [colorSimilarity(c1, c2)], whether the two
    queries start from the same cache or the second follows the first.  The
    key is built from the order-normalised pair, which is the same for both
    argument orders and has the smaller colour by [(r, g, b)] first; a query
    either leaves the cache alone or stores the metric's value under that
    key, and every stored value is the metric's value for the pair its key
    names. *)
Theorem getCachedSimilarity_order_independent
    (cache : SimilarityCache) (c1 c2 : Color) :
  cache_reachable cache → wf_color c1 = true → wf_color c2 = true →
  let query12 := getCachedSimilarity cache c1 c2 in
  let query21 := getCachedSimilarity cache c2 c1 in
  query12.1 = colorSimilarity c1 c2 ∧
  query21.1 = colorSimilarity c1 c2 ∧
  query12.1 = query21.1 ∧
  (getCachedSimilarity query12.2 c2 c1).1 = colorSimilarity c1 c2 ∧
  normalizePair c1 c2 = normalizePair c2 c1 ∧
  Color_le (normalizePair c1 c2).1 (normalizePair c1 c2).2 ∧
  (query12.2 = cache ∨
   query12.2 = <[cacheKey (normalizePair c1 c2).1 (normalizePair c1 c2).2
                   := colorSimilarity c1 c2]> cache) ∧
  cache_ok cache ∧ cache_ok query12.2.
Proof.
  intros Hreach Hc1 Hc2 query12 query21.
  pose proof (cache_reachable_ok _ Hreach) as Hok.
  destruct (getCachedSimilarity_spec cache c1 c2 Hok Hc1 Hc2) as [H12 Hok12].
  destruct (getCachedSimilarity_spec cache c2 c1 Hok Hc2 Hc1) as [H21 _].
  destruct (getCachedSimilarity_spec _ c2 c1 Hok12 Hc2 Hc1) as [Hseq _].
  rewrite (colorSimilarity_sym c2 c1) in H21, Hseq by done.
  repeat split; try done.
  - subst query12 query21. congruence.
  - apply normalizePair_sym.
  - apply normalizePair_ordered.
  - destruct (getCachedSimilarity_cache cache c1 c2) as [H|[_ H]]; auto.
Qed.

Lemma getCachedSimilarity_order_independent_witness :
  let cache := (getCachedSimilarity similarityCache_new blue red).2 in
  (getCachedSimilarity cache red blue).1 = colorSimilarity red blue ∧
  (getCachedSimilarity cache blue red).1 = colorSimilarity red blue.
Proof.
  intros cache.
  destruct (getCachedSimilarity_order_independent cache red blue)
    as (H12 & H21 & _).
  - apply reachable_query; [apply reachable_new|reflexivity..].
  - reflexivity.
  - reflexivity.
  - split; [exact H12|exact H21].
Defined.

(** C3 on the code: the constant [maxDistance] is 441.67, which is less
    than sqrt(255² · 3) = 441.6729559…; for pure black against pure white
    the distance exceeds it and [colorSimilarity] returns a negative number,
    neither 0.0 nor inside [0,1]. *)
Theorem colorSimilarity_black_white_negative :
  PrimFloat.ltb maxDistance (PrimFloat.sqrt (Z2F (255 * 255 * 3))) = true ∧
  colorSimilarity black white = (-6.692621332016202e-06)%float ∧
  PrimFloat.ltb (colorSimilarity black white) 0%float = true.
Proof. repeat split; vm_compute; reflexivity. Qed.

(** ** Neighbours, queue and grid *)

Lemma isValidCoordinate_spec gr x y :
  isValidCoordinate gr x y = true ↔
  0 ≤ x < rg_width_ gr ∧ 0 ≤ y < rg_height_ gr.
Proof. unfold isValidCoordinate. lia. Qed.

Lemma pq_pop_None q : pq_pop q = None ↔ q = [].
Proof.
  destruct q as [|item q]; simpl; [done|]. split; [|done].
  destruct (pq_pop q) as [[least rest]|]; [|done].
  by destruct (PrimFloat.ltb _ _).
Qed.

(** [pop] takes one item out of the queue and leaves the others. *)
Lemma pq_pop_Permutation q item rest :
  pq_pop q = Some (item, rest) → q ≡ₚ item :: rest.
Proof.
  revert item rest. induction q as [|first q IH]; intros item rest; simpl; [done|].
  destruct (pq_pop q) as [[least rest']|] eqn:Hpop.
  - destruct (PrimFloat.ltb _ _); intros [= <- <-]; [|done].
    rewrite (IH _ _ eq_refl). apply Permutation_swap.
  - apply pq_pop_None in Hpop. subst q. by intros [= <- <-].
Qed.

Lemma pq_pop_length q item rest :
  pq_pop q = Some (item, rest) → length q = S (length rest).
Proof. intros Hpop%pq_pop_Permutation. by rewrite Hpop. Qed.

(** A duplicate-free list of grid points is no longer than the grid is
    large. *)
Lemma valid_points_bound gr (points : list Point) :
  0 ≤ rg_width_ gr * rg_height_ gr →
  NoDup points → Forall (valid_point gr) points →
  Z.of_nat (length points) ≤ rg_width_ gr * rg_height_ gr.
Proof.
  intros Hgrid Hnd Hvalid.
  set (index := λ p : Point, Z.to_nat (p_y p * rg_width_ gr + p_x p)).
  set (n := Z.to_nat (rg_width_ gr * rg_height_ gr)).
  assert (length (index <$> points) ≤ length (seq 0 n))%nat as Hle.
  { apply submseteq_length, NoDup_submseteq.
    - apply NoDup_fmap_2_strong; [|done].
      intros p q Hp Hq Heq. rewrite Forall_forall in Hvalid.
      pose proof (Hvalid p Hp) as Hvp. pose proof (Hvalid q Hq) as Hvq.
      apply isValidCoordinate_spec in Hvp, Hvq. subst index; simpl in Heq.
      apply Z2Nat.inj in Heq; [|nia..].
      apply row_major_inj in Heq; [|lia..].
      destruct p, q; simpl in *. f_equal; lia.
    - intros i [p [-> Hp]]%list_elem_of_fmap.
      rewrite Forall_forall in Hvalid. pose proof (Hvalid p Hp) as Hvp.
      apply isValidCoordinate_spec in Hvp.
      apply elem_of_seq. subst index n; simpl.
      assert (p_y p * rg_width_ gr ≤ (rg_height_ gr - 1) * rg_width_ gr)
        by (apply Z.mul_le_mono_nonneg_r; lia).
      assert (0 ≤ p_y p * rg_width_ gr) by (apply Z.mul_nonneg_nonneg; lia).
      lia. }
  rewrite length_fmap, length_seq in Hle. subst n. lia.
Qed.

(** ** The loops of findRegion *)

Section Growth.

(** The neighbour enumeration and what the spec says of it: it never
    returns a coordinate outside the grid, and with 4- or 8-connected
    adjacency it returns at most eight points. *)
Variable getNeighbors : AdaptiveRegionGrower → Z → Z → bool → list Point.
Hypothesis getNeighbors_valid :
  ∀ gr x y include8Connected p,
    p ∈ getNeighbors gr x y include8Connected → valid_point gr p.
Hypothesis getNeighbors_length :
  ∀ gr x y include8Connected,
    (length (getNeighbors gr x y include8Connected) ≤ 8)%nat.

Lemma getNeighbors_Forall gr x y include8 :
  Forall (valid_point gr) (getNeighbors gr x y include8).
Proof. apply Forall_forall. intros p. apply getNeighbors_valid. Qed.


Lemma queues_only_refl st : queues_only [] st st.
Proof.
  repeat split. exists []. rewrite app_nil_r. repeat split; [simpl; lia|done].
Qed.

Lemma queues_only_cache neighbors st cache :
  queues_only neighbors st
    (mkGrowState (region st) (regionList st) (priorityQueue st) cache).
Proof.
  repeat split. exists []. simpl. rewrite app_nil_r.
  repeat split; [lia|done].
Qed.

Lemma queues_only_push neighbor st item cache :
  point item = neighbor →
  queues_only [neighbor] st
    (mkGrowState (region st) (regionList st)
                 (pq_push (priorityQueue st) item) cache).
Proof.
  intros Hp. repeat split. exists [item]. unfold pq_push; simpl.
  repeat split; [lia|]. constructor; [|done]. rewrite Hp.
  by apply list_elem_of_singleton.
Qed.

Lemma queues_only_trans ns1 ns2 st1 st2 st3 :
  queues_only ns1 st1 st2 → queues_only ns2 st2 st3 →
  queues_only (ns1 ++ ns2) st1 st3.
Proof.
  intros (Hr1 & Hl1 & items1 & Hq1 & Hn1 & Hp1)
         (Hr2 & Hl2 & items2 & Hq2 & Hn2 & Hp2).
  split; [congruence|]. split; [congruence|].
  exists (items1 ++ items2). split; [by rewrite Hq2, Hq1, app_assoc|].
  split; [rewrite !length_app; lia|].
  apply Forall_app. split; (eapply Forall_impl; [eassumption|]);
    intros item Hin; simpl in Hin; apply elem_of_app; auto.
Qed.

Lemma queues_only_fold (step : GrowState → Point → GrowState) neighbors st :
  (∀ st n, queues_only [n] st (step st n)) →
  queues_only neighbors st (fold_left step neighbors st).
Proof.
  intros Hstep. revert st.
  induction neighbors as [|n neighbors IH]; intros st; simpl.
  - apply queues_only_refl.
  - change (n :: neighbors) with ([n] ++ neighbors).
    eapply queues_only_trans; [apply Hstep|apply IH].
Qed.

Lemma seedNeighbor_queues_only gr processed seedColor st n :
  queues_only [n] st (seedNeighbor gr processed seedColor st n).
Proof.
  unfold seedNeighbor. destruct (processed_at processed n).
  - destruct st. apply (queues_only_cache [n]).
  - destruct (getCachedSimilarity _ _ _) as [sim cache].
    by apply queues_only_push.
Qed.

Lemma enqueueNeighbor_queues_only gr processed seedColor currentColor thr st n :
  queues_only [n] st
    (enqueueNeighbor gr processed seedColor currentColor thr st n).
Proof.
  unfold enqueueNeighbor.
  destruct (bool_decide (n ∈ region st) || processed_at processed n).
  - destruct st. apply (queues_only_cache [n]).
  - destruct (getCachedSimilarity _ _ _) as [sim1 cache1].
    destruct (getCachedSimilarity _ _ _) as [sim2 cache2].
    destruct (PrimFloat.leb _ _).
    + by apply queues_only_push.
    + apply queues_only_cache.
Qed.

(** A state that only gained queued items for grid points keeps the
    invariant. *)
Lemma queues_only_invariant gr processed seedPoint neighbors st st' :
  grow_invariant gr processed seedPoint st →
  Forall (valid_point gr) neighbors →
  queues_only neighbors st st' →
  grow_invariant gr processed seedPoint st'.
Proof.
  intros [Hreg Hnd Hseed Hvalid Hunp Hq Hcap] Hns (Hr & Hl & items & Hq' & _ & Hp).
  constructor; rewrite ?Hr, ?Hl; try done.
  rewrite Hq'. apply Forall_app. split; [done|].
  eapply Forall_impl; [exact Hp|]. intros item Hin; simpl in Hin.
  rewrite Forall_forall in Hns. by apply Hns.
Qed.

Lemma queues_only_measure gr neighbors st st' :
  queues_only neighbors st st' →
  growMeasure gr st' ≤ growMeasure gr st + Z.of_nat (length neighbors).
Proof.
  intros (_ & Hl & items & Hq' & Hn & _). unfold growMeasure.
  rewrite Hl, Hq', length_app. lia.
Qed.

Lemma invariant_grid gr processed seedPoint st :
  grow_invariant gr processed seedPoint st →
  0 < rg_width_ gr ∧ 0 < rg_height_ gr.
Proof.
  intros [_ _ Hseed Hvalid _ _ _]. rewrite Forall_forall in Hvalid.
  pose proof (Hvalid _ Hseed) as Hv. apply isValidCoordinate_spec in Hv. lia.
Qed.

Lemma invariant_size gr processed seedPoint st :
  grow_invariant gr processed seedPoint st →
  size (region st) = length (regionList st).
Proof. intros [-> Hnd _ _ _ _ _]. by apply size_list_to_set. Qed.

Lemma invariant_length_bound gr processed seedPoint st :
  grow_invariant gr processed seedPoint st →
  Z.of_nat (length (regionList st)) ≤ rg_width_ gr * rg_height_ gr.
Proof.
  intros Hinv. pose proof (invariant_grid _ _ _ _ Hinv) as [Hw Hh].
  destruct Hinv as [_ Hnd _ Hvalid _ _ _].
  apply valid_points_bound; [nia|done..].
Qed.

(** One turn of the loop body keeps the invariant and does not raise the
    measure; it is entered only below the cap. *)
Lemma visit_invariant gr processed seedPoint seedColor baseThreshold current st :
  grow_invariant gr processed seedPoint st →
  valid_point gr (point current) →
  Z.of_nat (size (region st)) < to_size_t (maxRegionSize_ gr) →
  let st' := visit getNeighbors gr processed seedColor baseThreshold current st in
  grow_invariant gr processed seedPoint st' ∧
  growMeasure gr st' ≤ growMeasure gr st.
Proof.
  intros Hinv Hcur Hbelow. unfold visit.
  destruct (bool_decide (point current ∈ region st)) eqn:Hmem; simpl; [done|].
  destruct (processed_at processed (point current)) eqn:Hproc; simpl; [done|].
  apply bool_decide_eq_false in Hmem.
  destruct (getCachedSimilarity _ _ _) as [similarityToSeed cache].
  destruct (PrimFloat.leb _ _).
  - set (accepted := mkGrowState _ _ _ _).
    assert (grow_invariant gr processed seedPoint accepted) as Hacc.
    { rewrite (invariant_size _ _ _ _ Hinv) in Hbelow.
      destruct Hinv as [Hreg Hnd Hseed Hvalid Hunp Hq Hcap].
      rewrite Hreg in Hmem. rewrite elem_of_list_to_set in Hmem.
      constructor; simpl.
      - rewrite Hreg, list_to_set_app_L. simpl.
        by rewrite union_empty_r_L, (comm_L (∪)).
      - apply NoDup_app. repeat split; [done| |apply NoDup_singleton].
        intros p Hp ->%list_elem_of_singleton. done.
      - apply elem_of_app. by left.
      - apply Forall_app. split; [done|]. by constructor.
      - apply Forall_app. split; [done|]. by constructor.
      - done.
      - rewrite length_app; simpl. lia. }
    pose proof (queues_only_fold
      (enqueueNeighbor gr processed seedColor
         (getPixel (image_ gr) (p_x (point current)) (p_y (point current)))
         (adaptiveThresholdAt gr baseThreshold (point current)))
      (getNeighbors gr (p_x (point current)) (p_y (point current)) true)
      accepted (enqueueNeighbor_queues_only _ _ _ _ _)) as Hfold.
    split.
    + eapply queues_only_invariant; [exact Hacc|apply getNeighbors_Forall|done].
    + apply queues_only_measure with (gr := gr) in Hfold.
      pose proof (getNeighbors_length gr (p_x (point current))
                    (p_y (point current)) true).
      unfold growMeasure in *. subst accepted; simpl in *.
      rewrite length_app in Hfold; simpl in Hfold. lia.
  - split; [|done]. destruct Hinv. by constructor.
Qed.

Lemma growCondition_true gr st :
  growCondition gr st = true →
  priorityQueue st ≠ [] ∧
  Z.of_nat (size (region st)) < to_size_t (maxRegionSize_ gr).
Proof.
  unfold growCondition. intros [Hq Hs]%andb_true_iff. split; [|lia].
  by destruct (priorityQueue st).
Qed.

(** The [while] loop keeps the invariant and, given enough turns, ends. *)
Lemma growLoop_invariant gr processed seedPoint seedColor baseThreshold fuel :
  ∀ st st',
    grow_invariant gr processed seedPoint st →
    growLoop getNeighbors fuel gr processed seedColor baseThreshold st = Some st' →
    grow_invariant gr processed seedPoint st' ∧ growCondition gr st' = false.
Proof.
  induction fuel as [|fuel IH]; intros st st' Hinv; simpl.
  - destruct (growCondition gr st) eqn:Hc; [done|]. by intros [= <-].
  - destruct (growCondition gr st) eqn:Hc; [|by intros [= <-]].
    destruct (pq_pop (priorityQueue st)) as [[current rest]|] eqn:Hpop.
    + apply growCondition_true in Hc as [_ Hbelow].
      pose proof (pq_pop_Permutation _ _ _ Hpop) as Hperm.
      assert (Forall (λ item, valid_point gr (point item)) (current :: rest))
        as [Hcur Hrest]%Forall_cons
        by (rewrite <- Hperm; apply Hinv).
      intros Hloop. eapply IH; [|exact Hloop].
      apply visit_invariant; [|done..].
      destruct Hinv. by constructor.
    + apply pq_pop_None in Hpop. apply growCondition_true in Hc as [Hq _]. done.
Qed.

Lemma growLoop_terminates gr processed seedPoint seedColor baseThreshold fuel :
  ∀ st,
    grow_invariant gr processed seedPoint st →
    growMeasure gr st ≤ Z.of_nat fuel →
    is_Some (growLoop getNeighbors fuel gr processed seedColor baseThreshold st).
Proof.
  induction fuel as [|fuel IH]; intros st Hinv Hfuel; simpl.
  - destruct (growCondition gr st) eqn:Hc; [|done].
    apply growCondition_true in Hc as [Hq _].
    pose proof (invariant_length_bound _ _ _ _ Hinv).
    unfold growMeasure in Hfuel. destruct (priorityQueue st); [done|].
    simpl in Hfuel. lia.
  - destruct (growCondition gr st) eqn:Hc; [|done].
    destruct (pq_pop (priorityQueue st)) as [[current rest]|] eqn:Hpop; [|done].
    apply growCondition_true in Hc as [_ Hbelow].
    pose proof (pq_pop_Permutation _ _ _ Hpop) as Hperm.
    assert (Forall (λ item, valid_point gr (point item)) (current :: rest))
      as [Hcur Hrest]%Forall_cons
      by (rewrite <- Hperm; apply Hinv).
    set (popped := mkGrowState (region st) (regionList st) rest
                               (similarityCache st)).
    assert (grow_invariant gr processed seedPoint popped) as Hinv'
      by (destruct Hinv; by constructor).
    destruct (visit_invariant gr processed seedPoint seedColor baseThreshold
                current popped Hinv' Hcur Hbelow) as [Hinv'' Hmeasure].
    apply IH; [done|].
    assert (growMeasure gr popped = growMeasure gr st - 1).
    { unfold growMeasure, popped; simpl.
      rewrite (pq_pop_length _ _ _ Hpop). lia. }
    lia.
Qed.

Lemma seedState_invariant gr seedX seedY processed cache :
  valid_point gr (mkPoint seedX seedY) →
  processed_at processed (mkPoint seedX seedY) = false →
  let st := seedState getNeighbors gr seedX seedY processed cache in
  grow_invariant gr processed (mkPoint seedX seedY) st ∧
  regionList st = [mkPoint seedX seedY] ∧
  growMeasure gr st ≤ Z.of_nat (growFuel gr).
Proof.
  intros Hvalid Hunp st.
  set (start := mkGrowState {[mkPoint seedX seedY]} [mkPoint seedX seedY] [] cache).
  assert (grow_invariant gr processed (mkPoint seedX seedY) start) as Hstart.
  { constructor; simpl.
    - by rewrite union_empty_r_L.
    - apply NoDup_singleton.
    - by apply list_elem_of_singleton.
    - by constructor.
    - by constructor.
    - done.
    - lia. }
  assert (queues_only (getNeighbors gr seedX seedY true) start st) as Hfold
    by apply queues_only_fold, seedNeighbor_queues_only.
  split; [|split].
  - eapply queues_only_invariant; [exact Hstart|apply getNeighbors_Forall|done].
  - destruct Hfold as (_ & Hl & _). exact Hl.
  - apply queues_only_measure with (gr := gr) in Hfold.
    pose proof (getNeighbors_length gr seedX seedY true).
    apply isValidCoordinate_spec in Hvalid; simpl in Hvalid.
    assert (growMeasure gr start = 9 * (rg_width_ gr * rg_height_ gr - 1))
      as Hm by (unfold growMeasure; simpl; lia).
    assert (0 < rg_width_ gr * rg_height_ gr) by (apply Z.mul_pos_pos; lia).
    unfold growFuel. rewrite Z2Nat.id by lia. lia.
Qed.

Lemma growLoop_fuel_mono gr processed seedColor baseThreshold fuel :
  ∀ fuel' st st',
    growLoop getNeighbors fuel gr processed seedColor baseThreshold st = Some st' →
    (fuel ≤ fuel')%nat →
    growLoop getNeighbors fuel' gr processed seedColor baseThreshold st = Some st'.
Proof.
  induction fuel as [|fuel IH]; intros fuel' st st'; simpl.
  - destruct (growCondition gr st) eqn:Hc; [done|]. intros [= <-] _.
    destruct fuel'; simpl; by rewrite Hc.
  - destruct (growCondition gr st) eqn:Hc.
    + destruct fuel' as [|fuel']; [lia|]. simpl. rewrite Hc.
      destruct (pq_pop (priorityQueue st)) as [[current rest]|]; [|done].
      intros Hloop Hle. apply IH; [done|lia].
    + intros [= <-] _. destruct fuel'; simpl; by rewrite Hc.
Qed.

(** With enough turns [findRegion] returns, and what it returns satisfies
    the invariant. *)
Lemma findRegion_returns gr seedX seedY processed cache fuel :
  valid_point gr (mkPoint seedX seedY) →
  processed_at processed (mkPoint seedX seedY) = false →
  (growFuel gr ≤ fuel)%nat →
  ∃ st,
    growLoop getNeighbors fuel gr processed (getPixel (image_ gr) seedX seedY)
             (baseAdaptiveThreshold gr seedX seedY)
             (seedState getNeighbors gr seedX seedY processed cache) = Some st ∧
    findRegion getNeighbors fuel gr seedX seedY processed cache
      = Some (regionList st, similarityCache st) ∧
    grow_invariant gr processed (mkPoint seedX seedY) st ∧
    growCondition gr st = false.
Proof.
  intros Hvalid Hunp Hfuel.
  destruct (seedState_invariant gr seedX seedY processed cache Hvalid Hunp)
    as (Hinv & _ & Hmeasure).
  destruct (growLoop_terminates gr processed (mkPoint seedX seedY)
              (getPixel (image_ gr) seedX seedY)
              (baseAdaptiveThreshold gr seedX seedY) fuel _ Hinv)
    as [st Hloop]; [lia|].
  exists st. split; [done|]. split.
  - unfold findRegion. by rewrite Hloop.
  - by eapply growLoop_invariant.
Qed.

Lemma findRegion_fuel_irrelevant gr seedX seedY processed cache fuel fuel' r r' :
  findRegion getNeighbors fuel gr seedX seedY processed cache = Some r →
  findRegion getNeighbors fuel' gr seedX seedY processed cache = Some r' →
  r = r'.
Proof.
  unfold findRegion.
  destruct (growLoop getNeighbors fuel _ _ _ _ _) as [st|] eqn:H1; [|done].
  destruct (growLoop getNeighbors fuel' _ _ _ _ _) as [st'|] eqn:H2; [|done].
  intros [= <-] [= <-].
  destruct (Nat.le_ge_cases fuel fuel') as [Hle|Hle].
  - rewrite (growLoop_fuel_mono _ _ _ _ _ _ _ _ H1 Hle) in H2. congruence.
  - rewrite (growLoop_fuel_mono _ _ _ _ _ _ _ _ H2 Hle) in H1. congruence.
Qed.

(** C6. For every call to [findRegion] with an in-bounds, unprocessed seed
    the call returns (given at least [growFuel] turns, and with the same
    result for any number of turns that lets it return) a point sequence
    that contains the seed point, contains only points within
    [[0,width) × [0,height)], contains no point that is true in the
    processed mask, and contains no duplicate points. *)
Theorem findRegion_region_is_sound
    (gr : AdaptiveRegionGrower) (seedX seedY : Z)
    (processed : list (list bool)) (cache : SimilarityCache) (fuel : nat) :
  0 ≤ seedX < rg_width_ gr → 0 ≤ seedY < rg_height_ gr →
  processed_at processed (mkPoint seedX seedY) = false →
  (growFuel gr ≤ fuel)%nat →
  ∃ points cache',
    findRegion getNeighbors fuel gr seedX seedY processed cache = Some (points, cache') ∧
    (∀ fuel' r, findRegion getNeighbors fuel' gr seedX seedY processed cache = Some r →
                r = (points, cache')) ∧
    mkPoint seedX seedY ∈ points ∧
    Forall (λ p, 0 ≤ p_x p < rg_width_ gr ∧ 0 ≤ p_y p < rg_height_ gr) points ∧
    (wf_grower gr →
     Forall (λ p, in_bounds (image_ gr) (p_x p) (p_y p)) points) ∧
    Forall (λ p, processed_at processed p = false) points ∧
    NoDup points.
Proof.
  intros Hx Hy Hunp Hfuel.
  assert (valid_point gr (mkPoint seedX seedY)) as Hvalid
    by (apply isValidCoordinate_spec; done).
  destruct (findRegion_returns gr seedX seedY processed cache fuel
              Hvalid Hunp Hfuel) as (st & _ & Hfind & Hinv & _).
  exists (regionList st), (similarityCache st).
  assert (Forall (λ p, 0 ≤ p_x p < rg_width_ gr ∧ 0 ≤ p_y p < rg_height_ gr)
            (regionList st)) as Hgrid.
  { eapply Forall_impl; [apply Hinv|]. intros p Hp.
    by apply isValidCoordinate_spec. }
  split; [done|]. split.
  { intros fuel' r Hr. symmetry. by eapply findRegion_fuel_irrelevant. }
  split; [apply Hinv|]. split; [done|]. split.
  { intros (_ & Hw & Hh). unfold in_bounds. by rewrite <- Hw, <- Hh. }
  split; apply Hinv.
Qed.

(** ** The size cap *)

(** With a positive cap the region never exceeds it. *)
Lemma findRegion_respects_positive_cap
    gr seedX seedY processed cache fuel points cache' :
  valid_point gr (mkPoint seedX seedY) →
  processed_at processed (mkPoint seedX seedY) = false →
  0 < maxRegionSize_ gr < 2 ^ 31 →
  findRegion getNeighbors fuel gr seedX seedY processed cache = Some (points, cache') →
  Z.of_nat (length points) ≤ maxRegionSize_ gr.
Proof.
  intros Hvalid Hunp Hcap Hfind.
  destruct (findRegion_returns gr seedX seedY processed cache
              (Nat.max fuel (growFuel gr)) Hvalid Hunp)
    as (st & _ & Hfind' & Hinv & _); [lia|].
  pose proof (findRegion_fuel_irrelevant _ _ _ _ _ _ _ _ _ Hfind Hfind') as Heq.
  inversion Heq; subst.
  destruct Hinv as [_ _ _ _ _ _ Hlen]. unfold to_size_t in Hlen.
  rewrite Z.mod_small in Hlen by lia. lia.
Qed.

(** With the cap at 0 the loop condition [region.size() < 0] is false on
    entry: the region is the seed alone, whatever is queued. *)
Lemma findRegion_zero_cap gr seedX seedY processed cache fuel :
  maxRegionSize_ gr = 0 →
  findRegion getNeighbors fuel gr seedX seedY processed cache =
  Some ([mkPoint seedX seedY],
        similarityCache (seedState getNeighbors gr seedX seedY processed cache)).
Proof.
  intros Hcap. unfold findRegion.
  assert (queues_only (getNeighbors gr seedX seedY true)
            (mkGrowState {[mkPoint seedX seedY]} [mkPoint seedX seedY] [] cache)
            (seedState getNeighbors gr seedX seedY processed cache)) as (Hr & Hl & _)
    by apply queues_only_fold, seedNeighbor_queues_only.
  assert (growCondition gr (seedState getNeighbors gr seedX seedY processed cache) = false)
    as Hc.
  { assert (size (region (seedState getNeighbors gr seedX seedY processed cache)) = 1%nat)
      as Hsize by (cbn [region] in Hr; rewrite Hr; apply size_singleton).
    unfold growCondition. rewrite Hsize, Hcap. apply andb_false_r. }
  cbn [regionList] in Hl. destruct fuel; simpl; rewrite Hc; by rewrite Hl.
Qed.

(** ** Acceptance and admission *)

Lemma enqueueNeighbor_spec gr processed seedColor currentColor threshold st n :
  wf_image (image_ gr) → wf_color seedColor = true →
  wf_color currentColor = true → cache_ok (similarityCache st) →
  let st' :=
    enqueueNeighbor gr processed seedColor currentColor threshold st n in
  region st' = region st ∧ regionList st' = regionList st ∧
  cache_ok (similarityCache st') ∧
  priorityQueue st' =
    priorityQueue st ++
    (if admitted gr processed seedColor currentColor threshold (region st) n
     then [neighborItem gr seedColor currentColor n] else []).
Proof.
  intros Hwf Hseed Hcur Hok. unfold enqueueNeighbor, admitted.
  destruct (bool_decide (n ∈ region st)); simpl;
    [by rewrite app_nil_r|].
  destruct (processed_at processed n); simpl; [by rewrite app_nil_r|].
  pose proof (getPixel_wf (image_ gr) (p_x n) (p_y n) Hwf) as Hn.
  destruct (getCachedSimilarity_spec _ seedColor
              (getPixel (image_ gr) (p_x n) (p_y n)) Hok Hseed Hn)
    as [Hs1 Hok1].
  destruct (getCachedSimilarity (similarityCache st) seedColor _)
    as [similarityToSeed cache1]; simpl in Hs1, Hok1.
  destruct (getCachedSimilarity_spec _ currentColor
              (getPixel (image_ gr) (p_x n) (p_y n)) Hok1 Hcur Hn)
    as [Hs2 Hok2].
  destruct (getCachedSimilarity cache1 currentColor _)
    as [similarityToCurrent cache2]; simpl in Hs2, Hok2.
  subst similarityToSeed similarityToCurrent. fold (bestOfTwo seedColor
    currentColor (getPixel (image_ gr) (p_x n) (p_y n))).
  destruct (PrimFloat.leb _ _); simpl; [done|]. by rewrite app_nil_r.
Qed.

Lemma enqueueNeighbors_spec gr processed seedColor currentColor threshold ns :
  wf_image (image_ gr) → wf_color seedColor = true →
  wf_color currentColor = true →
  ∀ st, cache_ok (similarityCache st) →
    let st' :=
      fold_left (enqueueNeighbor gr processed seedColor currentColor threshold)
                ns st in
    region st' = region st ∧ regionList st' = regionList st ∧
    cache_ok (similarityCache st') ∧
    priorityQueue st' =
      priorityQueue st ++
      map (neighborItem gr seedColor currentColor)
          (filter (λ n, admitted gr processed seedColor currentColor threshold
                                 (region st) n = true) ns).
Proof.
  intros Hwf Hseed Hcur.
  induction ns as [|n ns IH]; intros st Hok; simpl.
  - by rewrite app_nil_r.
  - destruct (enqueueNeighbor_spec gr processed seedColor currentColor
                threshold st n Hwf Hseed Hcur Hok) as (Hr & Hl & Hok' & Hq).
    destruct (IH _ Hok') as (Hr' & Hl' & Hok'' & Hq').
    rewrite Hr', Hl', Hq', Hq, Hr. repeat split; try done.
    rewrite filter_cons.
    destruct (decide (admitted gr processed seedColor currentColor threshold
                               (region st) n = true)) as [Ha|Ha].
    + rewrite Ha. simpl. by rewrite <- app_assoc.
    + apply not_true_is_false in Ha. rewrite Ha. by rewrite app_nil_r.
Qed.

Lemma adaptiveThresholdAt_spec gr seedX seedY cur :
  adaptiveThresholdAt gr (baseAdaptiveThreshold gr seedX seedY) cur =
  if adaptiveMode_ gr
  then std_min (calculateAdaptiveThreshold gr seedX seedY defaultRadius)
               (calculateAdaptiveThreshold gr (p_x cur) (p_y cur) defaultRadius)
  else similarityThreshold_ gr.
Proof.
  unfold adaptiveThresholdAt, baseAdaptiveThreshold.
  by destruct (adaptiveMode_ gr).
Qed.

(** C4. In the growth loop, let [current] be the popped candidate, neither
    a member nor processed.  Its adaptive threshold is, in adaptive mode,
    [std::min] of the threshold computed at the seed and the threshold
    computed at the candidate's own location, and the configured threshold
    otherwise.  The candidate joins the region if and only if its cached
    similarity to the seed colour (which is [colorSimilarity] of the two
    colours) is at least that threshold.  When it is accepted it is appended
    to the region and the queue gains, for the 8-connected neighbours in
    order, exactly one item for each neighbour that is not a member, not
    processed and whose best of the similarities to the seed colour and to
    the candidate's colour is at least 0.8 times the threshold: such a
    neighbour is enqueued if and only if that bound holds.  When it is
    rejected, region and queue are left as they were after the pop. *)
Theorem growth_step_decisions
    (gr : AdaptiveRegionGrower) (processed : list (list bool))
    (seedX seedY : Z) (st : GrowState)
    (current : PriorityItem) (rest : PriorityQueue) :
  wf_image (image_ gr) → cache_ok (similarityCache st) →
  pq_pop (priorityQueue st) = Some (current, rest) →
  point current ∉ region st →
  processed_at processed (point current) = false →
  let seedColor := getPixel (image_ gr) seedX seedY in
  let cur := point current in
  let currentColor := getPixel (image_ gr) (p_x cur) (p_y cur) in
  let threshold :=
    if adaptiveMode_ gr
    then std_min (calculateAdaptiveThreshold gr seedX seedY defaultRadius)
                 (calculateAdaptiveThreshold gr (p_x cur) (p_y cur)
                                             defaultRadius)
    else similarityThreshold_ gr in
  let accept :=
    PrimFloat.leb threshold (colorSimilarity seedColor currentColor) in
  let neighbors := getNeighbors gr (p_x cur) (p_y cur) true in
  let st' :=
    visit getNeighbors gr processed seedColor (baseAdaptiveThreshold gr seedX seedY) current
      (mkGrowState (region st) (regionList st) rest (similarityCache st)) in
  (getCachedSimilarity (similarityCache st) seedColor currentColor).1
    = colorSimilarity seedColor currentColor ∧
  (cur ∈ region st' ↔ accept = true) ∧
  (accept = true →
     region st' = {[cur]} ∪ region st ∧
     regionList st' = regionList st ++ [cur] ∧
     priorityQueue st' =
       rest ++ map (neighborItem gr seedColor currentColor)
                 (filter (λ n, admitted gr processed seedColor currentColor
                                        threshold (region st') n = true)
                         neighbors) ∧
     ∀ n, n ∈ neighbors → n ∉ region st' → processed_at processed n = false →
       (n ∈ map point (drop (length rest) (priorityQueue st')) ↔
        PrimFloat.leb (threshold * 0.8)%float
          (std_max
             (colorSimilarity seedColor
                (getPixel (image_ gr) (p_x n) (p_y n)))
             (colorSimilarity currentColor
                (getPixel (image_ gr) (p_x n) (p_y n)))) = true)) ∧
  (accept = false →
     region st' = region st ∧ regionList st' = regionList st ∧
     priorityQueue st' = rest) ∧
  cache_ok (similarityCache st').
Proof.
  intros Hwf Hok Hpop Hmem Hproc seedColor cur currentColor threshold accept
         neighbors st'.
  assert (wf_color seedColor = true) as Hseed by by apply getPixel_wf.
  assert (wf_color currentColor = true) as Hcur by by apply getPixel_wf.
  destruct (getCachedSimilarity_spec _ seedColor currentColor Hok Hseed Hcur)
    as [Hsim Hok'].
  split; [exact Hsim|].
  subst st'. unfold visit. cbn [region regionList priorityQueue similarityCache].
  rewrite (bool_decide_eq_false_2 _ Hmem), Hproc. simpl orb. cbv iota.
  fold cur. fold currentColor.
  destruct (getCachedSimilarity (similarityCache st) seedColor currentColor)
    as [similarityToSeed cache] eqn:Hquery.
  simpl in Hsim, Hok'. subst similarityToSeed.
  rewrite adaptiveThresholdAt_spec. fold threshold. fold accept.
  destruct accept eqn:Haccept.
  - set (accepted := mkGrowState ({[cur]} ∪ region st) (regionList st ++ [cur])
                                 rest cache).
    destruct (enqueueNeighbors_spec gr processed seedColor currentColor
                threshold neighbors Hwf Hseed Hcur accepted Hok')
      as (Hr & Hl & Hok'' & Hq).
    fold neighbors. rewrite Hr, Hl, Hq. cbn [region regionList priorityQueue].
    split; [split; [done|]; intros _; by apply elem_of_union_l, elem_of_singleton|].
    split; [|split; [done|exact Hok'']].
    intros _. do 3 (split; [done|]).
    intros n Hn Hnot Hunp. rewrite drop_app_length.
    rewrite <- list_fmap_compose.
    assert (point ∘ neighborItem gr seedColor currentColor = id) as ->
      by reflexivity.
    rewrite list_fmap_id, list_elem_of_filter.
    unfold admitted, bestOfTwo.
    rewrite (bool_decide_eq_false_2 _ Hnot), Hunp. simpl. tauto.
  - cbn [region regionList priorityQueue similarityCache].
    split; [split; [done|discriminate]|].
    split; [discriminate|]. split; [done|exact Hok'].
Qed.

End Growth.

(** ** Evaluating findRegion *)

Lemma gridNeighbors_valid gr x y include8 p :
  p ∈ gridNeighbors gr x y include8 → valid_point gr p.
Proof. unfold gridNeighbors. by intros [? _]%list_elem_of_filter. Qed.

Lemma gridNeighbors_length gr x y include8 :
  (length (gridNeighbors gr x y include8) ≤ 8)%nat.
Proof.
  unfold gridNeighbors. etrans; [apply length_filter|].
  rewrite length_map. destruct include8; simpl; lia.
Qed.

Lemma gridNeighbors_Forall gr x y include8 :
  Forall (valid_point gr) (gridNeighbors gr x y include8).
Proof. apply Forall_forall. intros p. apply gridNeighbors_valid. Qed.

Lemma twoHalves_wf : wf_image twoHalves.
Proof.
  unfold wf_image, twoHalves; simpl. repeat split; try lia.
  by repeat constructor.
Qed.

Lemma findRegion_region_is_sound_witness :
  ∃ points cache',
    findRegion gridNeighbors 200 (twoHalvesGrower 16) 3 1 (unprocessed 4 4)
               similarityCache_new
      = Some (points, cache') ∧
    mkPoint 3 1 ∈ points ∧ NoDup points.
Proof.
  destruct (findRegion_region_is_sound gridNeighbors gridNeighbors_valid
              gridNeighbors_length (twoHalvesGrower 16) 3 1
              (unprocessed 4 4) similarityCache_new 200)
    as (points & cache' & Hfind & _ & Hseed & _ & _ & _ & Hnd).
  - simpl; lia.
  - simpl; lia.
  - reflexivity.
  - vm_compute. lia.
  - exists points, cache'. repeat split; assumption.
Defined.

(** C1 on the code: on a 2×1 image of one colour, with [maxRegionSize_ = 0]
    and the seed at (0,0), the neighbour (1,0) is queued with similarity 1.0
    and would be accepted, yet [findRegion] returns the seed alone: the cap
    0 cuts growth short at one point.  With a cap of 2 the same call returns
    both pixels. *)
Theorem findRegion_zero_cap_stops_at_seed :
  let entry :=
    seedState gridNeighbors (twoRedsGrower 0) 0 0 (unprocessed 2 1)
              similarityCache_new in
  map point (priorityQueue entry) = [mkPoint 1 0] ∧
  map similarity (priorityQueue entry) = [1%float] ∧
  PrimFloat.leb (baseAdaptiveThreshold (twoRedsGrower 0) 0 0) 1%float = true ∧
  fst <$> findRegion gridNeighbors (growFuel (twoRedsGrower 0))
                     (twoRedsGrower 0) 0 0 (unprocessed 2 1)
                     similarityCache_new
    = Some [mkPoint 0 0] ∧
  fst <$> findRegion gridNeighbors (growFuel (twoRedsGrower 2))
                     (twoRedsGrower 2) 0 0 (unprocessed 2 1)
                     similarityCache_new
    = Some [mkPoint 0 0; mkPoint 1 0].
Proof. repeat split; vm_compute; reflexivity. Qed.

Lemma growsHalf_spec gr half color (seeds : list Point) seed :
  forallb (growsHalf gr half color) seeds = true → seed ∈ seeds →
  ∃ points cache',
    findRegion gridNeighbors (growFuel gr) gr (p_x seed) (p_y seed)
               (unprocessed 4 4) similarityCache_new
      = Some (points, cache') ∧
    length points = 8%nat ∧
    list_to_set points =@{gset Point} list_to_set half ∧
    calculateAverageColor points twoHalves = color.
Proof.
  intros Hall Hseed. rewrite forallb_forall in Hall.
  specialize (Hall seed (proj1 (list_elem_of_In _ _) Hseed)).
  unfold growsHalf in Hall.
  destruct (findRegion _ _ _ _ _ _ _) as [[points cache']|]; [|done].
  apply andb_true_iff in Hall as [[Hlen Hset]%andb_true_iff Hcolor].
  exists points, cache'. split; [done|].
  split; [by apply Nat.eqb_eq|].
  split; by eapply bool_decide_eq_true_1.
Qed.

(** C2 on the code: on the 4×4 two-halves image with threshold 0.9,
    adaptive mode on and [maxRegionSize_ = 0], [findRegion] returns the seed
    alone from a seed of either half, not the 8 pixels of the half.  With a
    cap of 16 the same calls return exactly the 8 pixels of the seed's half,
    whose average colour is the half's colour. *)
Theorem findRegion_two_halves :
  fst <$> findRegion gridNeighbors (growFuel (twoHalvesGrower 0))
                     (twoHalvesGrower 0) 0 0 (unprocessed 4 4)
                     similarityCache_new = Some [mkPoint 0 0] ∧
  fst <$> findRegion gridNeighbors (growFuel (twoHalvesGrower 0))
                     (twoHalvesGrower 0) 2 0 (unprocessed 4 4)
                     similarityCache_new = Some [mkPoint 2 0] ∧
  (∀ seed, seed ∈ leftHalf →
     ∃ points cache',
       findRegion gridNeighbors (growFuel (twoHalvesGrower 16))
                  (twoHalvesGrower 16) (p_x seed) (p_y seed)
                  (unprocessed 4 4) similarityCache_new
         = Some (points, cache') ∧
       length points = 8%nat ∧
       list_to_set points =@{gset Point} list_to_set leftHalf ∧
       calculateAverageColor points twoHalves = red) ∧
  (∀ seed, seed ∈ rightHalf →
     ∃ points cache',
       findRegion gridNeighbors (growFuel (twoHalvesGrower 16))
                  (twoHalvesGrower 16) (p_x seed) (p_y seed)
                  (unprocessed 4 4) similarityCache_new
         = Some (points, cache') ∧
       length points = 8%nat ∧
       list_to_set points =@{gset Point} list_to_set rightHalf ∧
       calculateAverageColor points twoHalves = blue).
Proof.
  split; [vm_compute; reflexivity|]. split; [vm_compute; reflexivity|].
  split; intros seed Hseed.
  - by apply (growsHalf_spec _ leftHalf red leftHalf);
      [vm_compute; reflexivity|].
  - by apply (growsHalf_spec _ rightHalf blue rightHalf);
      [vm_compute; reflexivity|].
Qed.

Lemma growth_step_decisions_witness :
  let gr := twoHalvesGrower 16 in
  let candidate := mkItem 0%float (mkPoint 1 0) 1%float in
  let st :=
    mkGrowState {[mkPoint 0 0]} [mkPoint 0 0] [candidate] similarityCache_new in
  mkPoint 1 0 ∈
    region (visit gridNeighbors gr (unprocessed 4 4) (getPixel (image_ gr) 0 0)
                  (baseAdaptiveThreshold gr 0 0) candidate
                  (mkGrowState (region st) (regionList st) []
                               (similarityCache st))).
Proof.
  intros gr candidate st.
  destruct (growth_step_decisions gridNeighbors gr (unprocessed 4 4) 0 0 st
              candidate [])
    as (_ & Haccept & _).
  - exact twoHalves_wf.
  - exact empty_cache_ok.
  - reflexivity.
  - simpl. rewrite elem_of_singleton. discriminate.
  - reflexivity.
  - apply Haccept. vm_compute. reflexivity.
Defined.

(** ** The local window of calculateAdaptiveThreshold *)

(** Clipping a run of consecutive integers to an interval. *)
Lemma filter_seqZ_interval (len : nat) :
  ∀ a lo hi,
    filter (λ z, lo ≤ z < hi) (seqZ a (Z.of_nat len)) =
    seqZ (Z.max a lo) (Z.min (a + Z.of_nat len) hi - Z.max a lo).
Proof.
  induction len as [|len IH]; intros a lo hi.
  - rewrite (seqZ_nil a) by done. rewrite seqZ_nil by lia. done.
  - rewrite seqZ_cons by lia.
    replace (Z.pred (Z.of_nat (S len))) with (Z.of_nat len) by lia.
    rewrite filter_cons, IH.
    replace (Z.succ a + Z.of_nat len) with (a + Z.of_nat (S len)) by lia.
    destruct (decide (lo ≤ a < hi)) as [Hin|Hout].
    + rewrite (seqZ_cons (Z.max a lo)) by lia.
      f_equal; [lia|]. f_equal; lia.
    + destruct (decide (a < lo)).
      * f_equal; lia.
      * rewrite !seqZ_nil by lia. done.
Qed.

Lemma filter_seqZ_window lo hi a n :
  0 ≤ n →
  filter (λ z, lo ≤ z < hi) (seqZ a n) =
  seqZ (Z.max a lo) (Z.min (a + n) hi - Z.max a lo).
Proof.
  intros Hn. rewrite <- (Z2Nat.id n) by done. apply filter_seqZ_interval.
Qed.

(** Filtering a grid of points by a condition on each coordinate filters
    the rows and the columns. *)
Lemma filter_row (okX okY : Z → Prop)
    `{∀ z, Decision (okX z)} `{∀ z, Decision (okY z)}
    `{∀ p, Decision (okX (p_x p) ∧ okY (p_y p))} (xs : list Z) (ly : Z) :
  filter (λ p, okX (p_x p) ∧ okY (p_y p)) (lx ← xs; [mkPoint lx ly]) =
  if decide (okY ly) then lx ← filter okX xs; [mkPoint lx ly] else [].
Proof.
  induction xs as [|lx xs IH].
  - by destruct (decide (okY ly)).
  - rewrite bind_cons. cbn [app]. rewrite !filter_cons, IH. simpl.
    destruct (decide (okY ly)), (decide (okX lx)); simpl;
      rewrite ?decide_True, ?decide_False by tauto; try done.
Qed.

Lemma filter_grid (okX okY : Z → Prop)
    `{∀ z, Decision (okX z)} `{∀ z, Decision (okY z)}
    `{∀ p, Decision (okX (p_x p) ∧ okY (p_y p))} (xs ys : list Z) :
  filter (λ p, okX (p_x p) ∧ okY (p_y p))
         (ly ← ys; lx ← xs; [mkPoint lx ly]) =
  ly ← filter okY ys; lx ← filter okX xs; [mkPoint lx ly].
Proof.
  induction ys as [|ly ys IH]; [done|].
  rewrite bind_cons, filter_app, IH, (filter_row okX okY), filter_cons.
  destruct (decide (okY ly)); [by rewrite bind_cons|done].
Qed.

Lemma map_row {A B} (g : A → B) (f : Z → Z → A) (xs : list Z) (ly : Z) :
  map g (lx ← xs; [f lx ly]) = lx ← xs; [g (f lx ly)].
Proof.
  induction xs as [|lx xs IH]; [done|].
  rewrite !bind_cons. simpl. by rewrite IH.
Qed.

Lemma memberPixels_grid image (xs ys : list Z) :
  memberPixels image (ly ← ys; lx ← xs; [mkPoint lx ly]) =
  ly ← ys; lx ← xs; [getPixel image lx ly].
Proof.
  unfold memberPixels.
  induction ys as [|ly ys IH]; [done|].
  by rewrite !bind_cons, map_app, IH, map_row.
Qed.

Lemma length_row {A} (f : Z → Z → A) (xs : list Z) (ly : Z) :
  length (lx ← xs; [f lx ly]) = length xs.
Proof.
  induction xs as [|lx xs IH]; [done|].
  rewrite bind_cons. simpl. by rewrite IH.
Qed.

Lemma length_grid {A} (f : Z → Z → A) (xs ys : list Z) :
  length (ly ← ys; lx ← xs; [f lx ly]) = (length ys * length xs)%nat.
Proof.
  induction ys as [|ly ys IH]; [done|].
  rewrite bind_cons, length_app, IH, length_row. simpl. lia.
Qed.

Lemma clippedWindow_grid gr x y radius :
  0 ≤ radius →
  clippedWindow gr x y radius =
  ly ← seqZ (Z.max 0 (y - radius))
            (Z.min (rg_height_ gr - 1) (y + radius) - Z.max 0 (y - radius) + 1);
  lx ← seqZ (Z.max 0 (x - radius))
            (Z.min (rg_width_ gr - 1) (x + radius) - Z.max 0 (x - radius) + 1);
  [mkPoint lx ly].
Proof.
  intros Hr. unfold clippedWindow, window.
  rewrite (list_filter_iff (valid_point gr)
             (λ p, (0 ≤ p_x p < rg_width_ gr) ∧ (0 ≤ p_y p < rg_height_ gr)))
    by (intros p; apply isValidCoordinate_spec).
  rewrite (filter_grid (λ z, 0 ≤ z < rg_width_ gr) (λ z, 0 ≤ z < rg_height_ gr)).
  rewrite !filter_seqZ_window by lia.
  f_equal; [|f_equal; lia].
  replace (Z.max (x - radius) 0) with (Z.max 0 (x - radius)) by lia.
  replace (Z.min (x - radius + (2 * radius + 1)) (rg_width_ gr)
           - Z.max 0 (x - radius))
    with (Z.min (rg_width_ gr - 1) (x + radius) - Z.max 0 (x - radius) + 1)
    by lia.
  done.
Qed.

(** The two loops of the source visit exactly the clipped window. *)
Lemma localColors_sampled gr x y radius :
  0 ≤ radius → localColors gr x y radius = sampledColors gr x y radius.
Proof.
  intros Hr. unfold sampledColors. rewrite clippedWindow_grid by done.
  by rewrite memberPixels_grid.
Qed.




Lemma to_int32_small n : 0 ≤ n < 2 ^ 31 → to_int32 n = n.
Proof. intros Hn. unfold to_int32. rewrite Z.mod_small; lia. Qed.




(** *** Outside the range of C5 *)

















(** * Further properties of the code *)

(** ** What every turn of the growth loop keeps *)

Section GrowthTrace.

Variable getNeighbors : AdaptiveRegionGrower → Z → Z → bool → list Point.

(** A property kept by the pop and the loop body is kept by the loop. *)
Lemma growLoop_preserves (P : GrowState → Prop) gr processed seedColor
    baseThreshold :
  (∀ st current rest,
     P st → growCondition gr st = true →
     pq_pop (priorityQueue st) = Some (current, rest) →
     P (visit getNeighbors gr processed seedColor baseThreshold current
          (mkGrowState (region st) (regionList st) rest (similarityCache st)))) →
  ∀ fuel st st',
    P st →
    growLoop getNeighbors fuel gr processed seedColor baseThreshold st
      = Some st' →
    P st'.
Proof.
  intros Hstep. induction fuel as [|fuel IH]; intros st st' HP; simpl.
  - destruct (growCondition gr st); [done|]. by intros [= <-].
  - destruct (growCondition gr st) eqn:Hc; [|by intros [= <-]].
    destruct (pq_pop (priorityQueue st)) as [[current rest]|] eqn:Hpop;
      [|by intros [= <-]].
    apply IH. by apply Hstep.
Qed.

(** The three outcomes of the loop body: the candidate is skipped; it is
    rejected and only the cache may change; it is appended to the region and
    items are queued for some of its neighbours. *)
Lemma visit_shape gr processed seedColor baseThreshold current st :
  let cur := point current in
  let st' := visit getNeighbors gr processed seedColor baseThreshold current st in
  queues_only [] st st' ∨
  ((cur ∉ region st) ∧ processed_at processed cur = false ∧
   ∃ cache,
     queues_only (getNeighbors gr (p_x cur) (p_y cur) true)
       (mkGrowState ({[cur]} ∪ region st) (regionList st ++ [cur])
                    (priorityQueue st) cache) st').
Proof.
  intros cur st'. subst st'. unfold visit. fold cur.
  destruct (bool_decide (cur ∈ region st)) eqn:Hmem; simpl;
    [left; apply queues_only_refl|].
  destruct (processed_at processed cur) eqn:Hproc; simpl;
    [left; apply queues_only_refl|].
  apply bool_decide_eq_false in Hmem.
  destruct (getCachedSimilarity _ _ _) as [similarityToSeed cache].
  destruct (PrimFloat.leb _ _).
  - right. split; [done|]. split; [done|]. exists cache.
    apply queues_only_fold, enqueueNeighbor_queues_only.
  - left. apply (queues_only_cache []).
Qed.

Lemma seedState_shape gr seedX seedY processed cache :
  queues_only (getNeighbors gr seedX seedY true)
    (mkGrowState {[mkPoint seedX seedY]} [mkPoint seedX seedY] [] cache)
    (seedState getNeighbors gr seedX seedY processed cache).
Proof. apply queues_only_fold, seedNeighbor_queues_only. Qed.

(** *** Order of emission *)

Lemma grown_in_order_snoc gr points p q :
  grown_in_order getNeighbors gr points → q ∈ points →
  p ∈ getNeighbors gr (p_x q) (p_y q) true →
  grown_in_order getNeighbors gr (points ++ [p]).
Proof.
  intros Hord Hq Hp i p' Hi.
  destruct (decide ((S i < length points)%nat)) as [Hlt|Hge].
  - rewrite lookup_app_l in Hi by done.
    destruct (Hord i p' Hi) as (j & q' & Hj & Hq' & Hn).
    exists j, q'. split; [done|]. split; [|done].
    rewrite lookup_app_l; [done|]. apply lookup_lt_Some in Hq'. lia.
  - pose proof (lookup_lt_Some _ _ _ Hi) as Hlen.
    rewrite length_app in Hlen; simpl in Hlen.
    assert (S i = length points) as Heq by lia.
    rewrite Heq, list_lookup_middle in Hi by done. injection Hi as <-.
    apply list_elem_of_lookup in Hq as [j Hj].
    exists j, q. pose proof (lookup_lt_Some _ _ _ Hj).
    split; [lia|]. split; [|done]. by rewrite lookup_app_l.
Qed.

Lemma frontier_of_snoc gr points p queue :
  frontier_of getNeighbors gr points queue →
  frontier_of getNeighbors gr (points ++ [p]) queue.
Proof.
  unfold frontier_of. intros Hfront.
  eapply Forall_impl; [exact Hfront|]. intros item (q & Hq & Hn).
  exists q. split; [|done]. apply elem_of_app. by left.
Qed.

Lemma queues_only_order gr seedPoint q neighbors st st' :
  order_invariant getNeighbors gr seedPoint st → q ∈ regionList st →
  (∀ n, n ∈ neighbors → n ∈ getNeighbors gr (p_x q) (p_y q) true) →
  queues_only neighbors st st' →
  order_invariant getNeighbors gr seedPoint st'.
Proof.
  intros (Hhead & Hord & Hfront) Hq Hns (_ & Hl & items & Hq' & _ & Hitems).
  unfold order_invariant. rewrite Hl, Hq'. split; [done|]. split; [done|].
  apply Forall_app. split; [done|].
  eapply Forall_impl; [exact Hitems|]. intros item Hin; simpl in Hin.
  exists q. split; [done|]. by apply Hns.
Qed.

Lemma seedState_order gr seedX seedY processed cache :
  order_invariant getNeighbors gr (mkPoint seedX seedY)
    (seedState getNeighbors gr seedX seedY processed cache).
Proof.
  eapply (queues_only_order gr _ (mkPoint seedX seedY));
    [| |intros n Hn; exact Hn|apply seedState_shape].
  - split; [by exists []|]. split; [|by constructor].
    intros i p Hi. by destruct i.
  - by apply list_elem_of_singleton.
Qed.

Lemma visit_order gr processed seedPoint seedColor baseThreshold st current rest :
  order_invariant getNeighbors gr seedPoint st →
  pq_pop (priorityQueue st) = Some (current, rest) →
  order_invariant getNeighbors gr seedPoint
    (visit getNeighbors gr processed seedColor baseThreshold current
       (mkGrowState (region st) (regionList st) rest (similarityCache st))).
Proof.
  intros (Hhead & Hord & Hfront) Hpop.
  pose proof (pq_pop_Permutation _ _ _ Hpop) as Hperm.
  unfold frontier_of in Hfront. rewrite Hperm in Hfront.
  apply Forall_cons in Hfront as [(q & Hq & Hn) Hrest].
  set (popped := mkGrowState (region st) (regionList st) rest
                             (similarityCache st)).
  assert (order_invariant getNeighbors gr seedPoint popped) as Hpopped by done.
  destruct (visit_shape gr processed seedColor baseThreshold current popped)
    as [Hskip|(_ & _ & cache & Hacc)].
  - destruct Hhead as [tl Hhead].
    eapply (queues_only_order gr _ seedPoint []);
      [exact Hpopped| |by intros n ?%elem_of_nil|exact Hskip].
    simpl. rewrite Hhead. by left.
  - eapply (queues_only_order gr _ (point current)); [| |by intros n Hin|exact Hacc].
    + simpl. destruct Hhead as [tl Hhead]. split; [|split].
      * exists (tl ++ [point current]). by rewrite Hhead.
      * by eapply grown_in_order_snoc.
      * by apply frontier_of_snoc.
    + simpl. apply elem_of_app. right. by apply list_elem_of_singleton.
Qed.

End GrowthTrace.

(** ** The cache across a call of findRegion *)

Lemma getCachedSimilarity_subseteq cache c1 c2 :
  cache ⊆ (getCachedSimilarity cache c1 c2).2.
Proof.
  destruct (getCachedSimilarity_cache cache c1 c2) as [->|[Hnone ->]]; [done|].
  by apply insert_subseteq.
Qed.

Lemma seedNeighbor_cache gr processed seedColor st n :
  similarityCache st
    ⊆ similarityCache (seedNeighbor gr processed seedColor st n) ∧
  (wf_image (image_ gr) → wf_color seedColor = true →
   cache_ok (similarityCache st) →
   cache_ok (similarityCache (seedNeighbor gr processed seedColor st n))).
Proof.
  unfold seedNeighbor. destruct (processed_at processed n); [done|].
  pose proof (getCachedSimilarity_subseteq (similarityCache st) seedColor
                (getPixel (image_ gr) (p_x n) (p_y n))) as Hsub.
  split.
  - by destruct (getCachedSimilarity _ _ _).
  - intros Hwf Hseed Hok.
    destruct (getCachedSimilarity_spec (similarityCache st) seedColor
                (getPixel (image_ gr) (p_x n) (p_y n)) Hok Hseed
                (getPixel_wf _ _ _ Hwf)) as [_ Hok'].
    by destruct (getCachedSimilarity _ _ _).
Qed.

Lemma enqueueNeighbor_cache gr processed seedColor currentColor thr st n :
  similarityCache st
    ⊆ similarityCache
        (enqueueNeighbor gr processed seedColor currentColor thr st n).
Proof.
  unfold enqueueNeighbor.
  destruct (bool_decide (n ∈ region st) || processed_at processed n); [done|].
  pose proof (getCachedSimilarity_subseteq (similarityCache st) seedColor
                (getPixel (image_ gr) (p_x n) (p_y n))) as Hsub1.
  destruct (getCachedSimilarity (similarityCache st) _ _) as [sim1 cache1].
  pose proof (getCachedSimilarity_subseteq cache1 currentColor
                (getPixel (image_ gr) (p_x n) (p_y n))) as Hsub2.
  destruct (getCachedSimilarity cache1 _ _) as [sim2 cache2].
  simpl in *. destruct (PrimFloat.leb _ _); simpl; by etrans.
Qed.

Lemma fold_cache_subseteq (step : GrowState → Point → GrowState) ns :
  (∀ st n, similarityCache st ⊆ similarityCache (step st n)) →
  ∀ st, similarityCache st ⊆ similarityCache (fold_left step ns st).
Proof.
  intros Hstep. induction ns as [|n ns IH]; intros st; simpl; [done|].
  etrans; [apply Hstep|apply IH].
Qed.

Lemma seedState_cache_ok getNeighbors gr seedX seedY processed cache :
  wf_image (image_ gr) → cache_ok cache →
  cache_ok (similarityCache
              (seedState getNeighbors gr seedX seedY processed cache)).
Proof.
  intros Hwf Hok. unfold seedState.
  generalize (mkGrowState {[mkPoint seedX seedY]} [mkPoint seedX seedY] []
                          cache) (Hok : cache_ok (similarityCache
    (mkGrowState {[mkPoint seedX seedY]} [mkPoint seedX seedY] [] cache))).
  induction (getNeighbors gr seedX seedY true) as [|n ns IH]; intros st Hst;
    simpl; [done|].
  apply IH. apply seedNeighbor_cache; [done| |done]. by apply getPixel_wf.
Qed.

Section GrowthResults.

Variable getNeighbors : AdaptiveRegionGrower → Z → Z → bool → list Point.
Hypothesis getNeighbors_valid :
  ∀ gr x y include8Connected p,
    p ∈ getNeighbors gr x y include8Connected → valid_point gr p.
Hypothesis getNeighbors_length :
  ∀ gr x y include8Connected,
    (length (getNeighbors gr x y include8Connected) ≤ 8)%nat.

Lemma visit_cache_subseteq gr processed seedColor baseThreshold current st :
  similarityCache st
    ⊆ similarityCache
        (visit getNeighbors gr processed seedColor baseThreshold current st).
Proof.
  unfold visit.
  destruct (bool_decide (point current ∈ region st)
            || processed_at processed (point current)); [done|].
  pose proof (getCachedSimilarity_subseteq (similarityCache st) seedColor
    (getPixel (image_ gr) (p_x (point current)) (p_y (point current)))) as Hsub.
  destruct (getCachedSimilarity _ _ _) as [similarityToSeed cache].
  simpl in Hsub. destruct (PrimFloat.leb _ _); [|done].
  etrans; [exact Hsub|].
  apply (fold_cache_subseteq _ _ (enqueueNeighbor_cache _ _ _ _ _)
           (mkGrowState _ _ _ cache)).
Qed.

(** The loop body keeps the cache sound and lets a point into the region
    only if it is similar enough to the seed. *)
Lemma visit_similar gr processed seedX seedY current st :
  wf_image (image_ gr) →
  cache_ok (similarityCache st) →
  regionList st ≠ [] →
  Forall (similar_enough gr seedX seedY) (tail (regionList st)) →
  let st' :=
    visit getNeighbors gr processed (getPixel (image_ gr) seedX seedY)
          (baseAdaptiveThreshold gr seedX seedY) current st in
  cache_ok (similarityCache st') ∧ regionList st' ≠ [] ∧
  Forall (similar_enough gr seedX seedY) (tail (regionList st')).
Proof.
  intros Hwf Hok Hne Hsim. cbv zeta. unfold visit.
  destruct (bool_decide (point current ∈ region st)
            || processed_at processed (point current)); [done|].
  set (seedColor := getPixel (image_ gr) seedX seedY).
  set (cur := point current).
  set (currentColor := getPixel (image_ gr) (p_x cur) (p_y cur)).
  assert (wf_color seedColor = true) as Hseed by by apply getPixel_wf.
  assert (wf_color currentColor = true) as Hcur by by apply getPixel_wf.
  destruct (getCachedSimilarity_spec _ seedColor currentColor Hok Hseed Hcur)
    as [Hvalue Hok'].
  destruct (getCachedSimilarity (similarityCache st) seedColor currentColor)
    as [similarityToSeed cache]. simpl in Hvalue, Hok'. subst similarityToSeed.
  destruct (PrimFloat.leb _ _) eqn:Haccept; [|done].
  destruct (enqueueNeighbors_spec gr processed seedColor currentColor
              (adaptiveThresholdAt gr (baseAdaptiveThreshold gr seedX seedY) cur)
              (getNeighbors gr (p_x cur) (p_y cur) true) Hwf Hseed Hcur
              (mkGrowState ({[cur]} ∪ region st) (regionList st ++ [cur])
                           (priorityQueue st) cache) Hok')
    as (_ & Hl & Hok'' & _).
  rewrite Hl. simpl. split; [done|]. split; [by destruct (regionList st)|].
  destruct (regionList st) as [|first others]; [done|]. simpl in *.
  apply Forall_app. split; [done|]. by constructor.
Qed.

(** What the call keeps beyond [grow_invariant]: order of emission, and on a
    constructed image with a sound cache, soundness of the cache and the
    similarity of every point let in. *)
Lemma findRegion_trace gr seedX seedY processed cache fuel st :
  growLoop getNeighbors fuel gr processed (getPixel (image_ gr) seedX seedY)
           (baseAdaptiveThreshold gr seedX seedY)
           (seedState getNeighbors gr seedX seedY processed cache) = Some st →
  order_invariant getNeighbors gr (mkPoint seedX seedY) st ∧
  cache ⊆ similarityCache st ∧
  (wf_image (image_ gr) → cache_ok cache →
   cache_ok (similarityCache st) ∧
   Forall (similar_enough gr seedX seedY) (tail (regionList st))).
Proof.
  intros Hloop. split; [|split].
  - eapply (growLoop_preserves getNeighbors
              (order_invariant getNeighbors gr (mkPoint seedX seedY)));
      [|apply seedState_order|exact Hloop].
    intros st0 current rest Hinv _ Hpop. by apply visit_order.
  - eapply (growLoop_preserves getNeighbors
              (λ st, cache ⊆ similarityCache st)); [| |exact Hloop].
    + intros st0 current rest Hsub _ _. etrans; [exact Hsub|].
      apply (visit_cache_subseteq gr processed _ _ current
               (mkGrowState _ _ rest (similarityCache st0))).
    + apply (fold_cache_subseteq _ _
               (λ st0 n, proj1 (seedNeighbor_cache gr processed _ st0 n))
               (mkGrowState _ _ _ cache)).
  - intros Hwf Hok.
    cut (cache_ok (similarityCache st) ∧ regionList st ≠ [] ∧
         Forall (similar_enough gr seedX seedY) (tail (regionList st)));
      [tauto|].
    eapply (growLoop_preserves getNeighbors
              (λ st, cache_ok (similarityCache st) ∧ regionList st ≠ [] ∧
                     Forall (similar_enough gr seedX seedY)
                            (tail (regionList st)))); [| |exact Hloop].
    + intros st0 current rest (Hok0 & Hne & Hsim) _ _.
      by apply (visit_similar gr processed seedX seedY current
                  (mkGrowState _ _ rest (similarityCache st0))).
    + split; [by apply seedState_cache_ok|].
      destruct (seedState_shape getNeighbors gr seedX seedY processed cache)
        as (_ & Hl & _).
      rewrite Hl. simpl. split; [done|constructor].
Qed.

End GrowthResults.

(** ** What findRegion returns *)

Section GrowthTheorems.

Variable getNeighbors : AdaptiveRegionGrower → Z → Z → bool → list Point.
Hypothesis getNeighbors_valid :
  ∀ gr x y include8Connected p,
    p ∈ getNeighbors gr x y include8Connected → valid_point gr p.
Hypothesis getNeighbors_length :
  ∀ gr x y include8Connected,
    (length (getNeighbors gr x y include8Connected) ≤ 8)%nat.

(** X1. The sequence returned by [findRegion] starts with the seed, and
    every later point is an 8-connected neighbour (as [getNeighbors]
    enumerates them) of a point that comes before it: the region is
    connected and emitted in the order it grew. *)
Theorem findRegion_grows_in_order
    (gr : AdaptiveRegionGrower) (seedX seedY : Z)
    (processed : list (list bool)) (cache : SimilarityCache) (fuel : nat) :
  0 ≤ seedX < rg_width_ gr → 0 ≤ seedY < rg_height_ gr →
  processed_at processed (mkPoint seedX seedY) = false →
  (growFuel gr ≤ fuel)%nat →
  ∃ rest cache',
    findRegion getNeighbors fuel gr seedX seedY processed cache
      = Some (mkPoint seedX seedY :: rest, cache') ∧
    grown_in_order getNeighbors gr (mkPoint seedX seedY :: rest).
Proof.
  intros Hx Hy Hunp Hfuel.
  assert (valid_point gr (mkPoint seedX seedY)) as Hvalid
    by (apply isValidCoordinate_spec; done).
  destruct (findRegion_returns getNeighbors getNeighbors_valid
              getNeighbors_length gr seedX seedY processed cache fuel
              Hvalid Hunp Hfuel) as (st & Hloop & Hfind & _ & _).
  destruct (findRegion_trace getNeighbors gr seedX seedY processed cache fuel
              st Hloop) as (([rest Hhead] & Hord & _) & _ & _).
  exists rest, (similarityCache st). rewrite <- Hhead. done.
Qed.

(** X2. On a constructed image and a sound cache, every point of the
    returned region other than the seed passed the acceptance test: the
    similarity of its colour to the seed colour is at least its adaptive
    threshold.  In adaptive mode that threshold is the smaller
    ([std::min]) of the threshold computed at the seed and the threshold
    computed at the point; without adaptive mode it is the configured
    threshold. *)
Theorem findRegion_members_similar
    (gr : AdaptiveRegionGrower) (seedX seedY : Z)
    (processed : list (list bool)) (cache : SimilarityCache) (fuel : nat) :
  wf_image (image_ gr) → cache_ok cache →
  0 ≤ seedX < rg_width_ gr → 0 ≤ seedY < rg_height_ gr →
  processed_at processed (mkPoint seedX seedY) = false →
  (growFuel gr ≤ fuel)%nat →
  ∃ points cache',
    findRegion getNeighbors fuel gr seedX seedY processed cache
      = Some (points, cache') ∧
    Forall (similar_enough gr seedX seedY) (tail points) ∧
    (adaptiveMode_ gr = true →
     Forall (λ p, PrimFloat.leb
                    (std_min
                       (calculateAdaptiveThreshold gr seedX seedY defaultRadius)
                       (calculateAdaptiveThreshold gr (p_x p) (p_y p)
                                                   defaultRadius))
                    (colorSimilarity (getPixel (image_ gr) seedX seedY)
                       (getPixel (image_ gr) (p_x p) (p_y p))) = true)
            (tail points)) ∧
    (adaptiveMode_ gr = false →
     Forall (λ p, PrimFloat.leb (similarityThreshold_ gr)
                    (colorSimilarity (getPixel (image_ gr) seedX seedY)
                       (getPixel (image_ gr) (p_x p) (p_y p))) = true)
            (tail points)).
Proof.
  intros Hwf Hok Hx Hy Hunp Hfuel.
  assert (valid_point gr (mkPoint seedX seedY)) as Hvalid
    by (apply isValidCoordinate_spec; done).
  destruct (findRegion_returns getNeighbors getNeighbors_valid
              getNeighbors_length gr seedX seedY processed cache fuel
              Hvalid Hunp Hfuel) as (st & Hloop & Hfind & _ & _).
  destruct (findRegion_trace getNeighbors gr seedX seedY processed cache fuel
              st Hloop) as (_ & _ & Hsim).
  destruct (Hsim Hwf Hok) as [_ Hall].
  exists (regionList st), (similarityCache st).
  split; [done|]. split; [done|]. split.
  - intros Hmode. eapply Forall_impl; [exact Hall|]. intros p Hp.
    unfold similar_enough, adaptiveThresholdAt, baseAdaptiveThreshold in Hp.
    by rewrite Hmode in Hp.
  - intros Hmode. eapply Forall_impl; [exact Hall|]. intros p Hp.
    unfold similar_enough, adaptiveThresholdAt in Hp. by rewrite Hmode in Hp.
Qed.

(** X3. With a positive cap the returned region has at least one and at
    most [maxRegionSize_] points. *)
Theorem findRegion_within_positive_cap
    (gr : AdaptiveRegionGrower) (seedX seedY : Z)
    (processed : list (list bool)) (cache : SimilarityCache) (fuel : nat) :
  0 < maxRegionSize_ gr < 2 ^ 31 →
  0 ≤ seedX < rg_width_ gr → 0 ≤ seedY < rg_height_ gr →
  processed_at processed (mkPoint seedX seedY) = false →
  (growFuel gr ≤ fuel)%nat →
  ∃ points cache',
    findRegion getNeighbors fuel gr seedX seedY processed cache
      = Some (points, cache') ∧
    1 ≤ Z.of_nat (length points) ≤ maxRegionSize_ gr.
Proof.
  intros Hcap Hx Hy Hunp Hfuel.
  assert (valid_point gr (mkPoint seedX seedY)) as Hvalid
    by (apply isValidCoordinate_spec; done).
  destruct (findRegion_returns getNeighbors getNeighbors_valid
              getNeighbors_length gr seedX seedY processed cache fuel
              Hvalid Hunp Hfuel) as (st & _ & Hfind & Hinv & _).
  exists (regionList st), (similarityCache st). split; [done|].
  destruct Hinv as [_ _ Hseed _ _ _ Hlen]. split.
  - destruct (regionList st); [by apply elem_of_nil in Hseed|simpl; lia].
  - unfold to_size_t in Hlen. rewrite Z.mod_small in Hlen by lia. lia.
Qed.

(** X4. [findRegion] never removes or overwrites a cache entry: the cache
    it leaves extends the one it was given, and on a constructed image a
    sound cache stays sound, so later queries still return the metric. *)
Theorem findRegion_cache_extends
    (gr : AdaptiveRegionGrower) (seedX seedY : Z)
    (processed : list (list bool)) (cache : SimilarityCache) (fuel : nat) :
  0 ≤ seedX < rg_width_ gr → 0 ≤ seedY < rg_height_ gr →
  processed_at processed (mkPoint seedX seedY) = false →
  (growFuel gr ≤ fuel)%nat →
  ∃ points cache',
    findRegion getNeighbors fuel gr seedX seedY processed cache
      = Some (points, cache') ∧
    cache ⊆ cache' ∧
    (wf_image (image_ gr) → cache_ok cache → cache_ok cache').
Proof.
  intros Hx Hy Hunp Hfuel.
  assert (valid_point gr (mkPoint seedX seedY)) as Hvalid
    by (apply isValidCoordinate_spec; done).
  destruct (findRegion_returns getNeighbors getNeighbors_valid
              getNeighbors_length gr seedX seedY processed cache fuel
              Hvalid Hunp Hfuel) as (st & Hloop & Hfind & _ & _).
  destruct (findRegion_trace getNeighbors gr seedX seedY processed cache fuel
              st Hloop) as (_ & Hsub & Hsim).
  exists (regionList st), (similarityCache st).
  split; [done|]. split; [done|]. intros Hwf Hok. by apply Hsim.
Qed.

(** X5. The returned region never has more points than the grid has
    pixels; on a 1×1 grid it is the seed alone. *)
Theorem findRegion_within_grid_size
    (gr : AdaptiveRegionGrower) (seedX seedY : Z)
    (processed : list (list bool)) (cache : SimilarityCache) (fuel : nat) :
  0 ≤ seedX < rg_width_ gr → 0 ≤ seedY < rg_height_ gr →
  processed_at processed (mkPoint seedX seedY) = false →
  (growFuel gr ≤ fuel)%nat →
  ∃ points cache',
    findRegion getNeighbors fuel gr seedX seedY processed cache
      = Some (points, cache') ∧
    Z.of_nat (length points) ≤ rg_width_ gr * rg_height_ gr ∧
    (rg_width_ gr = 1 → rg_height_ gr = 1 → points = [mkPoint 0 0]).
Proof.
  intros Hx Hy Hunp Hfuel.
  assert (valid_point gr (mkPoint seedX seedY)) as Hvalid
    by (apply isValidCoordinate_spec; done).
  destruct (findRegion_returns getNeighbors getNeighbors_valid
              getNeighbors_length gr seedX seedY processed cache fuel
              Hvalid Hunp Hfuel) as (st & _ & Hfind & Hinv & _).
  exists (regionList st), (similarityCache st). split; [done|].
  pose proof (invariant_length_bound _ _ _ _ Hinv) as Hlen.
  split; [done|]. intros Hw Hh. rewrite Hw, Hh in Hlen.
  destruct Hinv as [_ _ Hseed Hall _ _ _].
  destruct (regionList st) as [|p [|p' others]];
    [by apply elem_of_nil in Hseed| |simpl in Hlen; lia].
  apply list_elem_of_singleton in Hseed. subst p.
  f_equal. assert (seedX = 0 ∧ seedY = 0) as [-> ->] by lia. done.
Qed.

(** X6. A negative cap never cuts growth short: converted to [size_t] it
    exceeds every region size, so the loop ends only when the queue is
    empty. *)
Theorem findRegion_negative_cap_exhausts_queue
    (gr : AdaptiveRegionGrower) (seedX seedY : Z)
    (processed : list (list bool)) (cache : SimilarityCache) (fuel : nat) :
  - 2 ^ 31 ≤ maxRegionSize_ gr < 0 →
  rg_width_ gr * rg_height_ gr < 2 ^ 31 →
  0 ≤ seedX < rg_width_ gr → 0 ≤ seedY < rg_height_ gr →
  processed_at processed (mkPoint seedX seedY) = false →
  (growFuel gr ≤ fuel)%nat →
  ∃ st,
    growLoop getNeighbors fuel gr processed (getPixel (image_ gr) seedX seedY)
             (baseAdaptiveThreshold gr seedX seedY)
             (seedState getNeighbors gr seedX seedY processed cache) = Some st ∧
    findRegion getNeighbors fuel gr seedX seedY processed cache
      = Some (regionList st, similarityCache st) ∧
    priorityQueue st = [].
Proof.
  intros Hcap Hgrid Hx Hy Hunp Hfuel.
  assert (valid_point gr (mkPoint seedX seedY)) as Hvalid
    by (apply isValidCoordinate_spec; done).
  destruct (findRegion_returns getNeighbors getNeighbors_valid
              getNeighbors_length gr seedX seedY processed cache fuel
              Hvalid Hunp Hfuel) as (st & Hloop & Hfind & Hinv & Hend).
  exists st. split; [done|]. split; [done|].
  pose proof (invariant_length_bound _ _ _ _ Hinv) as Hlen.
  rewrite <- (invariant_size _ _ _ _ Hinv) in Hlen.
  unfold growCondition in Hend. apply andb_false_iff in Hend as [Hq|Hsize].
  - by destruct (priorityQueue st).
  - unfold to_size_t in Hsize.
    replace (maxRegionSize_ gr mod 2 ^ 64) with (maxRegionSize_ gr + 2 ^ 64)
      in Hsize; [lia|].
    apply (Z.mod_unique _ _ (-1)); lia.
Qed.

End GrowthTheorems.

Lemma findRegion_grows_in_order_witness :
  ∃ rest cache',
    findRegion gridNeighbors 200 (twoHalvesGrower 16) 2 2 (unprocessed 4 4)
               similarityCache_new
      = Some (mkPoint 2 2 :: rest, cache') ∧
    grown_in_order gridNeighbors (twoHalvesGrower 16) (mkPoint 2 2 :: rest).
Proof.
  apply (findRegion_grows_in_order gridNeighbors gridNeighbors_valid
           gridNeighbors_length (twoHalvesGrower 16) 2 2).
  - simpl; lia.
  - simpl; lia.
  - reflexivity.
  - vm_compute. lia.
Defined.

Lemma findRegion_members_similar_witness :
  ∃ points cache',
    findRegion gridNeighbors 200 (twoHalvesGrower 16) 1 3 (unprocessed 4 4)
               similarityCache_new
      = Some (points, cache') ∧
    Forall (similar_enough (twoHalvesGrower 16) 1 3) (tail points) ∧
    Forall (λ p, PrimFloat.leb
                   (std_min
                      (calculateAdaptiveThreshold (twoHalvesGrower 16) 1 3
                                                  defaultRadius)
                      (calculateAdaptiveThreshold (twoHalvesGrower 16)
                                                  (p_x p) (p_y p) defaultRadius))
                   (colorSimilarity
                      (getPixel (image_ (twoHalvesGrower 16)) 1 3)
                      (getPixel (image_ (twoHalvesGrower 16)) (p_x p) (p_y p)))
                 = true)
           (tail points).
Proof.
  destruct (findRegion_members_similar gridNeighbors gridNeighbors_valid
              gridNeighbors_length (twoHalvesGrower 16) 1 3
              (unprocessed 4 4) similarityCache_new 200)
    as (points & cache' & Hfind & Hsim & Hmin & _).
  - exact twoHalves_wf.
  - exact empty_cache_ok.
  - simpl; lia.
  - simpl; lia.
  - reflexivity.
  - vm_compute. lia.
  - exists points, cache'. split; [assumption|]. split; [assumption|].
    apply Hmin. reflexivity.
Defined.

Lemma findRegion_within_positive_cap_witness :
  ∃ points cache',
    findRegion gridNeighbors 200 (twoHalvesGrower 3) 0 0 (unprocessed 4 4)
               similarityCache_new
      = Some (points, cache') ∧
    1 ≤ Z.of_nat (length points) ≤ 3.
Proof.
  apply (findRegion_within_positive_cap gridNeighbors gridNeighbors_valid
           gridNeighbors_length (twoHalvesGrower 3) 0 0).
  - simpl; lia.
  - simpl; lia.
  - simpl; lia.
  - reflexivity.
  - vm_compute. lia.
Defined.

Lemma findRegion_cache_extends_witness :
  let cache := (getCachedSimilarity similarityCache_new red blue).2 in
  ∃ points cache',
    findRegion gridNeighbors 200 (twoHalvesGrower 16) 0 0 (unprocessed 4 4)
               cache
      = Some (points, cache') ∧
    cache ⊆ cache'.
Proof.
  intros cache.
  destruct (findRegion_cache_extends gridNeighbors gridNeighbors_valid
              gridNeighbors_length (twoHalvesGrower 16) 0 0
              (unprocessed 4 4) cache 200)
    as (points & cache' & Hfind & Hsub & _).
  - simpl; lia.
  - simpl; lia.
  - reflexivity.
  - vm_compute. lia.
  - exists points, cache'. split; assumption.
Defined.

Lemma findRegion_within_grid_size_witness :
  ∃ points cache',
    findRegion gridNeighbors 200 (mkGrower whitePixel 0.9%float 5 1 1 true)
               0 0 (unprocessed 1 1) similarityCache_new
      = Some (points, cache') ∧
    points = [mkPoint 0 0].
Proof.
  destruct (findRegion_within_grid_size gridNeighbors gridNeighbors_valid
              gridNeighbors_length (mkGrower whitePixel 0.9%float 5 1 1 true)
              0 0 (unprocessed 1 1) similarityCache_new 200)
    as (points & cache' & Hfind & _ & Hone).
  - simpl; lia.
  - simpl; lia.
  - reflexivity.
  - vm_compute. lia.
  - exists points, cache'. split; [exact Hfind|]. by apply Hone.
Defined.

Lemma findRegion_negative_cap_exhausts_queue_witness :
  ∃ st,
    findRegion gridNeighbors 200 (twoHalvesGrower (-1)) 0 0 (unprocessed 4 4)
               similarityCache_new
      = Some (regionList st, similarityCache st) ∧
    priorityQueue st = [].
Proof.
  destruct (findRegion_negative_cap_exhausts_queue gridNeighbors
              gridNeighbors_valid gridNeighbors_length (twoHalvesGrower (-1))
              0 0 (unprocessed 4 4) similarityCache_new 200)
    as (st & _ & Hfind & Hq).
  - simpl; lia.
  - simpl; lia.
  - simpl; lia.
  - simpl; lia.
  - reflexivity.
  - vm_compute. lia.
  - exists st. split; assumption.
Defined.

(** ** The cache is transparent *)

Lemma getCachedSimilarity_hit cache c1 c2 stored :
  cache !! cacheKey (normalizePair c1 c2).1 (normalizePair c1 c2).2
    = Some stored →
  getCachedSimilarity cache c1 c2 = (stored, cache).
Proof.
  unfold getCachedSimilarity.
  destruct (normalizePair c1 c2) as [first second]; simpl.
  by intros ->.
Qed.

Lemma getCachedSimilarity_miss cache c1 c2 :
  cache !! cacheKey (normalizePair c1 c2).1 (normalizePair c1 c2).2 = None →
  getCachedSimilarity cache c1 c2
  = (colorSimilarity c1 c2,
     <[cacheKey (normalizePair c1 c2).1 (normalizePair c1 c2).2
         := colorSimilarity c1 c2]> cache).
Proof.
  unfold getCachedSimilarity.
  destruct (normalizePair c1 c2) as [first second]; simpl.
  by intros ->.
Qed.

(** X7. [getCachedSimilarity] memoises: the cache after a query extends the
    cache before it by at most one entry, holds the returned value under
    the key of the normalised pair, and a stored value is returned as it is.
    Repeating the query, with the arguments in either order, returns the
    same value and leaves the cache unchanged. *)
Theorem getCachedSimilarity_memoizes (cache : SimilarityCache) (c1 c2 : Color) :
  let key := cacheKey (normalizePair c1 c2).1 (normalizePair c1 c2).2 in
  let value := (getCachedSimilarity cache c1 c2).1 in
  let cache' := (getCachedSimilarity cache c1 c2).2 in
  cache ⊆ cache' ∧
  (size cache' ≤ S (size cache))%nat ∧
  cache' !! key = Some value ∧
  (∀ stored, cache !! key = Some stored → value = stored ∧ cache' = cache) ∧
  getCachedSimilarity cache' c1 c2 = (value, cache') ∧
  getCachedSimilarity cache' c2 c1 = (value, cache').
Proof.
  intros key value cache'.
  assert (cache' !! key = Some value) as Hstored.
  { subst value cache'. destruct (cache !! key) as [stored|] eqn:Hl.
    - by rewrite (getCachedSimilarity_hit _ _ _ _ Hl).
    - rewrite (getCachedSimilarity_miss _ _ _ Hl). simpl.
      apply lookup_insert_eq. }
  split; [apply getCachedSimilarity_subseteq|]. split.
  { subst cache'. destruct (cache !! key) as [stored|] eqn:Hl.
    - rewrite (getCachedSimilarity_hit _ _ _ _ Hl). simpl. lia.
    - rewrite (getCachedSimilarity_miss _ _ _ Hl). simpl.
      by rewrite map_size_insert_None. }
  split; [done|]. split.
  { intros stored Hl. subst value cache'.
    by rewrite (getCachedSimilarity_hit _ _ _ _ Hl). }
  split.
  - by apply getCachedSimilarity_hit.
  - apply getCachedSimilarity_hit. by rewrite <- (normalizePair_sym c1 c2).
Qed.

Lemma getCachedSimilarity_memoizes_witness :
  let cache := (getCachedSimilarity ∅ red blue).2 in
  (getCachedSimilarity cache red blue).2 = cache.
Proof.
  intros cache.
  destruct (getCachedSimilarity_memoizes ∅ red blue)
    as (_ & _ & Hstored & _).
  destruct (getCachedSimilarity_memoizes cache red blue)
    as (_ & _ & _ & Hhit & _).
  exact (proj2 (Hhit _ Hstored)).
Defined.

Lemma seedNeighbor_same gr processed seedColor st1 st2 n :
  wf_image (image_ gr) → wf_color seedColor = true →
  cache_ok (similarityCache st1) → cache_ok (similarityCache st2) →
  same_growth st1 st2 →
  same_growth (seedNeighbor gr processed seedColor st1 n)
              (seedNeighbor gr processed seedColor st2 n).
Proof.
  intros Hwf Hseed Hok1 Hok2 (Hr & Hl & Hq). unfold seedNeighbor.
  destruct (processed_at processed n); [done|].
  pose proof (getPixel_wf (image_ gr) (p_x n) (p_y n) Hwf) as Hn.
  destruct (getCachedSimilarity_spec _ seedColor _ Hok1 Hseed Hn) as [Hv1 _].
  destruct (getCachedSimilarity_spec _ seedColor _ Hok2 Hseed Hn) as [Hv2 _].
  destruct (getCachedSimilarity (similarityCache st1) _ _) as [v1 cache1].
  destruct (getCachedSimilarity (similarityCache st2) _ _) as [v2 cache2].
  simpl in *. subst v1 v2. repeat split; simpl; congruence.
Qed.

Lemma seedState_same getNeighbors gr seedX seedY processed cache1 cache2 :
  wf_image (image_ gr) → cache_ok cache1 → cache_ok cache2 →
  same_growth (seedState getNeighbors gr seedX seedY processed cache1)
              (seedState getNeighbors gr seedX seedY processed cache2).
Proof.
  intros Hwf Hok1 Hok2. unfold seedState.
  assert (wf_color (getPixel (image_ gr) seedX seedY) = true) as Hseed
    by by apply getPixel_wf.
  set (start1 := mkGrowState _ _ _ cache1).
  set (start2 := mkGrowState _ _ _ cache2).
  assert (same_growth start1 start2) as Hsame by done.
  assert (cache_ok (similarityCache start1)) as Hs1 by done.
  assert (cache_ok (similarityCache start2)) as Hs2 by done.
  clearbody start1 start2. revert start1 start2 Hsame Hs1 Hs2.
  induction (getNeighbors gr seedX seedY true) as [|n ns IH];
    intros st1 st2 Hsame Hs1 Hs2; simpl; [done|].
  apply IH.
  - by apply seedNeighbor_same.
  - by apply seedNeighbor_cache.
  - by apply seedNeighbor_cache.
Qed.

Section CacheTransparency.

Variable getNeighbors : AdaptiveRegionGrower → Z → Z → bool → list Point.

Lemma visit_same gr processed seedX seedY current st1 st2 :
  wf_image (image_ gr) →
  cache_ok (similarityCache st1) → cache_ok (similarityCache st2) →
  same_growth st1 st2 →
  let visit' :=
    visit getNeighbors gr processed (getPixel (image_ gr) seedX seedY)
          (baseAdaptiveThreshold gr seedX seedY) current in
  same_growth (visit' st1) (visit' st2) ∧
  cache_ok (similarityCache (visit' st1)) ∧
  cache_ok (similarityCache (visit' st2)).
Proof.
  intros Hwf Hok1 Hok2 (Hr & Hl & Hq).
  destruct st1 as [members list queue cache1],
    st2 as [members2 list2 queue2 cache2].
  simpl in *. subst members2 list2 queue2. cbv zeta. unfold visit. simpl.
  destruct (bool_decide (point current ∈ members)
            || processed_at processed (point current)); [done|].
  set (seedColor := getPixel (image_ gr) seedX seedY).
  set (cur := point current).
  set (currentColor := getPixel (image_ gr) (p_x cur) (p_y cur)).
  assert (wf_color seedColor = true) as Hseed by by apply getPixel_wf.
  assert (wf_color currentColor = true) as Hcur by by apply getPixel_wf.
  destruct (getCachedSimilarity_spec _ seedColor currentColor Hok1 Hseed Hcur)
    as [Hv1 Hok1'].
  destruct (getCachedSimilarity_spec _ seedColor currentColor Hok2 Hseed Hcur)
    as [Hv2 Hok2'].
  destruct (getCachedSimilarity cache1 _ _) as [v1 cache1'].
  destruct (getCachedSimilarity cache2 _ _) as [v2 cache2'].
  simpl in Hv1, Hv2, Hok1', Hok2'. subst v1 v2.
  destruct (PrimFloat.leb _ _); [|done].
  set (threshold :=
         adaptiveThresholdAt gr (baseAdaptiveThreshold gr seedX seedY) cur).
  destruct (enqueueNeighbors_spec gr processed seedColor currentColor threshold
              (getNeighbors gr (p_x cur) (p_y cur) true) Hwf Hseed Hcur
              (mkGrowState ({[cur]} ∪ members) (list ++ [cur]) queue cache1')
              Hok1')
    as (Hr1 & Hl1 & Hok1'' & Hq1).
  destruct (enqueueNeighbors_spec gr processed seedColor currentColor threshold
              (getNeighbors gr (p_x cur) (p_y cur) true) Hwf Hseed Hcur
              (mkGrowState ({[cur]} ∪ members) (list ++ [cur]) queue cache2')
              Hok2')
    as (Hr2 & Hl2 & Hok2'' & Hq2).
  split; [|split; [exact Hok1''|exact Hok2'']].
  unfold same_growth. by rewrite Hr1, Hr2, Hl1, Hl2, Hq1, Hq2.
Qed.

Lemma growLoop_same gr processed seedX seedY fuel :
  wf_image (image_ gr) →
  ∀ st1 st2 st1',
    cache_ok (similarityCache st1) → cache_ok (similarityCache st2) →
    same_growth st1 st2 →
    growLoop getNeighbors fuel gr processed (getPixel (image_ gr) seedX seedY)
             (baseAdaptiveThreshold gr seedX seedY) st1 = Some st1' →
    ∃ st2',
      growLoop getNeighbors fuel gr processed
               (getPixel (image_ gr) seedX seedY)
               (baseAdaptiveThreshold gr seedX seedY) st2 = Some st2' ∧
      same_growth st1' st2'.
Proof.
  intros Hwf. induction fuel as [|fuel IH];
    intros st1 st2 st1' Hok1 Hok2 Hsame; simpl.
  - assert (growCondition gr st2 = growCondition gr st1) as ->
      by (destruct Hsame as (Hr & _ & Hq); unfold growCondition;
          by rewrite Hr, Hq).
    destruct (growCondition gr st1); [done|]. intros [= <-]. by exists st2.
  - assert (growCondition gr st2 = growCondition gr st1) as ->
      by (destruct Hsame as (Hr & _ & Hq); unfold growCondition;
          by rewrite Hr, Hq).
    destruct (growCondition gr st1); [|intros [= <-]; by exists st2].
    destruct Hsame as (Hr & Hl & Hq). rewrite <- Hq.
    destruct (pq_pop (priorityQueue st1)) as [[current rest]|];
      [|intros [= <-]; by exists st2].
    destruct (visit_same gr processed seedX seedY current
                (mkGrowState (region st1) (regionList st1) rest
                             (similarityCache st1))
                (mkGrowState (region st2) (regionList st2) rest
                             (similarityCache st2)) Hwf Hok1 Hok2)
      as (Hsame' & Hok1' & Hok2'); [by rewrite Hr, Hl|].
    by apply IH.
Qed.

(** X8. The cache does not change what [findRegion] returns: on a
    constructed image, started from any two sound caches (for one, the empty
    cache of a new grower), the call returns the same point sequence. *)
Theorem findRegion_cache_transparent
    (gr : AdaptiveRegionGrower) (seedX seedY : Z)
    (processed : list (list bool)) (cache1 cache2 : SimilarityCache)
    (fuel : nat) (points : list Point) (cache1' : SimilarityCache) :
  wf_image (image_ gr) → cache_ok cache1 → cache_ok cache2 →
  findRegion getNeighbors fuel gr seedX seedY processed cache1
    = Some (points, cache1') →
  ∃ cache2',
    findRegion getNeighbors fuel gr seedX seedY processed cache2
      = Some (points, cache2').
Proof.
  intros Hwf Hok1 Hok2. unfold findRegion.
  destruct (growLoop _ _ _ _ _ _ (seedState _ _ _ _ _ cache1)) as [st1|] eqn:H1;
    [|done].
  intros [= <- <-].
  destruct (growLoop_same gr processed seedX seedY fuel Hwf _
              (seedState getNeighbors gr seedX seedY processed cache2) _
              (seedState_cache_ok _ _ _ _ _ _ Hwf Hok1)
              (seedState_cache_ok _ _ _ _ _ _ Hwf Hok2)
              (seedState_same _ _ _ _ _ _ _ Hwf Hok1 Hok2) H1)
    as (st2 & -> & (_ & Hl & _)).
  exists (similarityCache st2). by rewrite Hl.
Qed.

End CacheTransparency.

Lemma findRegion_cache_transparent_witness :
  ∃ cache',
    findRegion gridNeighbors 200 (twoHalvesGrower 16) 0 0 (unprocessed 4 4)
               (getCachedSimilarity similarityCache_new red blue).2
      = Some (leftHalf, cache').
Proof.
  eapply (findRegion_cache_transparent gridNeighbors (twoHalvesGrower 16) 0 0
            (unprocessed 4 4) similarityCache_new).
  - exact twoHalves_wf.
  - exact empty_cache_ok.
  - apply getCachedSimilarity_spec; [exact empty_cache_ok|reflexivity..].
  - vm_compute. reflexivity.
Defined.

(** ** Construction and writes of the pixel store *)

Lemma getPixel_replicate w h n x y :
  getPixel (mkImage w h (replicate n Color_default)) x y = Color_default.
Proof.
  unfold getPixel. destruct (out_of_bounds _ x y); [done|]. simpl.
  destruct (replicate n Color_default !! _) as [c|] eqn:Hl; [|done].
  by apply lookup_replicate in Hl as [-> _].
Qed.

(** X9. [Image(width, height)] fails when the [int] product
    [width * height] is negative, by overflow or not (the vector of the
    member initialiser cannot be that long), and, the product being
    representable, fails exactly when a dimension is not positive.  When it
    succeeds on a representable product it yields a constructed image of
    those dimensions, with [width * height] pixels, every one of which reads
    black.  [createSimilar] of a constructed image yields such an all-black
    image of the same dimensions, whatever the pixels of the original. *)
Theorem Image_new_black (width height : Z) :
  (to_int32 (width * height) < 0 → Image_new width height = None) ∧
  (- 2 ^ 31 ≤ width * height < 2 ^ 31 →
   (Image_new width height = None ↔ width ≤ 0 ∨ height ≤ 0)) ∧
  (∀ img, width * height < 2 ^ 31 → Image_new width height = Some img →
     width_ img = width ∧ height_ img = height ∧
     Z.of_nat (length (pixels_ img)) = width * height ∧
     wf_image img ∧
     ∀ x y, getPixel img x y = Color_default) ∧
  (∀ original, wf_image original →
     ∃ img, createSimilar original = Some img ∧
            width_ img = width_ original ∧ height_ img = height_ original ∧
            wf_image img ∧ ∀ x y, getPixel img x y = Color_default).
Proof.
  assert (∀ w h, 0 < w → 0 < h → w * h < 2 ^ 31 →
            Image_new w h
            = Some (mkImage w h (replicate (Z.to_nat (w * h)) Color_default)))
    as Hnew.
  { intros w h Hw Hh Hsz. unfold Image_new.
    assert (0 < w * h) by (apply Z.mul_pos_pos; lia).
    rewrite to_int32_small by lia. unfold to_size_t.
    rewrite (Z.mod_small (w * h)) by lia.
    replace (w * h <? 0) with false by lia.
    by replace ((w <=? 0) || (h <=? 0)) with false by lia. }
  assert (∀ w h, 0 < w → 0 < h → w * h < 2 ^ 31 →
            wf_image (mkImage w h (replicate (Z.to_nat (w * h)) Color_default)))
    as Hwf.
  { intros w h Hw Hh Hsz. unfold wf_image; simpl.
    rewrite length_replicate, Z2Nat.id by nia.
    repeat split; try done. by apply Forall_replicate. }
  assert (∀ w h, Image_new w h ≠ None → 0 < w ∧ 0 < h) as Hpos.
  { intros w h. unfold Image_new.
    destruct (to_int32 (w * h) <? 0); [done|].
    destruct ((w <=? 0) || (h <=? 0)) eqn:Hb; [done|]. lia. }
  split; [|split; [|split]].
  - intros Hneg. unfold Image_new.
    by replace (to_int32 (width * height) <? 0) with true by lia.
  - intros Hrange. split.
    + intros Hnone.
      destruct (decide (0 < width ∧ 0 < height)) as [[Hw Hh]|Hno]; [|lia].
      rewrite Hnew in Hnone by lia. done.
    + intros Hdim.
      destruct (Image_new width height) eqn:Himg; [|done].
      assert (Image_new width height ≠ None) as Hsome by by rewrite Himg.
      apply Hpos in Hsome. lia.
  - intros img Hsz Himg.
    assert (Image_new width height ≠ None) as [Hw Hh]%Hpos by by rewrite Himg.
    rewrite Hnew in Himg by done. injection Himg as <-. simpl.
    split; [done|]. split; [done|].
    split; [rewrite length_replicate; nia|].
    split; [by apply Hwf|apply getPixel_replicate].
  - intros original (Hw & Hh & Hsz & _). unfold createSimilar.
    rewrite Hnew by done.
    eexists. split; [done|]. simpl. split; [done|]. split; [done|].
    split; [by apply Hwf|apply getPixel_replicate].
Qed.

Lemma Image_new_black_witness :
  Image_new 46341 46341 = None ∧
  (Image_new 3 0 = None ↔ 3 ≤ 0 ∨ 0 ≤ 0) ∧
  ∃ img, Image_new 3 2 = Some img ∧ getPixel img 2 1 = Color_default.
Proof.
  split; [|split].
  - destruct (Image_new_black 46341 46341) as (Hoverflow & _).
    apply Hoverflow. reflexivity.
  - destruct (Image_new_black 3 0) as (_ & Hfails & _).
    apply Hfails. lia.
  - destruct (Image_new_black 3 2) as (_ & _ & Hsome & _).
    exists (mkImage 3 2 (replicate 6 Color_default)).
    split; [reflexivity|].
    destruct (Hsome (mkImage 3 2 (replicate 6 Color_default)))
      as (_ & _ & _ & _ & Hblack); [reflexivity..|].
    apply Hblack.
Defined.

(** X10. Writes compose as writes to an array: a second write to the same
    coordinate replaces the first, writes to different coordinates commute,
    writing back the colour just read changes nothing, and a write of an
    RGB byte triple keeps a constructed image constructed. *)
Theorem setPixel_compose (img : Image) (x y x' y' : Z) (c c' : Color) :
  setPixel (setPixel img x y c) x y c' = setPixel img x y c' ∧
  ((x, y) ≠ (x', y') →
   setPixel (setPixel img x y c) x' y' c'
   = setPixel (setPixel img x' y' c') x y c) ∧
  (wf_image img → setPixel img x y (getPixel img x y) = img) ∧
  (wf_image img → wf_color c = true → wf_image (setPixel img x y c)).
Proof.
  assert (∀ a b col, out_of_bounds (setPixel img a b col) = out_of_bounds img)
    as Hsame.
  { intros a b col. unfold setPixel. by destruct (out_of_bounds img a b). }
  split; [|split; [|split]].
  - unfold setPixel at 1. rewrite Hsame. unfold setPixel.
    destruct (out_of_bounds img x y) eqn:Hb; [done|]. simpl.
    unfold getIndex; simpl. by rewrite list_insert_insert_eq.
  - intros Hne. unfold setPixel at 1 3. rewrite !Hsame.
    destruct (out_of_bounds img x' y') eqn:Hb', (out_of_bounds img x y) eqn:Hb;
      unfold setPixel; rewrite ?Hb, ?Hb'; try done.
    simpl. unfold getIndex; simpl. f_equal.
    apply list_insert_insert_ne. intros Heq.
    apply out_of_bounds_false in Hb, Hb'.
    apply (getIndex_inj img x' y' x y) in Heq; [|done..].
    destruct Heq; congruence.
  - intros Hwf. unfold setPixel.
    destruct (out_of_bounds img x y) eqn:Hb; [done|].
    apply out_of_bounds_false in Hb.
    rewrite list_insert_id by by apply getPixel_stored. by destruct img.
  - apply setPixel_wf.
Qed.

Lemma setPixel_compose_witness :
  setPixel (setPixel quad 0 0 red) 1 1 blue
  = setPixel (setPixel quad 1 1 blue) 0 0 red.
Proof.
  destruct (setPixel_compose quad 0 0 1 1 red blue) as (_ & Hcomm & _).
  apply Hcomm. discriminate.
Defined.

(** ** Averages *)

Lemma channelSum_Permutation channel (colors colors' : list Color) :
  colors ≡ₚ colors' → channelSum channel colors = channelSum channel colors'.
Proof.
  induction 1 as [|c l l' _ IH|c c' l|l l' l'' _ IH _ IH']; simpl;
    [done|by rewrite IH|lia|congruence].
Qed.

(** X11. The average colour depends on the points only up to their order:
    permuting the list does not change the result, also when the sums
    wrap. *)
Theorem calculateAverageColor_Permutation
    (points points' : list Point) (image : Image) :
  points ≡ₚ points' →
  calculateAverageColor points image = calculateAverageColor points' image.
Proof.
  intros Hperm.
  destruct points as [|p points].
  { apply Permutation_nil_l in Hperm. by subst. }
  assert (points' ≠ []) as Hne'.
  { intros ->. by apply Permutation_nil_r in Hperm. }
  rewrite !calculateAverageColor_closed by done. cbv zeta.
  assert (memberPixels image (p :: points) ≡ₚ memberPixels image points')
    as Hpx by (unfold memberPixels; by apply Permutation_map).
  rewrite !(channelSum_Permutation _ _ _ Hpx).
  by rewrite (Permutation_length Hperm).
Qed.

Lemma calculateAverageColor_Permutation_witness :
  calculateAverageColor [mkPoint 0 0; mkPoint 1 0; mkPoint 1 1] quad
  = calculateAverageColor [mkPoint 1 1; mkPoint 0 0; mkPoint 1 0] quad.
Proof.
  apply calculateAverageColor_Permutation.
  apply (Permutation_cons_append [mkPoint 1 0; mkPoint 1 1] (mkPoint 0 0))
    || (etrans; [apply Permutation_cons_append|]; simpl;
        etrans; [apply Permutation_cons_append|]; reflexivity).
Defined.

Lemma channelSum_uniform channel c colors :
  Forall (λ c', c' = c) colors →
  channelSum channel colors = Z.of_nat (length colors) * channel c.
Proof.
  induction 1 as [|c' colors -> _ IH]; simpl; [done|]. rewrite IH. lia.
Qed.

Lemma averageOf_uniform c colors :
  wf_color c = true → colors ≠ [] →
  Z.of_nat (length colors) ≤ maxExactCount →
  Forall (λ c', c' = c) colors →
  averageOf colors = c.
Proof.
  intros Hc Hne Hlen Hall.
  rewrite averageOf_exact; [|done..|].
  - unfold meanColor. rewrite !(channelSum_uniform _ c) by done.
    assert (0 < Z.of_nat (length colors)) by (destruct colors; [done|simpl; lia]).
    rewrite !(Z.mul_comm (Z.of_nat _)), !Z.div_mul by lia. by destruct c.
  - eapply Forall_impl; [exact Hall|]. by intros ? ->.
Qed.

(** X12. The average colour of a non-empty region of at most 16,843,009
    points whose pixels all have one colour is that colour; in particular
    the average over a single point is the pixel read there. *)
Theorem calculateAverageColor_uniform
    (points : list Point) (image : Image) (c : Color) :
  wf_color c = true → points ≠ [] →
  Z.of_nat (length points) ≤ maxExactCount →
  Forall (λ p, getPixel image (p_x p) (p_y p) = c) points →
  calculateAverageColor points image = c.
Proof.
  intros Hc Hne Hlen Hall.
  rewrite calculateAverageColor_closed by done.
  rewrite <- (averageOf_uniform c (memberPixels image points)); try done.
  - unfold averageOf. by rewrite accumulate_fold_0, memberPixels_length.
  - by destruct points.
  - by rewrite memberPixels_length.
  - unfold memberPixels. by apply Forall_map.
Qed.

Lemma calculateAverageColor_uniform_witness :
  calculateAverageColor [mkPoint 2 0; mkPoint 3 3; mkPoint 2 1] twoHalves = blue.
Proof.
  apply calculateAverageColor_uniform.
  - reflexivity.
  - discriminate.
  - unfold maxExactCount; simpl; lia.
  - repeat constructor.
Defined.

(** ** Comparison operators and hashes *)

(** X13. [Color::operator==] decides equality of colours and
    [Color::operator<] is the strict lexicographic order by [(r, g, b)]:
    irreflexive, transitive, and total in that exactly one of [a < b],
    [a == b], [b < a] holds.  The ordering test written out in
    [getCachedSimilarity] is this operator. *)
Theorem Color_order (a b c : Color) :
  (Color_eqb a b = true ↔ a = b) ∧
  Color_ltb a a = false ∧
  (Color_ltb a b = true → Color_ltb b c = true → Color_ltb a c = true) ∧
  (Color_ltb a b = true ∧ Color_eqb a b = false ∧ Color_ltb b a = false ∨
   Color_ltb a b = false ∧ Color_eqb a b = true ∧ Color_ltb b a = false ∨
   Color_ltb a b = false ∧ Color_eqb a b = false ∧ Color_ltb b a = true) ∧
  Color_precedes a b = Color_ltb a b.
Proof.
  destruct a as [r1 g1 b1], b as [r2 g2 b2], c as [r3 g3 b3].
  unfold Color_eqb, Color_ltb, Color_precedes; simpl.
  split; [|split; [|split; [|split]]].
  - split; [intros H; f_equal; lia|intros [= -> -> ->]; lia].
  - rewrite !Z.eqb_refl; simpl. lia.
  - destruct (r1 =? r2) eqn:?, (r2 =? r3) eqn:?, (r1 =? r3) eqn:?,
      (g1 =? g2) eqn:?, (g2 =? g3) eqn:?, (g1 =? g3) eqn:?; simpl; lia.
  - destruct (r1 =? r2) eqn:?, (r2 =? r1) eqn:?, (g1 =? g2) eqn:?,
      (g2 =? g1) eqn:?, (b1 =? b2) eqn:?; simpl; lia.
  - destruct (r1 =? r2) eqn:?, (g1 =? g2) eqn:?; simpl; lia.
Qed.

Lemma Color_order_witness :
  Color_ltb blue white = true.
Proof.
  destruct (Color_order blue red white) as (_ & _ & Htrans & _).
  apply Htrans; reflexivity.
Defined.

(** X14. [Point::operator==] decides equality of points and
    [Point::operator<] is the strict lexicographic order by [(x, y)]:
    irreflexive, transitive, and exactly one of [a < b], [a == b], [b < a]
    holds. *)
Theorem Point_order (a b c : Point) :
  (Point_eqb a b = true ↔ a = b) ∧
  Point_ltb a a = false ∧
  (Point_ltb a b = true → Point_ltb b c = true → Point_ltb a c = true) ∧
  (Point_ltb a b = true ∧ Point_eqb a b = false ∧ Point_ltb b a = false ∨
   Point_ltb a b = false ∧ Point_eqb a b = true ∧ Point_ltb b a = false ∨
   Point_ltb a b = false ∧ Point_eqb a b = false ∧ Point_ltb b a = true).
Proof.
  destruct a as [x1 y1], b as [x2 y2], c as [x3 y3].
  unfold Point_eqb, Point_ltb; simpl.
  split; [|split; [|split]].
  - split; [intros H; f_equal; lia|intros [= -> ->]; lia].
  - rewrite Z.eqb_refl; simpl. lia.
  - destruct (x1 =? x2) eqn:?, (x2 =? x3) eqn:?, (x1 =? x3) eqn:?; simpl; lia.
  - destruct (x1 =? x2) eqn:?, (x2 =? x1) eqn:?, (y1 =? y2) eqn:?; simpl; lia.
Qed.

Lemma Point_order_witness :
  Point_ltb (mkPoint 0 5) (mkPoint 2 0) = true.
Proof.
  destruct (Point_order (mkPoint 0 5) (mkPoint 1 9) (mkPoint 2 0))
    as (_ & _ & Htrans & _).
  apply Htrans; reflexivity.
Defined.

Lemma lor_disjoint (hi lo k : Z) :
  0 ≤ lo < 2 ^ k → 0 ≤ k → Z.lor (hi * 2 ^ k) lo = hi * 2 ^ k + lo.
Proof.
  intros Hlo Hk.
  assert (Z.land (hi * 2 ^ k) lo = 0) as Hland.
  { apply Z.bits_inj'. intros n Hn. rewrite Z.land_spec, Z.bits_0.
    destruct (decide (n < k)) as [Hlt|Hge].
    - by rewrite Z.mul_pow2_bits_low by lia.
    - replace (Z.testbit lo n) with false; [apply andb_false_r|].
      symmetry. destruct (decide (lo = 0)) as [->|Hnz]; [apply Z.bits_0|].
      apply Z.bits_above_log2; [lia|].
      assert (Z.log2 lo < k) by (apply Z.log2_lt_pow2; lia). lia. }
  by rewrite <- Z.lxor_lor, <- Z.add_nocarry_lxor.
Qed.

Lemma Color_hash_sum c :
  wf_color c = true →
  Color_hash c = c_r c * 65536 + c_g c * 256 + c_b c.
Proof.
  intros (Hr & Hg & Hb)%wf_color_bounds. unfold Color_hash.
  rewrite !Z.shiftl_mul_pow2 by lia.
  rewrite (lor_disjoint (c_r c) (c_g c * 2 ^ 8) 16) by lia.
  replace (c_r c * 2 ^ 16 + c_g c * 2 ^ 8)
    with ((c_r c * 256 + c_g c) * 2 ^ 8) by lia.
  rewrite (lor_disjoint _ (c_b c) 8) by lia. lia.
Qed.

(** X15. On RGB byte triples [Color::hash] is a perfect hash: it is the
    24-bit number [r·65536 + g·256 + b], so colours with equal hashes are
    equal and the channels can be read back from the hash. *)
Theorem Color_hash_injective (a b : Color) :
  wf_color a = true → wf_color b = true →
  0 ≤ Color_hash a < 2 ^ 24 ∧
  a = mkColor (Z.shiftr (Color_hash a) 16)
              (Z.land (Z.shiftr (Color_hash a) 8) 255)
              (Z.land (Color_hash a) 255) ∧
  (Color_hash a = Color_hash b → a = b).
Proof.
  intros Ha Hb.
  pose proof (Color_hash_sum a Ha) as Hsa.
  pose proof (Color_hash_sum b Hb) as Hsb.
  apply wf_color_bounds in Ha as (Hr & Hg & Hbl).
  apply wf_color_bounds in Hb as (Hr' & Hg' & Hbl').
  split; [lia|]. split.
  - rewrite !Z.shiftr_div_pow2 by lia.
    change 255 with (Z.ones 8). rewrite !Z.land_ones by lia. rewrite Hsa.
    change (2 ^ 16) with 65536. change (2 ^ 8) with 256.
    destruct a as [r g bl]; simpl in *. f_equal.
    + apply (Z.div_unique _ _ _ (g * 256 + bl)); lia.
    + replace ((r * 65536 + g * 256 + bl) / 256) with (r * 256 + g)
        by (apply (Z.div_unique _ _ _ bl); lia).
      apply (Z.mod_unique _ _ r); lia.
    + apply (Z.mod_unique _ _ (r * 256 + g)); lia.
  - intros Heq. rewrite Hsa, Hsb in Heq.
    destruct a as [r g bl], b as [r' g' bl']; simpl in *. f_equal; lia.
Qed.

Lemma Color_hash_injective_witness :
  Color_hash red = 16711680 ∧
  red = mkColor (Z.shiftr (Color_hash red) 16)
                (Z.land (Z.shiftr (Color_hash red) 8) 255)
                (Z.land (Color_hash red) 255).
Proof.
  destruct (Color_hash_injective red blue) as (_ & Hdecode & _);
    [reflexivity..|].
  split; [reflexivity|exact Hdecode].
Defined.

(** ** colorDistance *)

Lemma weightedSquare_sym weight a b :
  weight = 0.299%float ∨ weight = 0.587%float ∨ weight = 0.114%float →
  is_uint8 a = true → is_uint8 b = true →
  weightedSquare weight a b = weightedSquare weight b a.
Proof.
  intros Hw Ha Hb. apply Leibniz.eqb_spec. revert a b Ha Hb.
  destruct Hw as [->|[->| ->]];
    match goal with
    | |- ∀ a b, _ → _ → Leibniz.eqb (weightedSquare ?w a b) _ = true =>
      apply (for_all_byte_pairs_spec
               (λ a b, Leibniz.eqb (weightedSquare w a b) (weightedSquare w b a)))
    end; vm_compute; reflexivity.
Qed.

Lemma channel_difference_diag a :
  is_uint8 a = true → (Z2F a - Z2F a)%float = 0%float.
Proof.
  intros Ha. apply Leibniz.eqb_spec.
  assert (forallb (λ a, Leibniz.eqb (Z2F a - Z2F a)%float 0%float) all_bytes
          = true) as Hall by (vm_compute; reflexivity).
  rewrite forallb_forall in Hall.
  exact (Hall a (proj1 (list_elem_of_In _ _) (all_bytes_spec a Ha))).
Qed.

(** X16. [colorDistance] is symmetric and is 0 between a colour and itself,
    in both the perceptual and the plain mode; the plain distance is the
    distance [colorSimilarity] is computed from. *)
Theorem colorDistance_symmetric (c1 c2 : Color) (perceptual : bool) :
  wf_color c1 = true → wf_color c2 = true →
  colorDistance c1 c2 perceptual = colorDistance c2 c1 perceptual ∧
  colorDistance c1 c1 perceptual = 0%float ∧
  colorSimilarity c1 c2
  = (1.0 - colorDistance c1 c2 false / maxDistance)%float.
Proof.
  intros Hc1 Hc2.
  pose proof Hc1 as (Hr1 & Hg1 & Hb1)%wf_color_channels.
  pose proof Hc2 as (Hr2 & Hg2 & Hb2)%wf_color_channels.
  split; [|split; [|reflexivity]].
  - destruct perceptual.
    + change (colorDistance c1 c2 true)
        with (PrimFloat.sqrt (weightedSquare 0.299 (c_r c1) (c_r c2)
                              + weightedSquare 0.587 (c_g c1) (c_g c2)
                              + weightedSquare 0.114 (c_b c1) (c_b c2))%float).
      rewrite (weightedSquare_sym _ (c_r c1)), (weightedSquare_sym _ (c_g c1)),
        (weightedSquare_sym _ (c_b c1)) by auto.
      reflexivity.
    + change (colorDistance c1 c2 false)
        with (PrimFloat.sqrt (squaredDifference (c_r c1) (c_r c2)
                              + squaredDifference (c_g c1) (c_g c2)
                              + squaredDifference (c_b c1) (c_b c2))%float).
      rewrite (squaredDifference_sym (c_r c1)), (squaredDifference_sym (c_g c1)),
        (squaredDifference_sym (c_b c1)) by done.
      reflexivity.
  - unfold colorDistance. rewrite !channel_difference_diag by done.
    destruct perceptual; vm_compute; reflexivity.
Qed.

Lemma colorDistance_symmetric_witness :
  colorDistance red blue true = colorDistance blue red true.
Proof.
  apply (colorDistance_symmetric red blue true); reflexivity.
Defined.

(** ** The adaptive threshold in a flat neighbourhood *)

Lemma localColors_default_count gr x y :
  valid_point gr (mkPoint x y) →
  1 ≤ Z.of_nat (length (localColors gr x y defaultRadius)) ≤ 49.
Proof.
  intros Hv%isValidCoordinate_spec. simpl in Hv. unfold defaultRadius.
  unfold localColors. rewrite length_grid, !length_seqZ.
  set (rows := Z.min (rg_height_ gr - 1) (y + 3) - Z.max 0 (y - 3) + 1).
  set (cols := Z.min (rg_width_ gr - 1) (x + 3) - Z.max 0 (x - 3) + 1).
  assert (1 ≤ rows ≤ 7) by lia. assert (1 ≤ cols ≤ 7) by lia.
  rewrite Nat2Z.inj_mul, !Z2Nat.id by lia. nia.
Qed.

Lemma flat_variance_fold c colors :
  wf_color c = true → Forall (λ c', c' = c) colors →
  fold_left (addDeviation c) colors 0%float = 0%float.
Proof.
  intros (Hr & Hg & Hb)%wf_color_channels.
  induction 1 as [|c' colors -> _ IH]; simpl; [done|].
  replace (addDeviation c 0 c) with 0%float; [done|].
  unfold addDeviation. rewrite !channel_difference_diag by done.
  vm_compute. reflexivity.
Qed.

Lemma zero_over_count n :
  1 ≤ n ≤ 49 →
  (0 / (Z2F n * 3.0 * 255.0 * 255.0))%float = 0%float.
Proof.
  intros Hn. apply Leibniz.eqb_spec.
  assert (forallb (λ n, Leibniz.eqb (0 / (Z2F n * 3.0 * 255.0 * 255.0))%float
                                    0%float) (seqZ 1 49) = true) as Hall
    by (vm_compute; reflexivity).
  rewrite forallb_forall in Hall. apply Hall.
  apply list_elem_of_In, elem_of_seqZ. lia.
Qed.

(** X17. Where every pixel of the clipped 7×7 window has one colour, the
    variance is exactly 0 and [calculateAdaptiveThreshold] returns
    [base + (1 - base) · 1 · 0.3]: the whole of the 0.3 relaxation is
    applied. *)
Theorem calculateAdaptiveThreshold_flat
    (gr : AdaptiveRegionGrower) (x y : Z) (c : Color) :
  wf_color c = true →
  0 ≤ x < rg_width_ gr → 0 ≤ y < rg_height_ gr →
  (∀ p, p ∈ clippedWindow gr x y defaultRadius →
        getPixel (image_ gr) (p_x p) (p_y p) = c) →
  calculateAdaptiveThreshold gr x y defaultRadius =
  (similarityThreshold_ gr
   + (1.0 - similarityThreshold_ gr) * 1.0 * 0.3)%float.
Proof.
  intros Hc Hx Hy Hflat.
  assert (valid_point gr (mkPoint x y)) as Hvalid
    by (apply isValidCoordinate_spec; done).
  pose proof (localColors_default_count gr x y Hvalid) as Hcount.
  assert (Forall (λ c', c' = c) (localColors gr x y defaultRadius)) as Hall.
  { rewrite localColors_sampled by (unfold defaultRadius; lia).
    unfold sampledColors, memberPixels. apply Forall_map, Forall_forall.
    exact Hflat. }
  assert (averageOf (localColors gr x y defaultRadius) = c) as Havg.
  { apply averageOf_uniform; try done.
    - intros Heq. rewrite Heq in Hcount. simpl in Hcount. lia.
    - unfold maxExactCount. lia. }
  unfold calculateAdaptiveThreshold.
  rewrite Havg, flat_variance_fold by done.
  rewrite to_int32_small by lia. rewrite zero_over_count by done.
  reflexivity.
Qed.

Lemma calculateAdaptiveThreshold_flat_witness :
  calculateAdaptiveThreshold (mkGrower twoReds 0.9%float 0 2 1 true) 0 0
                             defaultRadius
  = (0.9 + (1.0 - 0.9) * 1.0 * 0.3)%float.
Proof.
  apply (calculateAdaptiveThreshold_flat
           (mkGrower twoReds 0.9%float 0 2 1 true) 0 0 red).
  - reflexivity.
  - simpl; lia.
  - simpl; lia.
  - intros p Hp. vm_compute in Hp.
    repeat (apply elem_of_cons in Hp as [->|Hp]; [reflexivity|]).
    by apply elem_of_nil in Hp.
Defined.

(** ** Raw pixel data *)

Lemma rasterOrder_indices width (rows : nat) :
  0 ≤ width →
  map (λ xy : Z * Z, xy.2 * width + xy.1) (rasterOrder width (Z.of_nat rows))
  = seqZ 0 (width * Z.of_nat rows).
Proof.
  intros Hw. unfold rasterOrder. induction rows as [|rows IH].
  - simpl. rewrite Z.mul_0_r. done.
  - rewrite seqZ_S, bind_app, map_app, IH. simpl.
    rewrite app_nil_r, Z.add_0_l.
    replace (width * Z.of_nat (S rows))
      with (width * Z.of_nat rows + width) by lia.
    rewrite seqZ_app by lia. f_equal.
    replace (0 + width * Z.of_nat rows) with (width * Z.of_nat rows + 0)
      by lia.
    rewrite <- (fmap_add_seqZ (width * Z.of_nat rows) 0).
    generalize (seqZ 0 width). intros xs.
    induction xs as [|x xs IHx]; [done|]. rewrite bind_cons. simpl.
    rewrite IHx. f_equal. lia.
Qed.

Lemma rasterOrder_in_bounds width height xy :
  xy ∈ rasterOrder width height → 0 ≤ xy.1 < width ∧ 0 ≤ xy.2 < height.
Proof.
  unfold rasterOrder. intros (y & Hxy & Hy)%list_elem_of_bind.
  apply list_elem_of_bind in Hxy as (x & Hxy & Hx).
  apply list_elem_of_singleton in Hxy as ->. simpl.
  apply elem_of_seqZ in Hx, Hy. lia.
Qed.

Lemma seqZ_to_nat n : map Z.to_nat (seqZ 0 n) = seq 0 (Z.to_nat n).
Proof.
  unfold seqZ. rewrite map_map.
  rewrite (map_ext _ id) by (intros i; simpl; lia). apply map_id.
Qed.

Lemma fold_left_through {A B C} (body : A → B → A) (byIndex : A → C → A)
    (f : B → C) (l : list B) :
  (∀ acc x, x ∈ l → body acc x = byIndex acc (f x)) →
  ∀ init, fold_left body l init = fold_left byIndex (map f l) init.
Proof.
  induction l as [|x l IH]; intros Hbody init; simpl; [done|].
  rewrite Hbody by by left. apply IH. intros acc y Hy. apply Hbody. by right.
Qed.

(** A loop over the grid whose body depends on the coordinates only through
    the row-major index is a loop over the indices. *)
Lemma fold_rasterOrder {A} (body : A → Z * Z → A) (byIndex : A → nat → A)
    width height init :
  0 ≤ width → 0 ≤ height →
  (∀ acc xy, 0 ≤ xy.1 < width → 0 ≤ xy.2 < height →
             body acc xy = byIndex acc (Z.to_nat (xy.2 * width + xy.1))) →
  fold_left body (rasterOrder width height) init
  = fold_left byIndex (seq 0 (Z.to_nat (width * height))) init.
Proof.
  intros Hw Hh Hbody.
  rewrite (fold_left_through body byIndex
             (λ xy : Z * Z, Z.to_nat (xy.2 * width + xy.1))).
  - f_equal.
    rewrite <- (map_map (λ xy : Z * Z, xy.2 * width + xy.1) Z.to_nat).
    rewrite <- (Z2Nat.id height) at 1 by done.
    rewrite rasterOrder_indices, Z2Nat.id by done. apply seqZ_to_nat.
  - intros acc xy (Hx & Hy)%rasterOrder_in_bounds. by apply Hbody.
Qed.

Lemma interleaved_length pixels :
  length (interleaved pixels) = (3 * length pixels)%nat.
Proof.
  unfold interleaved. induction pixels as [|c pixels IH]; [done|].
  rewrite bind_cons. simpl. rewrite IH. lia.
Qed.

Lemma interleaved_app l1 l2 :
  interleaved (l1 ++ l2) = interleaved l1 ++ interleaved l2.
Proof. apply bind_app. Qed.

(** The bytes of pixel [i] sit at [3i], [3i+1], [3i+2]. *)
Lemma interleaved_lookup pixels i c :
  pixels !! i = Some c →
  interleaved pixels !! (3 * i)%nat = Some (c_r c) ∧
  interleaved pixels !! S (3 * i) = Some (c_g c) ∧
  interleaved pixels !! S (S (3 * i)) = Some (c_b c).
Proof.
  revert i. induction pixels as [|c' pixels IH]; intros i Hi; [done|].
  destruct i as [|i].
  - injection Hi as ->. done.
  - simpl in Hi. destruct (IH i Hi) as (Hr & Hg & Hb).
    replace (3 * S i)%nat with (S (S (S (3 * i)))) by lia.
    unfold interleaved in *. rewrite bind_cons. simpl. done.
Qed.

(** After [m] turns the first [m] pixels are stored and the rest of the
    buffer is still zero. *)
Lemma storeRaw_prefix (pixels : list Color) (m : nat) :
  (m ≤ length pixels)%nat →
  fold_left (λ data i,
               let color := default Color_default (pixels !! i) in
               <[S (S (3 * i)) := c_b color]>
                 (<[S (3 * i) := c_g color]> (<[(3 * i)%nat := c_r color]> data)))
            (seq 0 m) (replicate (3 * length pixels) 0)
  = interleaved (take m pixels) ++ replicate (3 * (length pixels - m)) 0.
Proof.
  induction m as [|m IH]; intros Hm.
  - simpl. by rewrite Nat.sub_0_r.
  - rewrite seq_S, fold_left_app, IH by lia. simpl.
    destruct (lookup_lt_is_Some_2 pixels m) as [c Hc]; [lia|].
    rewrite Hc. simpl.
    rewrite (take_S_r _ _ _ Hc), interleaved_app.
    assert (length (interleaved (take m pixels)) = (3 * m)%nat) as Hlen
      by (rewrite interleaved_length, length_take; lia).
    replace (m + (m + (m + 0)))%nat with (length (interleaved (take m pixels)) + 0)%nat
      by lia.
    rewrite insert_app_r.
    replace (S (length (interleaved (take m pixels)) + 0))
      with (length (interleaved (take m pixels)) + 1)%nat by lia.
    rewrite insert_app_r.
    replace (S (length (interleaved (take m pixels)) + 1))
      with (length (interleaved (take m pixels)) + 2)%nat by lia.
    rewrite insert_app_r, <- app_assoc. f_equal.
    destruct (length pixels - m)%nat as [|k] eqn:Hk; [lia|].
    replace (length pixels - S m)%nat with k by lia.
    replace (S k + (S k + (S k + 0)))%nat
      with (S (S (S (k + (k + (k + 0)))))) by lia.
    done.
Qed.

Lemma loadRaw_prefix (data : list Z) (total m : nat) :
  (m ≤ total)%nat →
  fold_left (λ pixels i,
               <[i := mkColor (rawByte data (3 * i)) (rawByte data (S (3 * i)))
                              (rawByte data (S (S (3 * i))))]> pixels)
            (seq 0 m) (replicate total Color_default)
  = map (λ i, mkColor (rawByte data (3 * i)) (rawByte data (S (3 * i)))
                      (rawByte data (S (S (3 * i))))) (seq 0 m)
    ++ replicate (total - m) Color_default.
Proof.
  induction m as [|m IH]; intros Hm.
  - simpl. by rewrite Nat.sub_0_r.
  - rewrite seq_S, fold_left_app, IH by lia. simpl.
    rewrite map_app. simpl.
    replace (total - m)%nat with (S (total - S m)) by lia.
    set (done := map _ (seq 0 m)).
    assert (length done = m) as Hlen
      by (subst done; by rewrite length_map, length_seq).
    replace m with (length done + 0)%nat at 1 by lia.
    rewrite insert_app_r. simpl. by rewrite <- app_assoc.
Qed.

Lemma rawData_interleaved img :
  0 ≤ width_ img → 0 ≤ height_ img →
  Z.of_nat (length (pixels_ img)) = width_ img * height_ img →
  rawData img = interleaved (pixels_ img).
Proof.
  intros Hw Hh Hlen. unfold rawData.
  rewrite (fold_rasterOrder (storeRaw img)
             (λ data i,
                let color := default Color_default (pixels_ img !! i) in
                <[S (S (3 * i)) := c_b color]>
                  (<[S (3 * i) := c_g color]>
                     (<[(3 * i)%nat := c_r color]> data)))); [|done..|].
  - replace (Z.to_nat (width_ img * height_ img * 3))
      with (3 * length (pixels_ img))%nat by lia.
    replace (Z.to_nat (width_ img * height_ img))
      with (length (pixels_ img)) by lia.
    rewrite storeRaw_prefix by done.
    by rewrite firstn_all, Nat.sub_diag, app_nil_r.
  - intros data [x y] Hx Hy; simpl in *. unfold storeRaw; simpl.
    assert (0 ≤ y * width_ img) by (apply Z.mul_nonneg_nonneg; lia).
    replace (Z.to_nat ((y * width_ img + x) * 3))
      with (3 * Z.to_nat (y * width_ img + x))%nat by lia.
    unfold getPixel, getIndex.
    replace (out_of_bounds img x y) with false; [done|].
    symmetry. apply out_of_bounds_false. done.
Qed.

Lemma Image_of_raw_closed width height data :
  0 ≤ width → 0 ≤ height →
  Image_of_raw width height data
  = mkImage width height
      (map (λ i, mkColor (rawByte data (3 * i)) (rawByte data (S (3 * i)))
                         (rawByte data (S (S (3 * i)))))
           (seq 0 (Z.to_nat (width * height)))).
Proof.
  intros Hw Hh. unfold Image_of_raw. f_equal.
  rewrite (fold_rasterOrder (loadRaw width data)
             (λ pixels i,
                <[i := mkColor (rawByte data (3 * i)) (rawByte data (S (3 * i)))
                               (rawByte data (S (S (3 * i))))]> pixels));
    [|done..|].
  - rewrite loadRaw_prefix by done. by rewrite Nat.sub_diag, app_nil_r.
  - intros pixels [x y] Hx Hy; simpl in *. unfold loadRaw; simpl.
    assert (0 ≤ y * width) by (apply Z.mul_nonneg_nonneg; lia).
    by replace (Z.to_nat ((y * width + x) * 3))
      with (3 * Z.to_nat (y * width + x))%nat by lia.
Qed.

Lemma raw_of_interleaved pixels :
  map (λ i, mkColor (rawByte (interleaved pixels) (3 * i))
                    (rawByte (interleaved pixels) (S (3 * i)))
                    (rawByte (interleaved pixels) (S (S (3 * i)))))
      (seq 0 (length pixels))
  = pixels.
Proof.
  apply list_eq. intros i. rewrite list_lookup_fmap.
  destruct (pixels !! i) as [c|] eqn:Hc.
  - rewrite lookup_seq_lt by (by eapply lookup_lt_Some). simpl.
    destruct (interleaved_lookup pixels i c Hc) as (Hr & Hg & Hb).
    change (i + (i + (i + 0)))%nat with (3 * i)%nat.
    unfold rawByte. rewrite Hr, Hg, Hb. by destruct c.
  - rewrite lookup_seq_ge; [done|]. by apply lookup_ge_None.
Qed.

Lemma interleaved_of_raw data (total m : nat) :
  length data = (3 * total)%nat → (m ≤ total)%nat →
  interleaved (map (λ i, mkColor (rawByte data (3 * i))
                                 (rawByte data (S (3 * i)))
                                 (rawByte data (S (S (3 * i)))))
                   (seq 0 m))
  = take (3 * m) data.
Proof.
  intros Hlen. induction m as [|m IH]; intros Hm; [done|].
  rewrite seq_S, map_app, interleaved_app, IH by lia.
  destruct (lookup_lt_is_Some_2 data (3 * m)) as [r Hr]; [lia|].
  destruct (lookup_lt_is_Some_2 data (S (3 * m))) as [g Hg]; [lia|].
  destruct (lookup_lt_is_Some_2 data (S (S (3 * m)))) as [b Hb]; [lia|].
  replace (3 * S m)%nat with (S (S (S (3 * m)))) by lia.
  rewrite (take_S_r _ _ _ Hb), (take_S_r _ _ _ Hg), (take_S_r _ _ _ Hr).
  rewrite <- !app_assoc. f_equal.
  change (0 + m)%nat with m. unfold rawByte.
  cbn [map]. rewrite Hr, Hg, Hb. reflexivity.
Qed.

(** X18. The buffer [save] builds holds the pixels row by row, three bytes
    each, and the loop of [Image(filename)] inverts it: loading the saved
    buffer of a constructed image gives the image back, and saving an image
    loaded from a buffer of [3 · width · height] bytes gives the buffer
    back.  The byte offsets [(y * width + x) * 3] are [int]s in the source,
    so the buffer size is taken below 2^31. *)
Theorem rawData_round_trip :
  (∀ img, wf_image img → 3 * width_ img * height_ img < 2 ^ 31 →
     rawData img = interleaved (pixels_ img) ∧
     Z.of_nat (length (rawData img)) = 3 * width_ img * height_ img ∧
     Image_of_raw (width_ img) (height_ img) (rawData img) = img) ∧
  (∀ width height data,
     0 < width → 0 < height → 3 * width * height < 2 ^ 31 →
     Z.of_nat (length data) = 3 * width * height →
     rawData (Image_of_raw width height data) = data).
Proof.
  split.
  - intros img (Hw & Hh & _ & Hlen & _) _.
    assert (rawData img = interleaved (pixels_ img)) as Hraw
      by (apply rawData_interleaved; lia).
    split; [done|]. split.
    + rewrite Hraw, interleaved_length. lia.
    + rewrite Image_of_raw_closed, Hraw by lia.
      destruct img as [w h pixels]; simpl in *. f_equal.
      replace (Z.to_nat (w * h)) with (length pixels) by lia.
      apply raw_of_interleaved.
  - intros width height data Hw Hh _ Hlen.
    assert (0 < width * height) by (apply Z.mul_pos_pos; lia).
    rewrite Image_of_raw_closed by lia.
    rewrite rawData_interleaved; simpl.
    + rewrite (interleaved_of_raw data (Z.to_nat (width * height))) by lia.
      apply firstn_all2. lia.
    + lia.
    + lia.
    + rewrite length_map, length_seq. lia.
Qed.

Lemma rawData_round_trip_witness :
  rawData quad = [10; 20; 30; 40; 50; 60; 70; 80; 90; 100; 110; 120] ∧
  Image_of_raw 2 2 (rawData quad) = quad.
Proof.
  destruct rawData_round_trip as [Hsave _].
  destruct (Hsave quad quad_wf) as (Hraw & _ & Hload); [simpl; lia|].
  split; [rewrite Hraw; reflexivity|exact Hload].
Defined.

(** ** Strings, extensions and the choice of encoder *)

Lemma string_mem_tolower c s :
  char_tolower c = c → (∀ a, char_tolower a = c → a = c) →
  string_mem c (string_tolower s) = string_mem c s.
Proof.
  intros Hfix Honly. induction s as [|a s IH]; [done|]. simpl. rewrite IH.
  f_equal. destruct (Ascii.eqb_spec (char_tolower a) c) as [Heq|Hne].
  - apply Honly in Heq as ->. symmetry. apply Ascii.eqb_refl.
  - symmetry. apply Ascii.eqb_neq. intros ->. by rewrite Hfix in Hne.
Qed.

Lemma char_tolower_idemp a : char_tolower (char_tolower a) = char_tolower a.
Proof. by destruct a as [[] [] [] [] [] [] [] []]. Qed.

Lemma char_tolower_dot a : char_tolower a = char_dot → a = char_dot.
Proof. by destruct a as [[] [] [] [] [] [] [] []]. Qed.

Lemma string_tolower_idemp s :
  string_tolower (string_tolower s) = string_tolower s.
Proof.
  induction s as [|a s IH]; [done|]. simpl.
  by rewrite char_tolower_idemp, IH.
Qed.

Lemma string_find_last_None c s :
  string_mem c s = false → string_find_last c s = None.
Proof.
  induction s as [|a s IH]; [done|]. simpl.
  intros [Ha Hs]%orb_false_iff. by rewrite IH, Ha.
Qed.

Lemma string_find_last_append c stem ext :
  string_mem c ext = false →
  string_find_last c (stem +:+ String c ext) = Some (String.length stem).
Proof.
  intros Hext. induction stem as [|a stem IH]; simpl.
  - by rewrite string_find_last_None, Ascii.eqb_refl.
  - by rewrite IH.
Qed.

Lemma string_drop_separator stem c s :
  string_drop (S (String.length stem)) (stem +:+ String c s) = s.
Proof. induction stem as [|a stem IH]; [by destruct s|done]. Qed.

Lemma string_take_append stem s :
  string_take (String.length stem) (stem +:+ s) = stem.
Proof.
  induction stem as [|a stem IH]; [by destruct s|]. simpl. by rewrite IH.
Qed.

Lemma string_find_last_drop c s pos :
  string_find_last c s = Some pos →
  string_mem c (string_drop (S pos) s) = false.
Proof.
  revert pos. induction s as [|a s IH]; intros pos; simpl; [done|].
  destruct (string_find_last c s) as [i|] eqn:Hlast.
  - intros [= <-]. by apply IH.
  - destruct (Ascii.eqb a c); [|done]. intros [= <-].
    clear IH. induction s as [|b s IHs]; [done|]. simpl in *.
    destruct (string_find_last c s); [done|].
    destruct (Ascii.eqb b c); [done|]. by apply IHs.
Qed.

Lemma string_find_last_mem c s :
  string_find_last c s = None → string_mem c s = false.
Proof.
  induction s as [|a s IH]; [done|]. simpl.
  destruct (string_find_last c s); [done|].
  destruct (Ascii.eqb a c); [done|]. intros _. by apply IH.
Qed.

Lemma extensionOf_no_dot filename :
  string_mem char_dot filename = false →
  extensionOf filename = string_tolower filename.
Proof.
  intros Hno. unfold extensionOf. by rewrite string_find_last_None.
Qed.

(** X19. [Image::save] chooses the encoder from the text after the last dot
    of the file name, read without regard to case: the extension of
    [stem.ext] is [ext] lower-cased whenever [ext] has no dot, whatever
    the stem (dots included); the extension so computed never contains a
    dot; the encoder is the one of the lower-cased extension taken as a file
    name of its own; and every extension other than [jpg], [jpeg] and [bmp]
    gives PNG. *)
Theorem encoderOf_by_extension (stem ext : string) :
  string_mem char_dot ext = false →
  extensionOf (stem +:+ String char_dot ext) = string_tolower ext ∧
  string_mem char_dot (extensionOf (stem +:+ String char_dot ext)) = false ∧
  encoderOf (stem +:+ String char_dot ext) = encoderOf (string_tolower ext) ∧
  (string_tolower ext ∉ ["jpg"; "jpeg"; "bmp"] →
   encoderOf (stem +:+ String char_dot ext) = stbi_write_png).
Proof.
  intros Hext.
  assert (extensionOf (stem +:+ String char_dot ext) = string_tolower ext)
    as Hextension.
  { unfold extensionOf.
    by rewrite string_find_last_append, string_drop_separator. }
  assert (string_mem char_dot (string_tolower ext) = false) as Hlower.
  { rewrite string_mem_tolower; [done|done|apply char_tolower_dot]. }
  split; [done|]. split; [by rewrite Hextension|]. split.
  - unfold encoderOf.
    by rewrite Hextension, extensionOf_no_dot, string_tolower_idemp.
  - intros Hother. unfold encoderOf. rewrite Hextension.
    assert (string_tolower ext ≠ "jpg" ∧ string_tolower ext ≠ "jpeg" ∧
            string_tolower ext ≠ "bmp") as (Hjpg & Hjpeg & Hbmp).
    { repeat split; intros Heq; apply Hother; rewrite Heq;
        repeat constructor. }
    rewrite (bool_decide_eq_false_2 _ Hjpg), (bool_decide_eq_false_2 _ Hjpeg),
      (bool_decide_eq_false_2 _ Hbmp).
    by case_bool_decide.
Qed.

Lemma encoderOf_by_extension_witness :
  encoderOf "out.final.JPG" = encoderOf "jpg" ∧
  extensionOf "out.final.JPG" = "jpg".
Proof.
  destruct (encoderOf_by_extension "out.final" "JPG") as (Hext & _ & Henc & _);
    [reflexivity|].
  split; [exact Henc|exact Hext].
Defined.

(** X20. For every file name, the extension [save] computes contains no
    dot and is already lower-case, so computing the extension again changes
    nothing, and the encoder chosen for a file name is the encoder chosen
    for its extension alone: a file called [bmp] is written as BMP. *)
Theorem extensionOf_idempotent (filename : string) :
  string_mem char_dot (extensionOf filename) = false ∧
  string_tolower (extensionOf filename) = extensionOf filename ∧
  extensionOf (extensionOf filename) = extensionOf filename ∧
  encoderOf (extensionOf filename) = encoderOf filename.
Proof.
  assert (string_mem char_dot (extensionOf filename) = false) as Hno.
  { unfold extensionOf.
    rewrite string_mem_tolower; [|done|apply char_tolower_dot].
    destruct (string_find_last char_dot filename) as [pos|] eqn:Hlast.
    - by apply string_find_last_drop.
    - by apply string_find_last_mem. }
  assert (string_tolower (extensionOf filename) = extensionOf filename)
    as Hlower by apply string_tolower_idemp.
  assert (extensionOf (extensionOf filename) = extensionOf filename) as Hidem
    by (by rewrite extensionOf_no_dot).
  repeat split; try done. unfold encoderOf. by rewrite Hidem.
Qed.

(** ** ArgumentParser *)

Lemma starts_with_dash_spec arg :
  bool_decide (substr 0 1 arg = "-") = starts_with_dash arg.
Proof.
  destruct arg as [|a s]; [done|]. unfold substr. simpl.
  replace (string_take 0 s) with EmptyString by (by destruct s).
  destruct (Ascii.eqb_spec a char_dash) as [->|Hne].
  - by apply bool_decide_eq_true_2.
  - apply bool_decide_eq_false_2. intros [= ->]. by apply Hne.
Qed.

Lemma double_dash_starts_with_dash arg :
  substr 0 2 arg = "--" → starts_with_dash arg = true.
Proof.
  destruct arg as [|a s]; [done|]. unfold substr. simpl.
  intros [= -> _]. done.
Qed.

Lemma hasOption_setOption p key key' value :
  hasOption p key = true → hasOption (setOption key' value p) key = true.
Proof.
  unfold hasOption, setOption. simpl.
  intros Hp%bool_decide_eq_true_1. apply bool_decide_eq_true_2.
  destruct (decide (key' = key)) as [->|Hne].
  - rewrite lookup_insert_eq. by eexists.
  - by rewrite lookup_insert_ne.
Qed.

Lemma parseArguments_positional_only argv p :
  Forall (λ a, starts_with_dash a = false) argv →
  parseArguments argv p
  = mkArgumentParser (args_ p) (positionalArgs_ p ++ argv).
Proof.
  intros Hall. revert p.
  induction Hall as [|arg rest Harg _ IH]; intros p.
  - simpl. rewrite app_nil_r. by destruct p.
  - simpl. rewrite bool_decide_eq_false_2.
    + rewrite starts_with_dash_spec, Harg, IH. simpl.
      by rewrite <- app_assoc.
    + intros Hdd%double_dash_starts_with_dash. congruence.
Qed.

Lemma parseArguments_shape (n : nat) :
  ∀ argv p, (length argv ≤ n)%nat →
    (∃ l, positionalArgs_ (parseArguments argv p) = positionalArgs_ p ++ l ∧
          l `sublist_of` argv ∧
          Forall (λ a, starts_with_dash a = false) l) ∧
    (∀ key, hasOption p key = true →
            hasOption (parseArguments argv p) key = true).
Proof.
  induction n as [|n IH]; intros argv p Hn.
  { destruct argv; [|simpl in Hn; lia]. simpl. split; [|done].
    exists []. by rewrite app_nil_r. }
  destruct argv as [|arg rest].
  { simpl. split; [|done]. exists []. by rewrite app_nil_r. }
  simpl in Hn.
  assert (∀ p' rest', (length rest' ≤ n)%nat → rest' `sublist_of` rest →
            positionalArgs_ p' = positionalArgs_ p →
            (∀ key, hasOption p key = true → hasOption p' key = true) →
            (∃ l, positionalArgs_ (parseArguments rest' p')
                  = positionalArgs_ p ++ l ∧
                  l `sublist_of` (arg :: rest) ∧
                  Forall (λ a, starts_with_dash a = false) l) ∧
            (∀ key, hasOption p key = true →
                    hasOption (parseArguments rest' p') key = true))
    as Hoption.
  { intros p' rest' Hlen Hsub Hpos Hopt.
    destruct (IH rest' p' Hlen) as [(l & Hl & Hsubl & Hdash) Hkeys].
    split.
    - exists l. rewrite Hl, Hpos. split; [done|]. split; [|done].
      apply sublist_cons. by etrans.
    - intros key Hkey. by apply Hkeys, Hopt. }
  simpl. destruct (bool_decide (substr 0 2 arg = "--")) eqn:Hdd.
  { destruct (string_find char_equals arg) as [equalPos|];
      (apply Hoption; [lia|done|done|]);
      intros key Hkey; by apply hasOption_setOption. }
  rewrite starts_with_dash_spec.
  destruct (starts_with_dash arg) eqn:Hdash.
  - destruct rest as [|next rest'].
    { apply Hoption; [simpl; lia|done|done|].
      intros key Hkey. by apply hasOption_setOption. }
    simpl in Hn. destruct (starts_with_dash next); cbn [negb].
    + apply (Hoption (setOption (string_drop 1 arg) "true" p) (next :: rest'));
        [simpl; lia|done|done|].
      intros key Hkey. by apply hasOption_setOption.
    + apply (Hoption (setOption (string_drop 1 arg) next p) rest');
        [lia|by apply sublist_cons|done|].
      intros key Hkey. by apply hasOption_setOption.
  - destruct (IH rest (addPositional arg p)) as [(l & Hl & Hsubl & Hd) Hkeys];
      [lia|].
    split.
    + exists (arg :: l). rewrite Hl. simpl. rewrite <- app_assoc.
      split; [done|]. split; [by apply sublist_skip|by constructor].
    + intros key Hkey. by apply Hkeys.
Qed.

(** X21. [ArgumentParser] never loses what it has: the positional
    arguments after parsing are those before, followed by a subsequence of
    the command line in its order, none of which starts with a dash; an
    option that is set stays set; and a command line without any argument
    starting with a dash is kept whole as the positional arguments, with no
    option set. *)
Theorem parseArguments_positional (argv : list string) (p : ArgumentParser) :
  (∃ l, positionalArgs_ (parseArguments argv p) = positionalArgs_ p ++ l ∧
        l `sublist_of` argv ∧
        Forall (λ a, starts_with_dash a = false) l) ∧
  (∀ key, hasOption p key = true →
          hasOption (parseArguments argv p) key = true) ∧
  (Forall (λ a, starts_with_dash a = false) argv →
   ∀ program, ArgumentParser_new (program :: argv) = mkArgumentParser ∅ argv).
Proof.
  destruct (parseArguments_shape (length argv) argv p) as [Hpos Hkeys];
    [done|].
  split; [done|]. split; [done|].
  intros Hall program. unfold ArgumentParser_new. simpl.
  by rewrite parseArguments_positional_only.
Qed.

Lemma parseArguments_positional_witness :
  ArgumentParser_new ["compress"; "in.png"; "out.png"]
  = mkArgumentParser ∅ ["in.png"; "out.png"].
Proof.
  destruct (parseArguments_positional ["in.png"; "out.png"]
              (mkArgumentParser ∅ [])) as (_ & _ & Hall).
  apply Hall. by repeat constructor.
Defined.

Lemma string_find_append c key rest :
  string_mem c key = false →
  string_find c (key +:+ String c rest) = Some (String.length key).
Proof.
  induction key as [|a key IH]; simpl.
  - by rewrite Ascii.eqb_refl.
  - intros [Ha Hkey]%orb_false_iff. by rewrite Ha, IH.
Qed.

(** X22. The two option forms are read back as they were written.
    [--key=value] splits at the first ['=']: whenever [key] has no ['='],
    the option [key] is set to [value], which may itself contain ['='].
    [-key value] sets [key] to the next argument and consumes it, unless
    that argument starts with a dash; then [key] is set to ["true"] and the
    next argument is parsed on its own.  A later setting of a key replaces
    an earlier one. *)
Theorem parseArguments_options
    (key value : string) (rest : list string) (p : ArgumentParser) :
  (string_mem char_equals key = false →
   parseArguments (("--" +:+ key +:+ "=" +:+ value) :: rest) p
   = parseArguments rest (setOption key value p)) ∧
  (starts_with_dash key = false → starts_with_dash value = false →
   parseArguments (("-" +:+ key) :: value :: rest) p
   = parseArguments rest (setOption key value p)) ∧
  (starts_with_dash key = false → starts_with_dash value = true →
   parseArguments (("-" +:+ key) :: value :: rest) p
   = parseArguments (value :: rest) (setOption key "true" p)) ∧
  (∀ old defaultValue,
     getOption (setOption key value (setOption key old p)) key defaultValue
     = value).
Proof.
  assert (starts_with_dash key = false →
          bool_decide (substr 0 2 (String char_dash key) = "--") = false)
    as Hshort.
  { intros Hdash. apply bool_decide_eq_false_2.
    unfold substr. simpl. destruct key as [|a key]; [done|].
    simpl in *. replace (string_take 0 key) with EmptyString
      by (by destruct key).
    intros [= ->]. done. }
  split; [|split; [|split]].
  - intros Hkey.
    change ("--" +:+ key +:+ "=" +:+ value)
      with (String char_dash (String char_dash
              (key +:+ String char_equals value))).
    cbn [parseArguments].
    rewrite bool_decide_eq_true_2 by (unfold substr; simpl; by destruct key).
    cbn [string_find]. change (Ascii.eqb char_dash char_equals) with false.
    cbv iota. rewrite string_find_append by done.
    f_equal. f_equal.
    + unfold substr. simpl. rewrite Nat.sub_0_r. apply string_take_append.
    + replace (S (S (String.length key)) + 1)%nat
        with (S (S (S (String.length key)))) by lia.
      simpl. apply string_drop_separator.
  - intros Hdash Hvalue.
    change ("-" +:+ key) with (String char_dash key).
    cbn [parseArguments]. rewrite Hshort by done.
    rewrite starts_with_dash_spec. simpl. rewrite Hvalue. simpl.
    by destruct key.
  - intros Hdash Hvalue.
    change ("-" +:+ key) with (String char_dash key).
    cbn [parseArguments]. rewrite Hshort by done.
    rewrite starts_with_dash_spec. simpl. rewrite Hvalue. simpl.
    by destruct key.
  - intros old defaultValue. unfold getOption, setOption. simpl.
    by rewrite lookup_insert_eq.
Qed.

Lemma parseArguments_options_witness :
  parseArguments ["--threshold=0.9"; "in.png"] (mkArgumentParser ∅ [])
  = parseArguments ["in.png"]
      (setOption "threshold" "0.9" (mkArgumentParser ∅ [])) ∧
  parseArguments ["-t"; "0.9"; "in.png"] (mkArgumentParser ∅ [])
  = parseArguments ["in.png"] (setOption "t" "0.9" (mkArgumentParser ∅ [])).
Proof.
  split.
  - destruct (parseArguments_options "threshold" "0.9" ["in.png"]
                (mkArgumentParser ∅ [])) as (Hlong & _).
    apply Hlong. reflexivity.
  - destruct (parseArguments_options "t" "0.9" ["in.png"]
                (mkArgumentParser ∅ [])) as (_ & Hshort & _).
    apply Hshort; reflexivity.
Defined.
